(** * LLM gateway: a shallow embedding of the Go sources and the properties
    checked against them.

    The embedding follows the package layout of [llm-gateway/internal]:
    [provider] (wire types, the OpenAI and Anthropic clients, the registry),
    [cache] (the in-memory LRU cache), [metrics] (the collector),
    [middleware] (the rate limiter) and [server] (the HTTP handlers).

    Conventions.
    - Go [int], [int64] and [time.Duration] values are [Z]; where the source
      adds machine integers the wrap-around is written out ([int_add]).
    - [float64] is Rocq's primitive binary64 [float].
    - [[]byte] is [list byte]; Go strings are [string].
    - Pointer-typed optional fields ([*float64], [*int], [*bool], [*T]) are
      [option]s.
    - Go maps are [gmap]s; where the source ranges over a map the visiting
      order is an explicit argument.
    - Effects (the wall clock, [time.Sleep], the HTTP round trips) are threaded
      through a [World]; the replies of the upstream servers and the standard
      library's JSON/hash functions are parameters ([Net], [Lib]). *)

From Stdlib Require Import ZArith Lia Bool Strings.Byte.
From Stdlib Require Import Floats.PrimFloat Numbers.Cyclic.Int63.Uint63.
From stdpp Require Import base option list gmap strings pretty.

Local Open Scope string_scope.
Local Open Scope Z_scope.
Local Open Scope list_scope.
Set Warnings "-inexact-float,-clear-no-such-hyp".

(** ** Go primitives *)

Abbreviation bytes := (list Byte.byte).

(** [string(b)] and [[]byte(s)]. *)
Definition string_of_bytes (b : bytes) : string := String.string_of_list_byte b.
Definition bytes_of_string (s : string) : bytes := String.list_byte_of_string s.

(** [len(b)] for a byte slice. *)
Definition len (b : bytes) : Z := Z.of_nat (length b).

(** 64-bit two's-complement wrap-around of Go's [int] and [int64]. *)
Definition wrap64 (z : Z) : Z := (z + 2 ^ 63) mod 2 ^ 64 - 2 ^ 63.
Definition int_add (a b : Z) : Z := wrap64 (a + b).
Definition int_sub (a b : Z) : Z := wrap64 (a - b).

(** [float64(n)] for an [int] or [int64] [n]: round to nearest, ties to even. *)
Definition float_of_int (z : Z) : float :=
  if z =? - 2 ^ 63 then (- (of_uint63 (Uint63.of_Z (2 ^ 62)) * 2))%float
  else if z <? 0 then (- of_uint63 (Uint63.of_Z (- z)))%float
  else of_uint63 (Uint63.of_Z z).

(** [fmt.Sprintf("%d", n)]. *)
Definition fmt_d (n : Z) : string := pretty n.

(** [time.Second], [time.Minute] and [time.Hour] in nanoseconds. *)
Definition Second : Z := 1000000000.
Definition Minute : Z := 60 * Second.
Definition Hour : Z := 60 * Minute.

(** The outcome of a standard-library call that returns [(T, error)]. *)
Inductive Result (A : Type) : Type :=
| Ok (a : A)
| Err (msg : string).
Arguments Ok {A} a.
Arguments Err {A} msg.

(** ** net/http *)

Record HttpRequest := {
  Method : string;
  URL : string;
  Header : list (string * string);
  Body : option bytes
}.

(** What [http.Client.Do] returns: a transport-level error (connection
    failure, timeout, cancelled context) or a response. *)
Inductive HttpResult :=
| TransportError (msg : string)
| Response (StatusCode : Z) (body : bytes).

(** A call through the [Provider] interface: the provider's name, the method
    and, for the completion methods, the model of the request passed. *)
Record Call := {
  callee : string;
  method : string;
  callModel : string
}.

(** The process's view of the outside: the wall clock in nanoseconds, the
    requests sent upstream so far, and a log of the calls made through the
    [Provider] interface, both oldest first. The call log is an observer: no
    code reads it. *)
Record World := {
  now : Z;
  sent : list HttpRequest;
  called : list Call
}.

(** The upstream servers: the reply to the [n]-th round trip of the run and
    the time it takes. *)
Class Net := {
  RoundTrip : nat → HttpRequest → HttpResult;
  RoundTripTime : nat → HttpRequest → Z
}.

Definition IO (A : Type) : Type := World → A * World.

Definition ret {A} (a : A) : IO A := λ w, (a, w).
Definition bind {A B} (m : IO A) (k : A → IO B) : IO B :=
  λ w, let '(a, w') := m w in k a w'.

Notation "x <~ c ;; k" := (bind c (λ x, k))
  (at level 100, c at next level, right associativity).
Notation "c ;;; k" := (bind c (λ _, k))
  (at level 100, right associativity).

(** [time.Now()]. *)
Definition time_Now : IO Z := λ w, (now w, w).

(** [time.Sleep(d)]. *)
Definition time_Sleep (d : Z) : IO unit :=
  λ w, (tt, {| now := now w + Z.max 0 d; sent := sent w; called := called w |}).

(** [client.Do(req)]. *)
Definition client_Do {net : Net} (req : HttpRequest) : IO HttpResult :=
  λ w, let n := length (sent w) in
       (RoundTrip n req,
        {| now := now w + Z.max 0 (RoundTripTime n req); sent := sent w ++ [req];
           called := called w |}).

(** Entry into a method of the [Provider] interface. *)
Definition enter (c : Call) : IO unit :=
  λ w, (tt, {| now := now w; sent := sent w; called := called w ++ [c] |}).

(** ** Package config (config.go): the parts the gateway core reads *)

Module config.

Record ProviderConfig := {
  pc_Name : string;
  pc_APIKey : string;
  pc_BaseURL : string;
  pc_Models : list string;
  pc_Priority : Z;
  pc_Timeout : Z;
  pc_MaxRetries : Z
}.

Record ModelMapping := {
  mm_Provider : string;
  mm_Model : string
}.

Record RoutingConfig := {
  DefaultProvider : string;
  ModelMappings : gmap string ModelMapping;
  FallbackChain : list string
}.

Record CacheConfig := {
  cc_Enabled : bool;
  cc_Backend : string;
  cc_TTL : Z;
  cc_MaxSize : Z;
  cc_RedisURL : string
}.

(** [Window] is a [time.Duration], in nanoseconds. *)
Record RateLimit := {
  Requests : Z;
  Window : Z;
  Tokens : Z
}.

Record RateLimitConfig := {
  rl_Enabled : bool;
  Global : RateLimit;
  PerKey : RateLimit;
  PerModel : gmap string RateLimit
}.

Record Config := {
  Providers : list ProviderConfig;
  Routing : RoutingConfig;
  Cache : CacheConfig;
  RateLimitCfg : RateLimitConfig
}.

End config.

(** ** Package provider: wire types (types.go) *)

Module provider.

(** Record fields carry a short prefix of their struct's name, since several
    structs of the package share field names ([Model], [Provider], ...). *)

Record Message := {
  msg_Role : string;
  msg_Content : string;
  msg_Name : string
}.

Record GatewayExtensions := {
  gx_Cache : option bool;
  gx_Timeout : option Z;
  gx_Provider : string;
  gx_Metadata : gmap string string
}.

Record ChatCompletionRequest := {
  req_Model : string;
  req_Messages : list Message;
  req_Temperature : option float;
  req_TopP : option float;
  req_N : option Z;
  req_Stream : bool;
  req_Stop : list string;
  req_MaxTokens : option Z;
  req_PresencePenalty : option float;
  req_FrequencyPenalty : option float;
  req_User : string;
  req_XGateway : option GatewayExtensions
}.

Record Usage := {
  PromptTokens : Z;
  CompletionTokens : Z;
  TotalTokens : Z
}.

Record LogprobContent := {
  lp_Token : string;
  lp_Logprob : float
}.

Record Logprobs := {
  lps_Content : list LogprobContent
}.

Record Choice := {
  ch_Index : Z;
  ch_Message : Message;
  ch_FinishReason : string;
  ch_Logprobs : option Logprobs
}.

Record ChatCompletionResponse := {
  resp_ID : string;
  resp_Object : string;
  resp_Created : Z;
  resp_Model : string;
  resp_Choices : list Choice;
  resp_Usage : Usage;
  resp_SystemFingerprint : string
}.

Record ProviderMetrics := {
  pm_Provider : string;
  pm_Model : string;
  pm_PromptTokens : Z;
  pm_CompletionTokens : Z;
  pm_TotalTokens : Z;
  pm_LatencyMs : Z;
  pm_Cost : float;
  pm_Cached : bool;
  pm_Success : bool;
  pm_Timestamp : Z
}.

Record ProviderError := {
  pe_Provider : string;
  pe_StatusCode : Z;
  pe_Message : string;
  pe_Type : string
}.

(** A Go [error] value as the package produces them: a [*ProviderError], or
    an error built by [fmt.Errorf] or returned by the standard library, of
    which only the message is kept. *)
Inductive error :=
| ProviderErr (e : ProviderError)
| Errorf (msg : string).

(** [err.Error()]. *)
Definition Error (e : error) : string :=
  match e with
  | ProviderErr e => pe_Message e
  | Errorf msg => msg
  end.

(** How [fmt.Errorf]'s [%w] prints an error that may be nil. *)
Definition fmt_w (e : option error) : string :=
  match e with
  | Some e => Error e
  | None => "%!w(<nil>)"
  end.

(** [ModelPricing]: USD per 1K tokens, input and output. *)
Definition ModelPricing (model : string) : option (float * float) :=
  if decide (model = "gpt-4") then Some (0.03, 0.06)%float
  else if decide (model = "gpt-4-32k") then Some (0.06, 0.12)%float
  else if decide (model = "gpt-4-turbo") then Some (0.01, 0.03)%float
  else if decide (model = "gpt-4o") then Some (0.005, 0.015)%float
  else if decide (model = "gpt-4o-mini") then Some (0.00015, 0.0006)%float
  else if decide (model = "gpt-3.5-turbo") then Some (0.0005, 0.0015)%float
  else if decide (model = "claude-3-opus") then Some (0.015, 0.075)%float
  else if decide (model = "claude-3-sonnet") then Some (0.003, 0.015)%float
  else if decide (model = "claude-3-haiku") then Some (0.00025, 0.00125)%float
  else if decide (model = "claude-3-5-sonnet") then Some (0.003, 0.015)%float
  else None.

Definition CalculateCost (model : string) (promptTokens completionTokens : Z) : float :=
  match ModelPricing model with
  | None => 0%float
  | Some (Input, Output) =>
      let inputCost := (float_of_int promptTokens / 1000 * Input)%float in
      let outputCost := (float_of_int completionTokens / 1000 * Output)%float in
      (inputCost + outputCost)%float
  end.

(** ** Anthropic wire types (anthropic.go) *)

Record anthropicMessage := {
  am_Role : string;
  am_Content : string
}.

Record anthropicRequest := {
  ar_Model : string;
  ar_Messages : list anthropicMessage;
  ar_MaxTokens : Z;
  ar_Temperature : option float;
  ar_TopP : option float;
  ar_Stream : bool;
  ar_System : string
}.

Record anthropicContent := {
  ac_Type : string;
  ac_Text : string
}.

Record anthropicUsage := {
  InputTokens : Z;
  OutputTokens : Z
}.

Record anthropicResponse := {
  ares_ID : string;
  ares_Type : string;
  ares_Role : string;
  ares_Content : list anthropicContent;
  ares_Model : string;
  ares_StopReason : string;
  ares_StopSequence : option string;
  ares_Usage : anthropicUsage
}.

(** The standard-library functions the package calls, taken as parameters:
    [encoding/json] on the package's types, and whether
    [http.NewRequestWithContext] accepts a method and URL ([None]) or fails
    with a message. *)
Class Lib := {
  json_Marshal_ChatCompletionRequest : ChatCompletionRequest → Result bytes;
  json_Marshal_anthropicRequest : anthropicRequest → Result bytes;
  json_Decode_ChatCompletionResponse : bytes → Result ChatCompletionResponse;
  json_Decode_anthropicResponse : bytes → Result anthropicResponse;
  http_NewRequest_err : string → string → option string
}.

(** [http.NewRequestWithContext] followed by the [Header.Set] calls. *)
Definition http_NewRequest {lib : Lib} (method url : string) (body : option bytes)
    (hdr : list (string * string)) : Result HttpRequest :=
  match http_NewRequest_err method url with
  | Some msg => Err msg
  | None => Ok {| Method := method; URL := url; Header := hdr; Body := body |}
  end.

(** ** The retry loop shared, verbatim, by both clients *)

Section Retry.
Context {net : Net}.

(** The [for attempt := 0; attempt < maxRetries; attempt++] loop of
    [doWithRetry], with [n] the iterations still to run. The body of the
    request is re-read and reset on every iteration, so each attempt sends
    the same request. *)
Fixpoint retryLoop (n : nat) (attempt : Z) (lastErr : option error)
    (req : HttpRequest) : IO (error + Z * bytes) :=
  match n with
  | O => ret (inl (Errorf ("max retries exceeded: " +:+ fmt_w lastErr)))
  | S n' =>
      r <~ client_Do req ;;
      match r with
      | TransportError msg =>
          time_Sleep ((attempt + 1) * Second) ;;;
          retryLoop n' (attempt + 1) (Some (Errorf msg)) req
      | Response StatusCode body =>
          if (StatusCode =? 429) || (StatusCode >=? 500) then
            time_Sleep ((attempt + 1) * Second) ;;;
            retryLoop n' (attempt + 1)
              (Some (Errorf ("request failed with status " +:+ fmt_d StatusCode))) req
          else ret (inr (StatusCode, body))
      end
  end.

(** The number of attempts the loop is allowed: [p.maxRetries], or 3 when
    that is zero. *)
Definition effectiveMaxRetries (maxRetries : Z) : Z :=
  if maxRetries =? 0 then 3 else maxRetries.

Definition doWithRetry (maxRetries : Z) (req : HttpRequest) : IO (error + Z * bytes) :=
  retryLoop (Z.to_nat (effectiveMaxRetries maxRetries)) 0 None req.
End Retry.

(** ** The OpenAI-compatible client (openai.go) *)

Record OpenAIConfig := {
  oc_Name : string;
  oc_APIKey : string;
  oc_BaseURL : string;
  oc_Models : list string;
  oc_Timeout : Z;
  oc_MaxRetries : Z
}.

(** The [client] field ([*http.Client]) is represented by [Net]; its
    [Timeout] surfaces as a [TransportError]. *)
Record OpenAIProvider := {
  oa_name : string;
  oa_apiKey : string;
  oa_baseURL : string;
  oa_models : list string;
  oa_timeout : Z;
  oa_maxRetries : Z
}.

Definition NewOpenAIProvider (cfg : OpenAIConfig) : OpenAIProvider :=
  let baseURL := if decide (oc_BaseURL cfg = "") then "https://api.openai.com/v1"
                 else oc_BaseURL cfg in
  let timeout := if oc_Timeout cfg =? 0 then 60 * Second else oc_Timeout cfg in
  let models := if Nat.eqb (length (oc_Models cfg)) 0
                then ["gpt-4"; "gpt-4-turbo"; "gpt-4o"; "gpt-4o-mini"; "gpt-3.5-turbo"]
                else oc_Models cfg in
  {| oa_name := oc_Name cfg; oa_apiKey := oc_APIKey cfg; oa_baseURL := baseURL;
     oa_models := models; oa_timeout := timeout; oa_maxRetries := oc_MaxRetries cfg |}.

(** The [for _, m := range models] membership loop of [SupportsModel]. *)
Fixpoint containsModel (models : list string) (model : string) : bool :=
  match models with
  | [] => false
  | m :: rest => if decide (m = model) then true else containsModel rest model
  end.

(** [cleanReq := *req; cleanReq.XGateway = nil]. *)
Definition withXGateway (x : option GatewayExtensions) (req : ChatCompletionRequest)
    : ChatCompletionRequest :=
  {| req_Model := req_Model req; req_Messages := req_Messages req;
     req_Temperature := req_Temperature req; req_TopP := req_TopP req;
     req_N := req_N req; req_Stream := req_Stream req; req_Stop := req_Stop req;
     req_MaxTokens := req_MaxTokens req;
     req_PresencePenalty := req_PresencePenalty req;
     req_FrequencyPenalty := req_FrequencyPenalty req;
     req_User := req_User req; req_XGateway := x |}.

(** [streamReq.Stream = true]. *)
Definition withStream (b : bool) (req : ChatCompletionRequest) : ChatCompletionRequest :=
  {| req_Model := req_Model req; req_Messages := req_Messages req;
     req_Temperature := req_Temperature req; req_TopP := req_TopP req;
     req_N := req_N req; req_Stream := b; req_Stop := req_Stop req;
     req_MaxTokens := req_MaxTokens req;
     req_PresencePenalty := req_PresencePenalty req;
     req_FrequencyPenalty := req_FrequencyPenalty req;
     req_User := req_User req; req_XGateway := req_XGateway req |}.

Section OpenAI.
Context {net : Net} {lib : Lib}.

Definition OpenAI_Name (p : OpenAIProvider) : string := oa_name p.
Definition OpenAI_Models (p : OpenAIProvider) : list string := oa_models p.
Definition OpenAI_SupportsModel (p : OpenAIProvider) (model : string) : bool :=
  containsModel (oa_models p) model.

Definition OpenAI_doWithRetry (p : OpenAIProvider) (req : HttpRequest)
    : IO (error + Z * bytes) :=
  doWithRetry (oa_maxRetries p) req.

Definition OpenAI_ChatCompletion (p : OpenAIProvider) (req : ChatCompletionRequest)
    : IO (error + ChatCompletionResponse) :=
  (* Remove gateway extensions before sending *)
  let cleanReq := withXGateway None req in
  match json_Marshal_ChatCompletionRequest cleanReq with
  | Err msg => ret (inl (Errorf ("failed to marshal request: " +:+ msg)))
  | Ok body =>
      match http_NewRequest "POST" (oa_baseURL p +:+ "/chat/completions") (Some body)
              [("Content-Type", "application/json");
               ("Authorization", "Bearer " +:+ oa_apiKey p)] with
      | Err msg => ret (inl (Errorf ("failed to create request: " +:+ msg)))
      | Ok httpReq =>
          r <~ OpenAI_doWithRetry p httpReq ;;
          match r with
          | inl err => ret (inl err)
          | inr (StatusCode, bodyBytes) =>
              if negb (StatusCode =? 200) then
                ret (inl (ProviderErr {| pe_Provider := oa_name p;
                                         pe_StatusCode := StatusCode;
                                         pe_Message := string_of_bytes bodyBytes;
                                         pe_Type := "api_error" |}))
              else
                match json_Decode_ChatCompletionResponse bodyBytes with
                | Err msg => ret (inl (Errorf ("failed to decode response: " +:+ msg)))
                | Ok result => ret (inr result)
                end
          end
      end
  end.

(** A successful call returns the response body, the stream to relay. *)
Definition OpenAI_ChatCompletionStream (p : OpenAIProvider) (req : ChatCompletionRequest)
    : IO (error + bytes) :=
  (* Ensure streaming is enabled *)
  let streamReq := withXGateway None (withStream true req) in
  match json_Marshal_ChatCompletionRequest streamReq with
  | Err msg => ret (inl (Errorf ("failed to marshal request: " +:+ msg)))
  | Ok body =>
      match http_NewRequest "POST" (oa_baseURL p +:+ "/chat/completions") (Some body)
              [("Content-Type", "application/json");
               ("Authorization", "Bearer " +:+ oa_apiKey p);
               ("Accept", "text/event-stream")] with
      | Err msg => ret (inl (Errorf ("failed to create request: " +:+ msg)))
      | Ok httpReq =>
          r <~ client_Do httpReq ;;
          match r with
          | TransportError msg => ret (inl (Errorf ("request failed: " +:+ msg)))
          | Response StatusCode bodyBytes =>
              if negb (StatusCode =? 200) then
                ret (inl (ProviderErr {| pe_Provider := oa_name p;
                                         pe_StatusCode := StatusCode;
                                         pe_Message := string_of_bytes bodyBytes;
                                         pe_Type := "api_error" |}))
              else ret (inr bodyBytes)
          end
      end
  end.

Definition OpenAI_HealthCheck (p : OpenAIProvider) : IO (option error) :=
  match http_NewRequest "GET" (oa_baseURL p +:+ "/models") None
          [("Authorization", "Bearer " +:+ oa_apiKey p)] with
  | Err msg => ret (Some (Errorf msg))
  | Ok httpReq =>
      r <~ client_Do httpReq ;;
      match r with
      | TransportError msg => ret (Some (Errorf msg))
      | Response StatusCode _ =>
          if negb (StatusCode =? 200) then
            ret (Some (Errorf ("health check failed with status " +:+ fmt_d StatusCode)))
          else ret None
      end
  end.
End OpenAI.

(** ** The Anthropic client (anthropic.go) *)

Record AnthropicConfig := {
  anc_Name : string;
  anc_APIKey : string;
  anc_BaseURL : string;
  anc_Models : list string;
  anc_Timeout : Z;
  anc_MaxRetries : Z
}.

Record AnthropicProvider := {
  an_name : string;
  an_apiKey : string;
  an_baseURL : string;
  an_models : list string;
  an_timeout : Z;
  an_maxRetries : Z
}.

Definition NewAnthropicProvider (cfg : AnthropicConfig) : AnthropicProvider :=
  let baseURL := if decide (anc_BaseURL cfg = "") then "https://api.anthropic.com/v1"
                 else anc_BaseURL cfg in
  let timeout := if anc_Timeout cfg =? 0 then 60 * Second else anc_Timeout cfg in
  let models := if Nat.eqb (length (anc_Models cfg)) 0
                then ["claude-3-opus-20240229"; "claude-3-sonnet-20240229";
                      "claude-3-haiku-20240307"; "claude-3-5-sonnet-20241022"]
                else anc_Models cfg in
  {| an_name := anc_Name cfg; an_apiKey := anc_APIKey cfg; an_baseURL := baseURL;
     an_models := models; an_timeout := timeout; an_maxRetries := anc_MaxRetries cfg |}.

(** The [shortNames] table of [SupportsModel]. *)
Definition shortNames (model : string) : bool :=
  bool_decide (model = "claude-3-opus") || bool_decide (model = "claude-3-sonnet")
  || bool_decide (model = "claude-3-haiku") || bool_decide (model = "claude-3-5-sonnet").

Definition mapModel (model : string) : string :=
  if decide (model = "claude-3-opus") then "claude-3-opus-20240229"
  else if decide (model = "claude-3-sonnet") then "claude-3-sonnet-20240229"
  else if decide (model = "claude-3-haiku") then "claude-3-haiku-20240307"
  else if decide (model = "claude-3-5-sonnet") then "claude-3-5-sonnet-20241022"
  else model.

(** One iteration of the message loop of [convertRequest], on the pair
    [(systemPrompt, messages)]. *)
Definition convertMessage (acc : string * list anthropicMessage) (msg : Message)
    : string * list anthropicMessage :=
  let '(systemPrompt, messages) := acc in
  if decide (msg_Role msg = "system") then (msg_Content msg, messages)
  else
    let role := if decide (msg_Role msg = "assistant") then "assistant" else "user" in
    (systemPrompt,
     (messages ++ [{| am_Role := role; am_Content := msg_Content msg |}])%list).

Definition convertRequest (req : ChatCompletionRequest) : anthropicRequest :=
  let '(systemPrompt, messages) := fold_left convertMessage (req_Messages req) ("", []) in
  let maxTokens := match req_MaxTokens req with Some n => n | None => 4096 end in
  let model := mapModel (req_Model req) in
  {| ar_Model := model; ar_Messages := messages; ar_MaxTokens := maxTokens;
     ar_Temperature := req_Temperature req; ar_TopP := req_TopP req;
     ar_Stream := false; ar_System := systemPrompt |}.

(** [anthropicReq.Stream = true]. *)
Definition withArStream (b : bool) (r : anthropicRequest) : anthropicRequest :=
  {| ar_Model := ar_Model r; ar_Messages := ar_Messages r; ar_MaxTokens := ar_MaxTokens r;
     ar_Temperature := ar_Temperature r; ar_TopP := ar_TopP r;
     ar_Stream := b; ar_System := ar_System r |}.

(** The text-concatenation loop of [convertResponse]. *)
Definition concatText (content : string) (c : anthropicContent) : string :=
  if decide (ac_Type c = "text") then content +:+ ac_Text c else content.

(** [convertResponse], with [unixNow] the value of [time.Now().Unix()]. *)
Definition convertResponse (resp : anthropicResponse) (requestModel : string)
    (unixNow : Z) : ChatCompletionResponse :=
  let content := fold_left concatText (ares_Content resp) "" in
  let finishReason := if decide (ares_StopReason resp = "max_tokens") then "length"
                      else "stop" in
  {| resp_ID := ares_ID resp;
     resp_Object := "chat.completion";
     resp_Created := unixNow;
     resp_Model := requestModel;
     resp_Choices :=
       [{| ch_Index := 0;
           ch_Message := {| msg_Role := "assistant"; msg_Content := content;
                            msg_Name := "" |};
           ch_FinishReason := finishReason;
           ch_Logprobs := None |}];
     resp_Usage :=
       {| PromptTokens := InputTokens (ares_Usage resp);
          CompletionTokens := OutputTokens (ares_Usage resp);
          TotalTokens := int_add (InputTokens (ares_Usage resp))
                                 (OutputTokens (ares_Usage resp)) |};
     resp_SystemFingerprint := "" |}.

(** The literal probe body of [HealthCheck], byte for byte. *)
Definition dq : string := String (Ascii.ascii_of_nat 34) EmptyString.
Definition quoted (s : string) : string := dq +:+ s +:+ dq.
Definition nl_tabs (n : nat) : string :=
  String (Ascii.ascii_of_nat 10)
    (fold_right (λ _ acc, String (Ascii.ascii_of_nat 9) acc) EmptyString (seq 0 n)).

Definition healthProbeBody : bytes :=
  bytes_of_string
    ("{" +:+ nl_tabs 2 +:+ quoted "model" +:+ ": " +:+ quoted "claude-3-haiku-20240307"
     +:+ "," +:+ nl_tabs 2 +:+ quoted "max_tokens" +:+ ": 1,"
     +:+ nl_tabs 2 +:+ quoted "messages" +:+ ": [{" +:+ quoted "role" +:+ ": "
     +:+ quoted "user" +:+ ", " +:+ quoted "content" +:+ ": " +:+ quoted "hi" +:+ "}]"
     +:+ nl_tabs 1 +:+ "}").

Section Anthropic.
Context {net : Net} {lib : Lib}.

Definition Anthropic_Name (p : AnthropicProvider) : string := an_name p.
Definition Anthropic_Models (p : AnthropicProvider) : list string := an_models p.
Definition Anthropic_SupportsModel (p : AnthropicProvider) (model : string) : bool :=
  if containsModel (an_models p) model then true
  else (* Also check for short names *) shortNames model.

Definition Anthropic_doWithRetry (p : AnthropicProvider) (req : HttpRequest)
    : IO (error + Z * bytes) :=
  doWithRetry (an_maxRetries p) req.

Definition Anthropic_headers (p : AnthropicProvider) : list (string * string) :=
  [("Content-Type", "application/json");
   ("x-api-key", an_apiKey p);
   ("anthropic-version", "2023-06-01")].

Definition Anthropic_ChatCompletion (p : AnthropicProvider) (req : ChatCompletionRequest)
    : IO (error + ChatCompletionResponse) :=
  let anthropicReq := convertRequest req in
  match json_Marshal_anthropicRequest anthropicReq with
  | Err msg => ret (inl (Errorf ("failed to marshal request: " +:+ msg)))
  | Ok body =>
      match http_NewRequest "POST" (an_baseURL p +:+ "/messages") (Some body)
              (Anthropic_headers p) with
      | Err msg => ret (inl (Errorf ("failed to create request: " +:+ msg)))
      | Ok httpReq =>
          r <~ Anthropic_doWithRetry p httpReq ;;
          match r with
          | inl err => ret (inl err)
          | inr (StatusCode, bodyBytes) =>
              if negb (StatusCode =? 200) then
                ret (inl (ProviderErr {| pe_Provider := an_name p;
                                         pe_StatusCode := StatusCode;
                                         pe_Message := string_of_bytes bodyBytes;
                                         pe_Type := "api_error" |}))
              else
                match json_Decode_anthropicResponse bodyBytes with
                | Err msg => ret (inl (Errorf ("failed to decode response: " +:+ msg)))
                | Ok anthropicResp =>
                    t <~ time_Now ;;
                    ret (inr (convertResponse anthropicResp (req_Model req) (t / Second)))
                end
          end
      end
  end.

(** The returned [anthropicStreamAdapter] forwards [Read] to the response
    body unchanged, so the stream is the body. *)
Definition Anthropic_ChatCompletionStream (p : AnthropicProvider)
    (req : ChatCompletionRequest) : IO (error + bytes) :=
  let anthropicReq := withArStream true (convertRequest req) in
  match json_Marshal_anthropicRequest anthropicReq with
  | Err msg => ret (inl (Errorf ("failed to marshal request: " +:+ msg)))
  | Ok body =>
      match http_NewRequest "POST" (an_baseURL p +:+ "/messages") (Some body)
              (Anthropic_headers p ++ [("Accept", "text/event-stream")])%list with
      | Err msg => ret (inl (Errorf ("failed to create request: " +:+ msg)))
      | Ok httpReq =>
          r <~ client_Do httpReq ;;
          match r with
          | TransportError msg => ret (inl (Errorf ("request failed: " +:+ msg)))
          | Response StatusCode bodyBytes =>
              if negb (StatusCode =? 200) then
                ret (inl (ProviderErr {| pe_Provider := an_name p;
                                         pe_StatusCode := StatusCode;
                                         pe_Message := string_of_bytes bodyBytes;
                                         pe_Type := "api_error" |}))
              else ret (inr bodyBytes)
          end
      end
  end.

Definition Anthropic_HealthCheck (p : AnthropicProvider) : IO (option error) :=
  (* Anthropic doesn't have a models endpoint, so we do a minimal request *)
  match http_NewRequest "POST" (an_baseURL p +:+ "/messages") (Some healthProbeBody)
          (Anthropic_headers p) with
  | Err msg => ret (Some (Errorf msg))
  | Ok httpReq =>
      r <~ client_Do httpReq ;;
      match r with
      | TransportError msg => ret (Some (Errorf msg))
      | Response StatusCode _ =>
          if negb (StatusCode =? 200) && negb (StatusCode =? 400) then
            ret (Some (Errorf ("health check failed with status " +:+ fmt_d StatusCode)))
          else ret None
      end
  end.
End Anthropic.

(** ** The [Provider] interface over its two implementations *)

Inductive Provider :=
| OpenAI (p : OpenAIProvider)
| Anthropic (p : AnthropicProvider).

Section Interface.
Context {net : Net} {lib : Lib}.

Definition Name (p : Provider) : string :=
  match p with OpenAI p => OpenAI_Name p | Anthropic p => Anthropic_Name p end.
Definition Models (p : Provider) : list string :=
  match p with OpenAI p => OpenAI_Models p | Anthropic p => Anthropic_Models p end.
Definition SupportsModel (p : Provider) (model : string) : bool :=
  match p with
  | OpenAI p => OpenAI_SupportsModel p model
  | Anthropic p => Anthropic_SupportsModel p model
  end.
Definition ChatCompletion (p : Provider) (req : ChatCompletionRequest)
    : IO (error + ChatCompletionResponse) :=
  enter {| callee := Name p; method := "ChatCompletion"; callModel := req_Model req |} ;;;
  match p with
  | OpenAI p => OpenAI_ChatCompletion p req
  | Anthropic p => Anthropic_ChatCompletion p req
  end.
Definition ChatCompletionStream (p : Provider) (req : ChatCompletionRequest)
    : IO (error + bytes) :=
  enter {| callee := Name p; method := "ChatCompletionStream";
         callModel := req_Model req |} ;;;
  match p with
  | OpenAI p => OpenAI_ChatCompletionStream p req
  | Anthropic p => Anthropic_ChatCompletionStream p req
  end.
Definition HealthCheck (p : Provider) : IO (option error) :=
  enter {| callee := Name p; method := "HealthCheck"; callModel := "" |} ;;;
  match p with
  | OpenAI p => OpenAI_HealthCheck p
  | Anthropic p => Anthropic_HealthCheck p
  end.
Definition maxRetries (p : Provider) : Z :=
  match p with OpenAI p => oa_maxRetries p | Anthropic p => an_maxRetries p end.
End Interface.

(** ** The registry (registry.go) *)

Record Registry := {
  providers : gmap string Provider;
  modelMapping : gmap string string;  (* model -> provider name *)
  fallbackChain : list string;
  defaultProvider : string
}.

(** Every branch of the [switch cfg.Name] returns a nil error; only
    ["anthropic"] selects the Anthropic client. *)
Definition createProvider (cfg : config.ProviderConfig) : Provider :=
  if decide (config.pc_Name cfg = "anthropic") then
    Anthropic (NewAnthropicProvider
      {| anc_Name := config.pc_Name cfg; anc_APIKey := config.pc_APIKey cfg;
         anc_BaseURL := config.pc_BaseURL cfg; anc_Models := config.pc_Models cfg;
         anc_Timeout := config.pc_Timeout cfg;
         anc_MaxRetries := config.pc_MaxRetries cfg |})
  else
    OpenAI (NewOpenAIProvider
      {| oc_Name := config.pc_Name cfg; oc_APIKey := config.pc_APIKey cfg;
         oc_BaseURL := config.pc_BaseURL cfg; oc_Models := config.pc_Models cfg;
         oc_Timeout := config.pc_Timeout cfg;
         oc_MaxRetries := config.pc_MaxRetries cfg |}).

(** One iteration of [for _, provCfg := range cfg.Providers]. *)
Definition registerProvider (r : Registry) (provCfg : config.ProviderConfig) : Registry :=
  {| providers := <[config.pc_Name provCfg := createProvider provCfg]> (providers r);
     modelMapping :=
       fold_left (λ m model, <[model := config.pc_Name provCfg]> m)
                 (config.pc_Models provCfg) (modelMapping r);
     fallbackChain := fallbackChain r;
     defaultProvider := defaultProvider r |}.

(** The alias loop ranges over a map with distinct keys, so it amounts to a
    union in which the aliases win. *)
Definition NewRegistry (cfg : config.Config) : Registry :=
  let r := fold_left registerProvider (config.Providers cfg)
             {| providers := ∅; modelMapping := ∅;
                fallbackChain := config.FallbackChain (config.Routing cfg);
                defaultProvider := config.DefaultProvider (config.Routing cfg) |} in
  {| providers := providers r;
     modelMapping :=
       (config.mm_Provider <$> config.ModelMappings (config.Routing cfg)) ∪ modelMapping r;
     fallbackChain := fallbackChain r;
     defaultProvider := defaultProvider r |}.

Definition Get (r : Registry) (name : string) : option Provider := providers r !! name.

(** The [for _, provider := range r.providers] search of [GetForModel], over
    the providers in the order the range visits them. *)
Fixpoint firstSupporting (visit : list (string * Provider)) (model : string)
    : option Provider :=
  match visit with
  | [] => None
  | (_, p) :: rest => if SupportsModel p model then Some p else firstSupporting rest model
  end.

(** [GetForModel]. Go leaves the order of a range over a map unspecified:
    [visit] is the order this call's range takes, a permutation of
    [map_to_list (providers r)]. *)
Definition GetForModel (r : Registry) (visit : list (string * Provider)) (model : string)
    : error + Provider :=
  (* Check model mapping first *)
  match (match modelMapping r !! model with
         | Some providerName => providers r !! providerName
         | None => None
         end) with
  | Some provider => inr provider
  | None =>
      (* Check if any provider supports this model *)
      match firstSupporting visit model with
      | Some provider => inr provider
      | None =>
          (* Fall back to default provider *)
          match (if decide (defaultProvider r = "") then None
                 else providers r !! defaultProvider r) with
          | Some provider => inr provider
          | None => inl (Errorf ("no provider found for model: " +:+ model))
          end
      end
  end.

(** [List], in the order its range visits the map. *)
Definition List (visit : list (string * Provider)) : list Provider := visit.*2.

(** One iteration of the fallback loop of [GetWithFallback]: a registered
    provider is appended unless one of the same [Name] is already there. *)
Definition addFallback (r : Registry) (acc : list Provider) (name : string)
    : list Provider :=
  match providers r !! name with
  | Some provider =>
      (* Avoid duplicates *)
      if existsb (λ p, bool_decide (Name p = Name provider)) acc then acc
      else acc ++ [provider]
  | None => acc
  end.

Definition GetWithFallback (r : Registry) (model : string) : list Provider :=
  (* First try the mapped provider *)
  let mapped :=
    match modelMapping r !! model with
    | Some providerName =>
        match providers r !! providerName with
        | Some provider => [provider]
        | None => []
        end
    | None => []
    end in
  (* Then add fallback chain *)
  fold_left (addFallback r) (fallbackChain r) mapped.

(** [ResolveModel]: the provider name and the model name for [model]. *)
Definition ResolveModel (r : Registry) (model : string) (cfg : config.Config)
    : string * string :=
  match config.ModelMappings (config.Routing cfg) !! model with
  | Some mapping => (config.mm_Provider mapping, config.mm_Model mapping)
  | None =>
      match modelMapping r !! model with
      | Some providerName => (providerName, model)
      | None => (defaultProvider r, model)
      end
  end.

End provider.

(** ** Package cache (cache.go) *)

Module cache.

(** The [element] field, a pointer to the item's node in the LRU list, is
    represented by the item's key: the list holds keys, and no key occurs in
    it twice (see [wf] below). *)
Record cacheItem := {
  key : string;
  value : bytes;
  expiresAt : Z
}.

(** [lru] is the [container/list] of keys, front (most recently used) first. *)
Record MemoryCache := {
  maxSize : Z;
  ttl : Z;
  items : gmap string cacheItem;
  lru : list string;
  hits : Z;
  misses : Z
}.

Record CacheStats := {
  Hits : Z;
  Misses : Z;
  Size : Z
}.

(** [container/list]: [Remove], [MoveToFront], [PushFront], [Back]. *)
Definition list_Remove (k : string) (l : list string) : list string :=
  filter (λ x, x ≠ k) l.
Definition list_MoveToFront (k : string) (l : list string) : list string :=
  if bool_decide (k ∈ l) then k :: list_Remove k l else l.
Definition list_PushFront (k : string) (l : list string) : list string := k :: l.
Definition list_Back (l : list string) : option string := last l.

(** [NewMemoryCache], without the [go c.cleanup()] it starts; one round of
    that goroutine is [cleanupTick]. *)
Definition NewMemoryCache (maxSizeMB : Z) (ttl : Z) : MemoryCache :=
  {| maxSize := wrap64 (maxSizeMB * 1024 * 1024); (* Convert to bytes *)
     ttl := ttl; items := ∅; lru := []; hits := 0; misses := 0 |}.

Definition removeItem (c : MemoryCache) (item : cacheItem) : MemoryCache :=
  {| maxSize := maxSize c; ttl := ttl c;
     items := delete (key item) (items c);
     lru := list_Remove (key item) (lru c);
     hits := hits c; misses := misses c |}.

Definition withMisses (c : MemoryCache) (n : Z) : MemoryCache :=
  {| maxSize := maxSize c; ttl := ttl c; items := items c; lru := lru c;
     hits := hits c; misses := n |}.

(** [Get] at wall-clock time [now]. *)
Definition Get (c : MemoryCache) (k : string) (now : Z) : option bytes * MemoryCache :=
  match items c !! k with
  | None => (None, withMisses c (int_add (misses c) 1))
  | Some item =>
      (* Check expiration *)
      if now >? expiresAt item then
        let c := removeItem c item in
        (None, withMisses c (int_add (misses c) 1))
      else
        (* Move to front of LRU *)
        (Some (value item),
         {| maxSize := maxSize c; ttl := ttl c; items := items c;
            lru := list_MoveToFront k (lru c);
            hits := int_add (hits c) 1; misses := misses c |})
  end.

(** The sum of [len(item.value)] over the map; the lengths of values held in
    memory cannot overflow an [int]. *)
Definition currentSize (c : MemoryCache) : Z :=
  map_fold (λ _ item size, size + len (value item)) 0 (items c).

Definition evictOldest (c : MemoryCache) : MemoryCache :=
  match list_Back (lru c) with
  | Some k =>
      match items c !! k with
      | Some item => removeItem c item
      | None => c
      end
  | None => c
  end.

(** The eviction loop of [Set], [for c.currentSize()+len(value) > c.maxSize &&
    c.lru.Len() > 0], run for at most [fuel] iterations. *)
Fixpoint evictLoop (fuel : nat) (c : MemoryCache) (n : Z) : MemoryCache :=
  match fuel with
  | O => c
  | S fuel' =>
      if (currentSize c + n >? maxSize c) && negb (Nat.eqb (length (lru c)) 0)
      then evictLoop fuel' (evictOldest c) n
      else c
  end.

(** [Set] at wall-clock time [now]. Each round of the eviction loop removes
    the back of a well-formed list, so [length (lru c)] rounds are all the
    loop can take ([evictLoop_exits] below). *)
Definition Set_ (c : MemoryCache) (k : string) (v : bytes) (now : Z) : MemoryCache :=
  match items c !! k with
  | Some item =>
      (* Check if item already exists *)
      {| maxSize := maxSize c; ttl := ttl c;
         items := <[k := {| key := key item; value := v; expiresAt := now + ttl c |}]>
                    (items c);
         lru := list_MoveToFront k (lru c);
         hits := hits c; misses := misses c |}
  | None =>
      (* Evict if necessary *)
      let c := evictLoop (length (lru c)) c (len v) in
      (* Add new item *)
      {| maxSize := maxSize c; ttl := ttl c;
         items := <[k := {| key := k; value := v; expiresAt := now + ttl c |}]> (items c);
         lru := list_PushFront k (lru c);
         hits := hits c; misses := misses c |}
  end.

Definition Delete (c : MemoryCache) (k : string) : MemoryCache :=
  match items c !! k with
  | Some item => removeItem c item
  | None => c
  end.

Definition Clear (c : MemoryCache) : MemoryCache :=
  {| maxSize := maxSize c; ttl := ttl c; items := ∅; lru := [];
     hits := hits c; misses := misses c |}.

Definition Stats (c : MemoryCache) : CacheStats :=
  {| Hits := hits c; Misses := misses c; Size := Z.of_nat (size (items c)) |}.

(** One tick of the [cleanup] goroutine at time [now]: every item past its
    expiry is removed from the list and the map. *)
Definition cleanupTick (c : MemoryCache) (now : Z) : MemoryCache :=
  map_fold (λ _ item c', if now >? expiresAt item then removeItem c' item else c')
           c (items c).

(** The operations of the [Cache] interface, and the sweep, as commands. *)
Inductive Op :=
| OpGet (k : string) (now : Z)
| OpSet (k : string) (v : bytes) (now : Z)
| OpDelete (k : string)
| OpClear
| OpCleanup (now : Z).

Definition step (c : MemoryCache) (op : Op) : MemoryCache :=
  match op with
  | OpGet k now => (Get c k now).2
  | OpSet k v now => Set_ c k v now
  | OpDelete k => Delete c k
  | OpClear => Clear c
  | OpCleanup now => cleanupTick c now
  end.

Definition run (c : MemoryCache) (ops : list Op) : MemoryCache := fold_left step ops c.

(** The representation invariant tying the map to the list: the list has no
    duplicates, holds exactly the keys of the map, and every item is stored
    under its own key. *)
Definition wf (c : MemoryCache) : Prop :=
  NoDup (lru c) ∧
  (∀ k, k ∈ lru c ↔ is_Some (items c !! k)) ∧
  (∀ k item, items c !! k = Some item → key item = k).

End cache.

(** ** Package metrics (metrics.go) *)

Module metrics.
Import provider.

Record ProviderStats := {
  ps_Requests : Z;
  ps_Tokens : Z;
  ps_Cost : float;
  ps_AvgLatencyMs : float;
  ps_Errors : Z
}.

Record ModelStats := {
  ms_Requests : Z;
  ms_PromptTokens : Z;
  ms_CompletionTokens : Z;
  ms_Cost : float;
  ms_AvgLatencyMs : float
}.

Record Collector := {
  requests : list ProviderMetrics;
  totalCost : float;
  totalTokens : Z;
  cacheHits : Z;
  cacheMisses : Z;
  byProvider : gmap string ProviderStats;
  byModel : gmap string ModelStats
}.

Record AggregatedStats := {
  TotalRequests : Z;
  agg_TotalTokens : Z;
  TotalCost : float;
  CacheHits : Z;
  CacheMisses : Z;
  ByProvider : gmap string ProviderStats;
  ByModel : gmap string ModelStats
}.

Definition NewCollector : Collector :=
  {| requests := []; totalCost := 0; totalTokens := 0; cacheHits := 0; cacheMisses := 0;
     byProvider := ∅; byModel := ∅ |}.

(** The running average [(avg*(n-1) + sample) / n]. *)
Definition runningAvg (avg : float) (n : Z) (sample : Z) : float :=
  ((avg * float_of_int (int_sub n 1) + float_of_int sample) / float_of_int n)%float.

Definition updateProviderStats (ps : ProviderStats) (m : ProviderMetrics) : ProviderStats :=
  let n := int_add (ps_Requests ps) 1 in
  {| ps_Requests := n;
     ps_Tokens := int_add (ps_Tokens ps) (pm_TotalTokens m);
     ps_Cost := (ps_Cost ps + pm_Cost m)%float;
     ps_AvgLatencyMs := runningAvg (ps_AvgLatencyMs ps) n (pm_LatencyMs m);
     ps_Errors := if negb (pm_Success m) then int_add (ps_Errors ps) 1 else ps_Errors ps |}.

Definition updateModelStats (ms : ModelStats) (m : ProviderMetrics) : ModelStats :=
  let n := int_add (ms_Requests ms) 1 in
  {| ms_Requests := n;
     ms_PromptTokens := int_add (ms_PromptTokens ms) (pm_PromptTokens m);
     ms_CompletionTokens := int_add (ms_CompletionTokens ms) (pm_CompletionTokens m);
     ms_Cost := (ms_Cost ms + pm_Cost m)%float;
     ms_AvgLatencyMs := runningAvg (ms_AvgLatencyMs ms) n (pm_LatencyMs m) |}.

Definition zeroProviderStats : ProviderStats :=
  {| ps_Requests := 0; ps_Tokens := 0; ps_Cost := 0; ps_AvgLatencyMs := 0; ps_Errors := 0 |}.
Definition zeroModelStats : ModelStats :=
  {| ms_Requests := 0; ms_PromptTokens := 0; ms_CompletionTokens := 0; ms_Cost := 0;
     ms_AvgLatencyMs := 0 |}.

(** [RecordRequest] at wall-clock time [now]. *)
Definition RecordRequest (c : Collector) (m : ProviderMetrics) (now : Z) : Collector :=
  (* Store raw metric *)
  let requests' := (requests c ++ [m])%list in
  let ps := default zeroProviderStats (byProvider c !! pm_Provider m) in
  let ms := default zeroModelStats (byModel c !! pm_Model m) in
  (* Cleanup old metrics (keep last hour) *)
  let cutoff := now - Hour in
  {| requests := filter (λ req, cutoff < pm_Timestamp req) requests';
     totalCost := (totalCost c + pm_Cost m)%float;
     totalTokens := int_add (totalTokens c) (pm_TotalTokens m);
     cacheHits := cacheHits c;
     cacheMisses := cacheMisses c;
     byProvider := <[pm_Provider m := updateProviderStats ps m]> (byProvider c);
     byModel := <[pm_Model m := updateModelStats ms m]> (byModel c) |}.

Definition RecordCacheHit (c : Collector) : Collector :=
  {| requests := requests c; totalCost := totalCost c; totalTokens := totalTokens c;
     cacheHits := int_add (cacheHits c) 1; cacheMisses := cacheMisses c;
     byProvider := byProvider c; byModel := byModel c |}.

Definition RecordCacheMiss (c : Collector) : Collector :=
  {| requests := requests c; totalCost := totalCost c; totalTokens := totalTokens c;
     cacheHits := cacheHits c; cacheMisses := int_add (cacheMisses c) 1;
     byProvider := byProvider c; byModel := byModel c |}.

Definition GetStats (c : Collector) : AggregatedStats :=
  {| TotalRequests := Z.of_nat (length (requests c));
     agg_TotalTokens := totalTokens c;
     TotalCost := totalCost c;
     CacheHits := cacheHits c;
     CacheMisses := cacheMisses c;
     ByProvider := byProvider c;
     ByModel := byModel c |}.

(** A run of [RecordRequest] calls, each with the wall-clock time at which it
    is made, oldest first. *)
Definition recordAll (c : Collector) (calls : list (ProviderMetrics * Z)) : Collector :=
  fold_left (λ c call, RecordRequest c call.1 call.2) calls c.

End metrics.

(** ** The token bucket behind the rate limiter *)

Module rate.

(** Modelled from the spec: the token bucket [rate.Limiter] of
    golang.org/x/time/rate, which the middleware imports and whose source is
    not part of the repository. The spec's [RateLimitState] is
    [{capacity, refillRate, tokensRemaining, lastRefill}] with
    refill rate = capacity / window, continuous. To keep the continuous
    refill exact the bucket stores the window (nanoseconds) instead of the
    rate, and counts tokens in units of [1/window] of a token: a whole token
    is [window] units, a full bucket [capacity * window] units, and [e]
    nanoseconds refill [e * capacity] units. *)
Record Limiter := {
  capacity : Z;
  window : Z;
  tokensRemaining : Z;
  lastRefill : Z
}.

(** Modelled from the spec: [rate.NewLimiter], a bucket created full
    (Scenario D: a fresh bucket of capacity 5 admits 5 calls). *)
Definition NewLimiter (requests window : Z) : Limiter :=
  {| capacity := requests; window := window;
     tokensRemaining := requests * window; lastRefill := 0 |}.

(** Modelled from the spec: the continuous refill of a bucket up to time
    [now], capped at the capacity. *)
Definition refill (l : Limiter) (now : Z) : Z :=
  Z.min (capacity l * window l)
        (tokensRemaining l + Z.max 0 (now - lastRefill l) * capacity l).

(** Modelled from the spec: [Limiter.Allow] at time [now] consumes one token
    if one is available, else denies; it never waits. *)
Definition Allow (l : Limiter) (now : Z) : bool * Limiter :=
  let tokens := refill l now in
  let last := Z.max (lastRefill l) now in
  if tokens >=? window l then
    (true, {| capacity := capacity l; window := window l;
              tokensRemaining := tokens - window l; lastRefill := last |})
  else
    (false, {| capacity := capacity l; window := window l;
               tokensRemaining := tokens; lastRefill := last |}).

End rate.

(** ** Package middleware (middleware.go): the rate limiter *)

Module middleware.

Record RateLimiter := {
  cfg : config.RateLimitConfig;
  limiters : gmap string rate.Limiter;
  global : option rate.Limiter
}.

Definition NewRateLimiter (cfg : config.RateLimitConfig) : RateLimiter :=
  {| cfg := cfg;
     limiters := ∅;
     (* Setup global limiter *)
     global := if config.Requests (config.Global cfg) >? 0
               then Some (rate.NewLimiter (config.Requests (config.Global cfg))
                                          (config.Window (config.Global cfg)))
               else None |}.

(** [getLimiter]: the limiter of [key], created on first use. Run
    sequentially, the read-locked lookup and the re-check under the write lock
    are one lookup. *)
Definition getLimiter (rl : RateLimiter) (key : string) : rate.Limiter * RateLimiter :=
  match limiters rl !! key with
  | Some limiter => (limiter, rl)
  | None =>
      let limiter := rate.NewLimiter (config.Requests (config.PerKey (cfg rl)))
                                     (config.Window (config.PerKey (cfg rl))) in
      (limiter, {| cfg := cfg rl; limiters := <[key := limiter]> (limiters rl);
                   global := global rl |})
  end.

(** [Allow] at wall-clock time [now]. The limiters are shared objects: a call
    to their [Allow] updates the one stored in the [RateLimiter]. *)
Definition Allow (rl : RateLimiter) (key : string) (now : Z) : bool * RateLimiter :=
  (* Check global limit *)
  let '(globalOk, rl) :=
    match global rl with
    | Some g =>
        let '(ok, g') := rate.Allow g now in
        (ok, {| cfg := cfg rl; limiters := limiters rl; global := Some g' |})
    | None => (true, rl)
    end in
  if negb globalOk then (false, rl)
  else
    (* Check per-key limit *)
    let '(limiter, rl) := getLimiter rl key in
    let '(ok, limiter') := rate.Allow limiter now in
    (ok, {| cfg := cfg rl; limiters := <[key := limiter']> (limiters rl);
            global := global rl |}).

(** A run of calls [(key, now)], oldest first, with the verdict of each. *)
Fixpoint AllowAll (rl : RateLimiter) (calls : list (string * Z)) : list bool * RateLimiter :=
  match calls with
  | [] => ([], rl)
  | (key, now) :: rest =>
      let '(ok, rl) := Allow rl key now in
      let '(oks, rl) := AllowAll rl rest in
      (ok :: oks, rl)
  end.

(** What a middleware does with a request: hand it to the next handler, or
    answer it itself. *)
Inductive Verdict :=
| Next
| Respond (status : Z) (headers : list (string * string)) (body : string).

(** [auth[7:]]. *)
Fixpoint string_drop (n : nat) (s : string) : string :=
  match n, s with
  | O, _ => s
  | S n', String _ s' => string_drop n' s'
  | S _, EmptyString => EmptyString
  end.

Definition authError (message : string) : string :=
  "{" +:+ provider.quoted "error" +:+ ":{" +:+ provider.quoted "message" +:+ ":"
  +:+ provider.quoted message +:+ "," +:+ provider.quoted "type" +:+ ":"
  +:+ provider.quoted "auth_error" +:+ "," +:+ provider.quoted "code" +:+ ":401}}".

(** The [Auth] middleware on a request with URL path [path] and
    [Authorization] header [authorization] (empty when absent). A missing key
    of [apiKeys], like a nil map, reads as [false]. *)
Definition Auth (apiKeys : gmap string bool) (path authorization : string) : Verdict :=
  (* Skip auth for health endpoints *)
  if bool_decide (path = "/health") || bool_decide (path = "/ready") then Next
  (* If no API keys configured, allow all *)
  else if Nat.eqb (size apiKeys) 0 then Next
  else if bool_decide (authorization = "") then
    Respond 401 [("Content-Type", "application/json")] (authError "Missing API key")
  else
    (* Extract Bearer token *)
    let auth :=
      if Nat.ltb 7 (String.length authorization)
         && bool_decide (String.substring 0 7 authorization = "Bearer ")
      then string_drop 7 authorization else authorization in
    if default false (apiKeys !! auth) then Next
    else Respond 401 [("Content-Type", "application/json")] (authError "Invalid API key").

(** The [RateLimit] middleware around a limiter, at wall-clock time [now]:
    the key is the [Authorization] header or, without one, the remote
    address. *)
Definition RateLimit (rl : RateLimiter) (authorization remoteAddr : string) (now : Z)
    : Verdict * RateLimiter :=
  (* Use API key or IP as rate limit key *)
  let key := if bool_decide (authorization = "") then remoteAddr else authorization in
  let '(ok, rl) := Allow rl key now in
  if negb ok then
    (Respond 429 [("Content-Type", "application/json"); ("Retry-After", "60")]
       ("{" +:+ provider.quoted "error" +:+ ":{" +:+ provider.quoted "message" +:+ ":"
        +:+ provider.quoted "Rate limit exceeded" +:+ "," +:+ provider.quoted "type"
        +:+ ":" +:+ provider.quoted "rate_limit_error" +:+ ","
        +:+ provider.quoted "code" +:+ ":429}}"), rl)
  else (Next, rl).

End middleware.

(** ** Package server (handlers.go, server.go) *)

Module server.
Import provider.

(** The anonymous struct [generateCacheKey] marshals. *)
Record cacheKeyFields := {
  ck_Model : string;
  ck_Messages : list Message;
  ck_Temperature : option float;
  ck_MaxTokens : option Z
}.

(** The standard-library functions the handlers call, taken as parameters:
    [json.Marshal] on the two structs marshalled here, [sha256.Sum256],
    [hex.EncodeToString], [fmt.Sprintf] with the verb [%.6f], and the line
    splitting of [bufio.Scanner]. *)
Class Lib := {
  json_Marshal_cacheKey : cacheKeyFields → Result bytes;
  json_Marshal_ChatCompletionResponse : ChatCompletionResponse → Result bytes;
  sha256_Sum256 : bytes → bytes;
  hex_EncodeToString : bytes → string;
  fmt_f6 : float → string;
  bufio_ScanLines : bytes → list string
}.

(** The body of a response: bytes written verbatim, or the JSON encoding of
    the error struct [{error: {message, type, code}}] of [writeError]. *)
Inductive ResponseBody :=
| BodyBytes (b : bytes)
| BodyError (message type : string) (code : Z).

Record HttpResponse := {
  Status : Z;
  Headers : gmap string string;
  RespBody : ResponseBody
}.

(** An inbound request as the handler sees it: the outcome of decoding its
    JSON body, and whether the response writer implements [http.Flusher]. *)
Record Request := {
  decoded : Result ChatCompletionRequest;
  canFlush : bool
}.

(** The fields of [Server] the handlers use. A nil [cache] interface is
    [None]. *)
Record Server := {
  registry : Registry;
  cache : option cache.MemoryCache;
  metrics : metrics.Collector
}.

Definition withCache (s : Server) (c : option cache.MemoryCache) : Server :=
  {| registry := registry s; cache := c; metrics := metrics s |}.
Definition withMetrics (s : Server) (m : metrics.Collector) : Server :=
  {| registry := registry s; cache := cache s; metrics := m |}.

(** [New], for the registry, cache and metrics it builds. *)
Definition New (cfg : config.Config) : Server :=
  {| registry := NewRegistry cfg;
     cache := if config.cc_Enabled (config.Cache cfg)
              then Some (cache.NewMemoryCache (config.cc_MaxSize (config.Cache cfg))
                                              (config.cc_TTL (config.Cache cfg)))
              else None;
     metrics := metrics.NewCollector |}.

(** [writeError] on a response writer whose headers so far are [hdrs]. *)
Definition writeError (hdrs : gmap string string) (status : Z) (errType message : string)
    : HttpResponse :=
  {| Status := status;
     Headers := <["Content-Type" := "application/json"]> hdrs;
     RespBody := BodyError message errType status |}.

(** The surfacing of a provider error common to both handlers. *)
Definition writeProviderError (hdrs : gmap string string) (err : error) : HttpResponse :=
  match err with
  | ProviderErr provErr =>
      writeError hdrs (pe_StatusCode provErr) (pe_Type provErr) (pe_Message provErr)
  | Errorf msg => writeError hdrs 500 "provider_error" msg
  end.

(** [req.XGateway == nil || req.XGateway.Cache == nil || *req.XGateway.Cache]. *)
Definition cacheRequested (req : ChatCompletionRequest) : bool :=
  match req_XGateway req with
  | None => true
  | Some x => match gx_Cache x with None => true | Some b => b end
  end.

Section Handlers.
Context {net : Net} {lib : provider.Lib} {slib : Lib}.

Definition generateCacheKey (req : ChatCompletionRequest) : string :=
  (* Create a hash from the request; a marshalling error is dropped *)
  let data := match json_Marshal_cacheKey
                      {| ck_Model := req_Model req; ck_Messages := req_Messages req;
                         ck_Temperature := req_Temperature req;
                         ck_MaxTokens := req_MaxTokens req |} with
              | Ok data => data
              | Err _ => []
              end in
  hex_EncodeToString (sha256_Sum256 data).

(** The lines [handleStreamingCompletion] relays: the non-empty ones, each
    followed by a newline. *)
Definition relayLines (stream : bytes) : bytes :=
  bytes_of_string
    (fold_left (λ out line, if decide (line = "") then out
                            else out +:+ line +:+ String (Ascii.ascii_of_nat 10) "")
               (bufio_ScanLines stream) "").

Definition handleStreamingCompletion (s : Server) (r : Request) (prov : Provider)
    (req : ChatCompletionRequest) : IO (HttpResponse * Server) :=
  res <~ ChatCompletionStream prov req ;;
  match res with
  | inl err => ret (writeProviderError ∅ err, s)
  | inr stream =>
      (* Set SSE headers *)
      let hdrs : gmap string string :=
        <["X-Accel-Buffering" := "no"]>
          (<["Connection" := "keep-alive"]>
             (<["Cache-Control" := "no-cache"]>
                (<["Content-Type" := "text/event-stream"]> ∅))) in
      if negb (canFlush r) then
        ret (writeError hdrs 500 "streaming_not_supported" "streaming not supported", s)
      else
        (* Copy stream to response *)
        let body := relayLines stream in
        (* Record metrics (approximate for streaming) *)
        stamp <~ time_Now ;;
        tnow <~ time_Now ;;
        let m := {| pm_Provider := Name prov; pm_Model := req_Model req;
                    pm_PromptTokens := 0; pm_CompletionTokens := 0; pm_TotalTokens := 0;
                    pm_LatencyMs := 0; pm_Cost := 0; pm_Cached := false;
                    pm_Success := true; pm_Timestamp := stamp |} in
        ret ({| Status := 200; Headers := hdrs; RespBody := BodyBytes body |},
             withMetrics s (metrics.RecordRequest (metrics s) m tnow))
  end.

(** The non-streaming dispatch: lines 52-97 of [handleChatCompletion]. *)
Definition dispatch (s : Server) (startTime : Z) (prov : Provider)
    (req : ChatCompletionRequest) : IO (HttpResponse * Server) :=
  (* Make request *)
  res <~ ChatCompletion prov req ;;
  match res with
  | inl err => ret (writeProviderError ∅ err, s)
  | inr resp =>
      (* Calculate metrics *)
      t <~ time_Now ;;
      let latency := Z.quot (t - startTime) 1000000 in
      let cost := CalculateCost (req_Model req) (PromptTokens (resp_Usage resp))
                                (CompletionTokens (resp_Usage resp)) in
      stamp <~ time_Now ;;
      tnow <~ time_Now ;;
      let m := {| pm_Provider := Name prov; pm_Model := req_Model req;
                  pm_PromptTokens := PromptTokens (resp_Usage resp);
                  pm_CompletionTokens := CompletionTokens (resp_Usage resp);
                  pm_TotalTokens := TotalTokens (resp_Usage resp);
                  pm_LatencyMs := latency; pm_Cost := cost; pm_Cached := false;
                  pm_Success := true; pm_Timestamp := stamp |} in
      let s := withMetrics s (metrics.RecordRequest (metrics s) m tnow) in
      (* Write response *)
      match json_Marshal_ChatCompletionResponse resp with
      | Err msg => ret (writeError ∅ 500 "marshal_error" msg, s)
      | Ok respBytes =>
          (* Cache response *)
          tset <~ time_Now ;;
          let s := match cache s with
                   | Some c =>
                       if cacheRequested req
                       then withCache s (Some (cache.Set_ c (generateCacheKey req)
                                                          respBytes tset))
                       else s
                   | None => s
                   end in
          ret ({| Status := 200;
                  Headers := <["X-Cost-USD" := fmt_f6 cost]>
                               (<["X-Latency-Ms" := fmt_d latency]>
                                  (<["X-Cache" := "MISS"]>
                                     (<["Content-Type" := "application/json"]> ∅)));
                  RespBody := BodyBytes respBytes |}, s)
      end
  end.

(** The cache check of [handleChatCompletion] at time [tget]: the cached
    bytes on a hit, and the server with the hit or miss counted. *)
Definition cacheLookup (s : Server) (req : ChatCompletionRequest) (tget : Z)
    : option bytes * Server :=
  match cache s with
  | Some c =>
      if negb (req_Stream req) && cacheRequested req then
        let '(cached, c') := cache.Get c (generateCacheKey req) tget in
        match cached with
        | Some b => (Some b, withMetrics (withCache s (Some c'))
                               (metrics.RecordCacheHit (metrics s)))
        | None => (None, withMetrics (withCache s (Some c'))
                           (metrics.RecordCacheMiss (metrics s)))
        end
      else (None, s)
  | None => (None, s)
  end.

(** [handleChatCompletion]; [visit] is the order in which the range inside
    [GetForModel] visits the registry's providers on this call. *)
Definition handleChatCompletion (s : Server) (visit : list (string * Provider))
    (r : Request) : IO (HttpResponse * Server) :=
  startTime <~ time_Now ;;
  (* Parse request *)
  match decoded r with
  | Err msg => ret (writeError ∅ 400 "invalid request body" msg, s)
  | Ok req =>
      (* Get provider for model *)
      match GetForModel (registry s) visit (req_Model req) with
      | inl err => ret (writeError ∅ 400 "model not found" (Error err), s)
      | inr prov =>
          (* Check cache (only for non-streaming) *)
          tget <~ time_Now ;;
          match cacheLookup s req tget with
          | (Some cached, s) =>
              ret ({| Status := 200;
                      Headers := <["X-Cache" := "HIT"]>
                                   (<["Content-Type" := "application/json"]> ∅);
                      RespBody := BodyBytes cached |}, s)
          | (None, s) =>
              (* Handle streaming *)
              if req_Stream req then handleStreamingCompletion s r prov req
              else dispatch s startTime prov req
          end
      end
  end.
End Handlers.

(** The [modelData] struct of [handleListModels] and the struct it encodes. *)
Record modelData := {
  md_ID : string;
  md_Object : string;
  md_Created : Z;
  md_OwnedBy : string
}.

Record modelList := {
  ml_Object : string;
  ml_Data : list modelData
}.

(** [handleListModels]: the value handed to the JSON encoder. [visit] is the
    order in which [registry.List] ranges over the providers; [time.Now] is
    read once per model. *)
Definition handleListModels (visit : list (string * Provider)) : IO modelList :=
  λ w,
    ({| ml_Object := "list";
        ml_Data :=
          flat_map (λ p, map (λ model, {| md_ID := model; md_Object := "model";
                                          md_Created := now w / Second;
                                          md_OwnedBy := Name p |})
                             (Models p))
                   (List visit) |}, w).

(** [handleCacheClear]. *)
Definition handleCacheClear (s : Server) : HttpResponse * Server :=
  ({| Status := 200;
      Headers := <["Content-Type" := "application/json"]> ∅;
      RespBody := BodyBytes (bytes_of_string
                    ("{" +:+ quoted "status" +:+ ":" +:+ quoted "cleared" +:+ "}")) |},
   match cache s with
   | Some c => withCache s (Some (cache.Clear c))
   | None => s
   end).

End server.

(** ** Vocabulary of the properties *)

Import provider.

(** A reply after which [doWithRetry] goes round again: a transport failure,
    or a response with status 429 or at least 500. *)
Definition retriable (r : HttpResult) : bool :=
  match r with
  | TransportError _ => true
  | Response StatusCode _ => (StatusCode =? 429) || (StatusCode >=? 500)
  end.

(** The time taken by [k] round trips carrying [req], the first of them being
    round trip number [start] of the run. *)
Fixpoint elapsed {net : Net} (start k : nat) (req : HttpRequest) : Z :=
  match k with
  | O => 0
  | S k' => Z.max 0 (RoundTripTime start req) + elapsed (S start) k' req
  end.

(** The HTTP request [ChatCompletion] hands to [doWithRetry], when marshalling
    and request construction succeed. *)
Definition chatRequest {lib : provider.Lib} (p : Provider) (req : ChatCompletionRequest)
    : Result HttpRequest :=
  match p with
  | OpenAI p =>
      match json_Marshal_ChatCompletionRequest (withXGateway None req) with
      | Err msg => Err msg
      | Ok body =>
          http_NewRequest "POST" (oa_baseURL p +:+ "/chat/completions") (Some body)
            [("Content-Type", "application/json");
             ("Authorization", "Bearer " +:+ oa_apiKey p)]
      end
  | Anthropic p =>
      match json_Marshal_anthropicRequest (convertRequest req) with
      | Err msg => Err msg
      | Ok body =>
          http_NewRequest "POST" (an_baseURL p +:+ "/messages") (Some body)
            (Anthropic_headers p)
      end
  end.

(** Whether the client of [p] can decode [body] as its provider's response. *)
Definition decodable {lib : provider.Lib} (p : Provider) (body : bytes) : Prop :=
  match p with
  | OpenAI _ => ∃ r, json_Decode_ChatCompletionResponse body = Ok r
  | Anthropic _ => ∃ r, json_Decode_anthropicResponse body = Ok r
  end.

(** The HTTP request [ChatCompletionStream] sends, when marshalling and
    request construction succeed. *)
Definition streamRequest {lib : provider.Lib} (p : Provider) (req : ChatCompletionRequest)
    : Result HttpRequest :=
  match p with
  | OpenAI p =>
      match json_Marshal_ChatCompletionRequest (withXGateway None (withStream true req)) with
      | Err msg => Err msg
      | Ok body =>
          http_NewRequest "POST" (oa_baseURL p +:+ "/chat/completions") (Some body)
            [("Content-Type", "application/json");
             ("Authorization", "Bearer " +:+ oa_apiKey p);
             ("Accept", "text/event-stream")]
      end
  | Anthropic p =>
      match json_Marshal_anthropicRequest (withArStream true (convertRequest req)) with
      | Err msg => Err msg
      | Ok body =>
          http_NewRequest "POST" (an_baseURL p +:+ "/messages") (Some body)
            (Anthropic_headers p ++ [("Accept", "text/event-stream")])
      end
  end.

(** An upstream request whose body is the JSON of a canonical request with a
    nil [XGateway], or of a native Anthropic request (a struct that has no
    field for the extensions). *)
Definition extensionFree {lib : provider.Lib} (h : HttpRequest) : Prop :=
  ∃ b, Body h = Some b ∧
       ((∃ r, req_XGateway r = None ∧ json_Marshal_ChatCompletionRequest r = Ok b) ∨
        (∃ ar, json_Marshal_anthropicRequest ar = Ok b)).

(** The probe [HealthCheck] sends: a model listing for the OpenAI client, a
    one-token completion for the Anthropic one. *)
Definition healthProbe {lib : provider.Lib} (p : Provider) : Result HttpRequest :=
  match p with
  | OpenAI p =>
      http_NewRequest "GET" (oa_baseURL p +:+ "/models") None
        [("Authorization", "Bearer " +:+ oa_apiKey p)]
  | Anthropic p =>
      http_NewRequest "POST" (an_baseURL p +:+ "/messages") (Some healthProbeBody)
        (Anthropic_headers p)
  end.

(** A probe that, in the words of the spec, failed: a transport failure or a
    status outside 200..299. *)
Definition probeFailed (r : HttpResult) : bool :=
  match r with
  | TransportError _ => true
  | Response StatusCode _ => negb ((200 <=? StatusCode) && (StatusCode <? 300))
  end.

(** The replies each client's [HealthCheck] turns into an error: a transport
    failure, or a status other than 200 and, for the Anthropic client, other
    than 400. *)
Definition probeRejected (p : Provider) (r : HttpResult) : bool :=
  match r with
  | TransportError _ => true
  | Response StatusCode _ =>
      match p with
      | OpenAI _ => negb (StatusCode =? 200)
      | Anthropic _ => negb (StatusCode =? 200) && negb (StatusCode =? 400)
      end
  end.



(** The record [server.dispatch] hands to [RecordRequest] after a successful
    call that returned [resp] and left the world [w']. *)
Definition usageRecord (start : Z) (prov : Provider) (req : ChatCompletionRequest)
    (resp : ChatCompletionResponse) (w' : World) : ProviderMetrics :=
  {| pm_Provider := Name prov; pm_Model := req_Model req;
     pm_PromptTokens := PromptTokens (resp_Usage resp);
     pm_CompletionTokens := CompletionTokens (resp_Usage resp);
     pm_TotalTokens := TotalTokens (resp_Usage resp);
     pm_LatencyMs := Z.quot (now w' - start) 1000000;
     pm_Cost := CalculateCost (req_Model req) (PromptTokens (resp_Usage resp))
                              (CompletionTokens (resp_Usage resp));
     pm_Cached := false; pm_Success := true; pm_Timestamp := now w' |}.

(** The record [server.handleStreamingCompletion] hands to [RecordRequest]. *)
Definition streamRecord (prov : Provider) (req : ChatCompletionRequest) (w' : World)
    : ProviderMetrics :=
  {| pm_Provider := Name prov; pm_Model := req_Model req;
     pm_PromptTokens := 0; pm_CompletionTokens := 0; pm_TotalTokens := 0;
     pm_LatencyMs := 0; pm_Cost := 0; pm_Cached := false;
     pm_Success := true; pm_Timestamp := now w' |}.

(** The cache that keeps only its [m] most recently used entries: the first
    [m] keys of the LRU list, with the items under the other keys deleted.
    Expiry times play no part. *)
Definition retain (m : nat) (c : cache.MemoryCache) : cache.MemoryCache :=
  {| cache.maxSize := cache.maxSize c; cache.ttl := cache.ttl c;
     cache.items := foldr delete (cache.items c) (drop m (cache.lru c));
     cache.lru := take m (cache.lru c);
     cache.hits := cache.hits c; cache.misses := cache.misses c |}.

(** Whether the entry stored under [k] is past its expiry at time [t]; a key
    that is not stored has nothing to expire. *)
Definition expired (c : cache.MemoryCache) (t : Z) (k : string) : bool :=
  match cache.items c !! k with
  | Some item => t >? cache.expiresAt item
  | None => false
  end.

(** The number of [Get]s among a sequence of cache operations. *)
Definition isGet (op : cache.Op) : bool :=
  match op with cache.OpGet _ _ => true | _ => false end.
Definition gets (ops : list cache.Op) : Z :=
  Z.of_nat (length (filter (λ op, isGet op) ops)).

(** The sum of a field over a list of usage records. *)
Definition sumOf (f : ProviderMetrics → Z) (ms : list ProviderMetrics) : Z :=
  foldr (λ m acc, f m + acc) 0 ms.

(** Wall-clock readings that do not go back. *)
Fixpoint ascending (ts : list Z) : bool :=
  match ts with
  | t1 :: (t2 :: _) as rest => (t1 <=? t2) && ascending rest
  | _ => true
  end.

(** The collector's cache counters agree with the counters the cache keeps
    itself. *)
Definition mirrors (s : server.Server) : Prop :=
  match server.cache s with
  | Some c =>
      metrics.cacheHits (server.metrics s) = cache.hits c ∧
      metrics.cacheMisses (server.metrics s) = cache.misses c
  | None => True
  end.

(** The operations under which the size bound is kept: a [Set] of a new key
    stores at most [maxSize] bytes, and a [Set] of a key already present
    stores a value no longer than the one it replaces. *)
Definition admissible (c : cache.MemoryCache) (op : cache.Op) : Prop :=
  match op with
  | cache.OpSet k v _ =>
      match cache.items c !! k with
      | None => len v ≤ cache.maxSize c
      | Some item => len v ≤ len (cache.value item)
      end
  | _ => True
  end.

Fixpoint admissibleRun (c : cache.MemoryCache) (ops : list cache.Op) : Prop :=
  match ops with
  | [] => True
  | op :: rest => admissible c op ∧ admissibleRun (cache.step c op) rest
  end.

(** The limiter [getLimiter] returns for [key]: the stored one, or a fresh
    one built from the per-key configuration. *)
Definition perKeyLimiter (rl : middleware.RateLimiter) (key : string) : rate.Limiter :=
  (middleware.getLimiter rl key).1.

(** The number of calls granted in a run of verdicts. *)
Definition granted (oks : list bool) : nat := length (filter (λ ok, ok = true) oks).


(** A bucket holds at most its capacity. *)
Definition bucketOk (l : rate.Limiter) : Prop :=
  rate.tokensRemaining l ≤ rate.capacity l * rate.window l.

(** Every stored per-key bucket has the configured capacity and window and
    holds at most its capacity. *)
Definition rlOk (rl : middleware.RateLimiter) : Prop :=
  ∀ key l, middleware.limiters rl !! key = Some l →
    rate.capacity l = config.Requests (config.PerKey (middleware.cfg rl)) ∧
    rate.window l = config.Window (config.PerKey (middleware.cfg rl)) ∧
    bucketOk l.

(** ** Concrete instances for the examples

    The properties below hold for every [Net], [provider.Lib] and
    [server.Lib]. The examples need concrete ones: scripted upstream servers,
    and stand-ins for the standard-library functions that agree with Go on the
    handful of inputs the examples use. *)

Module Fixture.

Definition jfield (k v : string) : string := quoted k +:+ ":" +:+ v.

(** An OpenAI-format reply whose usage does not add up: the JSON object with
    id cmpl-1, object chat.completion, created 1, model gpt-4, no choices, and
    usage [{prompt_tokens: 1, completion_tokens: 1, total_tokens: 5}]. *)
Definition openaiReply : bytes :=
  bytes_of_string
    ("{" +:+ jfield "id" (quoted "cmpl-1") +:+ "," +:+
     jfield "object" (quoted "chat.completion") +:+ "," +:+
     jfield "created" "1" +:+ "," +:+ jfield "model" (quoted "gpt-4") +:+ "," +:+
     jfield "choices" "[]" +:+ "," +:+
     jfield "usage" ("{" +:+ jfield "prompt_tokens" "1" +:+ "," +:+
                     jfield "completion_tokens" "1" +:+ "," +:+
                     jfield "total_tokens" "5" +:+ "}") +:+ "}").

(** What [encoding/json] decodes [openaiReply] to. *)
Definition openaiReplyDecoded : ChatCompletionResponse :=
  {| resp_ID := "cmpl-1"; resp_Object := "chat.completion"; resp_Created := 1;
     resp_Model := "gpt-4"; resp_Choices := [];
     resp_Usage := {| PromptTokens := 1; CompletionTokens := 1; TotalTokens := 5 |};
     resp_SystemFingerprint := "" |}.

(** An Anthropic-format reply: the JSON object with id msg_1, type message,
    role assistant, no content, model claude-3-haiku-20240307, stop_reason
    end_turn and usage [{input_tokens: 3, output_tokens: 4}]. *)
Definition anthropicReply : bytes :=
  bytes_of_string
    ("{" +:+ jfield "id" (quoted "msg_1") +:+ "," +:+
     jfield "type" (quoted "message") +:+ "," +:+
     jfield "role" (quoted "assistant") +:+ "," +:+ jfield "content" "[]" +:+ "," +:+
     jfield "model" (quoted "claude-3-haiku-20240307") +:+ "," +:+
     jfield "stop_reason" (quoted "end_turn") +:+ "," +:+
     jfield "usage" ("{" +:+ jfield "input_tokens" "3" +:+ "," +:+
                     jfield "output_tokens" "4" +:+ "}") +:+ "}").

Definition anthropicReplyDecoded : anthropicResponse :=
  {| ares_ID := "msg_1"; ares_Type := "message"; ares_Role := "assistant";
     ares_Content := []; ares_Model := "claude-3-haiku-20240307";
     ares_StopReason := "end_turn"; ares_StopSequence := None;
     ares_Usage := {| InputTokens := 3; OutputTokens := 4 |} |}.

(** Stand-in encoders: injective enough to tell the examples' requests apart
    (the model, the number of messages, whether extensions are present). *)
Definition encodeRequest (r : ChatCompletionRequest) : bytes :=
  bytes_of_string
    ("chat " +:+ req_Model r +:+ " " +:+ pretty (length (req_Messages r)) +:+
     (if req_Stream r then " stream" else "") +:+
     (match req_XGateway r with Some _ => " x-gateway" | None => "" end)).

Definition encodeAnthropic (r : anthropicRequest) : bytes :=
  bytes_of_string
    ("messages " +:+ ar_Model r +:+ " " +:+ pretty (length (ar_Messages r)) +:+
     (if ar_Stream r then " stream" else "")).

#[export] Instance providerLib : provider.Lib := {|
  json_Marshal_ChatCompletionRequest r := Ok (encodeRequest r);
  json_Marshal_anthropicRequest r := Ok (encodeAnthropic r);
  json_Decode_ChatCompletionResponse b :=
    if decide (string_of_bytes b = string_of_bytes openaiReply) then Ok openaiReplyDecoded else Err "invalid character";
  json_Decode_anthropicResponse b :=
    if decide (string_of_bytes b = string_of_bytes anthropicReply) then Ok anthropicReplyDecoded
    else Err "invalid character";
  http_NewRequest_err _ _ := None
|}.

#[export] Instance serverLib : server.Lib := {|
  server.json_Marshal_cacheKey k :=
    Ok (bytes_of_string ("key " +:+ server.ck_Model k +:+ " " +:+
                         pretty (length (server.ck_Messages k))));
  server.json_Marshal_ChatCompletionResponse r :=
    Ok (bytes_of_string ("response " +:+ resp_ID r));
  server.sha256_Sum256 b := b;
  server.hex_EncodeToString b := string_of_bytes b;
  server.fmt_f6 _ := "0.000000";
  server.bufio_ScanLines b := [string_of_bytes b]
|}.

(** An upstream that answers every request with the same status and body,
    at once. *)
Definition steadyNet (StatusCode : Z) (body : bytes) : Net :=
  {| RoundTrip _ _ := Response StatusCode body; RoundTripTime _ _ := 0 |}.

(** An upstream that answers 500 to the first two requests and 200 from then
    on (Scenario C). *)
Definition flakyNet (body : bytes) : Net :=
  {| RoundTrip n _ := if (n <? 2)%nat then Response 500 [] else Response 200 body;
     RoundTripTime _ _ := 0 |}.

Definition world0 : World := {| now := 0; sent := []; called := [] |}.

Definition openaiConfig : config.ProviderConfig :=
  {| config.pc_Name := "openai"; config.pc_APIKey := "sk-test";
     config.pc_BaseURL := ""; config.pc_Models := ["gpt-4"];
     config.pc_Priority := 0; config.pc_Timeout := 0; config.pc_MaxRetries := 0 |}.

Definition anthropicConfig : config.ProviderConfig :=
  {| config.pc_Name := "anthropic"; config.pc_APIKey := "sk-ant";
     config.pc_BaseURL := ""; config.pc_Models := [];
     config.pc_Priority := 0; config.pc_Timeout := 0; config.pc_MaxRetries := 0 |}.

Definition openaiProvider : Provider := createProvider openaiConfig.
Definition anthropicProvider : Provider := createProvider anthropicConfig.

(** A gateway with both providers, a 1 MB cache with a one-hour TTL, and the
    given default provider. *)
Definition gatewayConfig (defaultProvider : string) : config.Config :=
  {| config.Providers := [openaiConfig; anthropicConfig];
     config.Routing := {| config.DefaultProvider := defaultProvider;
                          config.ModelMappings := ∅;
                          config.FallbackChain := [] |};
     config.Cache := {| config.cc_Enabled := true; config.cc_Backend := "memory";
                        config.cc_TTL := Hour; config.cc_MaxSize := 1;
                        config.cc_RedisURL := "" |};
     config.RateLimitCfg :=
       {| config.rl_Enabled := false;
          config.Global := {| config.Requests := 0; config.Window := 0;
                              config.Tokens := 0 |};
          config.PerKey := {| config.Requests := 0; config.Window := 0;
                              config.Tokens := 0 |};
          config.PerModel := ∅ |} |}.

Definition gateway (defaultProvider : string) : server.Server :=
  server.New (gatewayConfig defaultProvider).

(** The order in which a range visits the gateway's providers. *)
Definition visitAll (s : server.Server) : list (string * Provider) :=
  map_to_list (providers (server.registry s)).

(** A POST of a well-formed body to a writer that can flush. *)
Definition post (req : ChatCompletionRequest) : server.Request :=
  {| server.decoded := Ok req; server.canFlush := true |}.

Definition hi : Message := {| msg_Role := "user"; msg_Content := "hi"; msg_Name := "" |}.

(** [{model: m, messages: [{role: user, content: hi}]}] with the given
    extensions. *)
Definition chat (model : string) (x : option GatewayExtensions) : ChatCompletionRequest :=
  {| req_Model := model; req_Messages := [hi]; req_Temperature := None;
     req_TopP := None; req_N := None; req_Stream := false; req_Stop := [];
     req_MaxTokens := None; req_PresencePenalty := None; req_FrequencyPenalty := None;
     req_User := ""; req_XGateway := x |}.

Definition noCache : GatewayExtensions :=
  {| gx_Cache := Some false; gx_Timeout := None; gx_Provider := ""; gx_Metadata := ∅ |}.

(** A value of 1 MB and one byte. *)
Definition oversized : bytes := replicate (Z.to_nat 1048577) "000"%byte.

(** Rate limits: no global limit and 5 requests per minute per key;
    3 requests per minute in all and 1 per minute per key. *)
Definition fivePerMinute : config.RateLimitConfig :=
  {| config.rl_Enabled := true;
     config.Global := {| config.Requests := 0; config.Window := 0; config.Tokens := 0 |};
     config.PerKey := {| config.Requests := 5; config.Window := Minute;
                         config.Tokens := 0 |};
     config.PerModel := ∅ |}.

Definition sharedThree : config.RateLimitConfig :=
  {| config.rl_Enabled := true;
     config.Global := {| config.Requests := 3; config.Window := Minute;
                         config.Tokens := 0 |};
     config.PerKey := {| config.Requests := 1; config.Window := Minute;
                         config.Tokens := 0 |};
     config.PerModel := ∅ |}.

(** No global limit, and 2 requests per key in a window of zero length. *)
Definition zeroWindow : config.RateLimitConfig :=
  {| config.rl_Enabled := true;
     config.Global := {| config.Requests := 0; config.Window := 0; config.Tokens := 0 |};
     config.PerKey := {| config.Requests := 2; config.Window := 0; config.Tokens := 0 |};
     config.PerModel := ∅ |}.

(** A usage record of [tokens] tokens in all, stamped [ts]. *)
Definition record (prov : string) (tokens ts : Z) : ProviderMetrics :=
  {| pm_Provider := prov; pm_Model := "gpt-4"; pm_PromptTokens := 0;
     pm_CompletionTokens := tokens; pm_TotalTokens := tokens; pm_LatencyMs := 0;
     pm_Cost := 0; pm_Cached := false; pm_Success := true; pm_Timestamp := ts |}.

End Fixture.

(** * Properties *)

(** ** The [IO] monad *)

Lemma bind_eq {A B} (m : IO A) (k : A → IO B) (w : World) :
  bind m k w = k (m w).1 (m w).2.
Proof. unfold bind. by destruct (m w). Qed.

Lemma ret_eq {A} (a : A) (w : World) : ret a w = (a, w).
Proof. reflexivity. Qed.

Lemma time_Now_eq (w : World) : time_Now w = (now w, w).
Proof. reflexivity. Qed.

(** ** Retry policy of the provider clients *)

Section RetryPolicy.
Context {net : Net}.

(** One round of the loop, unfolded. *)
Lemma retryLoop_S n attempt lastErr req w :
  retryLoop (S n) attempt lastErr req w =
  let w1 := (client_Do req w).2 in
  let w2 := (time_Sleep ((attempt + 1) * Second) w1).2 in
  match RoundTrip (length (sent w)) req with
  | TransportError msg => retryLoop n (attempt + 1) (Some (Errorf msg)) req w2
  | Response code body =>
      if (code =? 429) || (code >=? 500) then
        retryLoop n (attempt + 1)
          (Some (Errorf ("request failed with status " +:+ fmt_d code))) req w2
      else (inr (code, body), w1)
  end.
Proof.
  cbn [retryLoop]. unfold bind, client_Do. cbn.
  destruct (RoundTrip (length (sent w)) req) as [msg|code body]; [reflexivity|].
  destruct ((code =? 429) || (code >=? 500)); reflexivity.
Qed.

Lemma sent_after_round req d w :
  sent (time_Sleep d (client_Do req w).2).2 = sent w ++ [req].
Proof. reflexivity. Qed.

(** What one run of the loop does: it sends the same request [k <= n]
    times; every attempt that is followed by another drew a retriable
    reply; a returned response is the reply to the last attempt and is not
    retriable; an error means all [n] attempts drew retriable replies. *)
Lemma retryLoop_spec n : ∀ attempt lastErr req w,
  ∃ k : nat,
    (k ≤ n)%nat ∧
    sent (retryLoop n attempt lastErr req w).2 = sent w ++ replicate k req ∧
    (∀ i, (S i < k)%nat →
          retriable (RoundTrip (length (sent w) + i) req) = true) ∧
    match (retryLoop n attempt lastErr req w).1 with
    | inr (code, body) =>
        ∃ j, k = S j ∧
             RoundTrip (length (sent w) + j) req = Response code body ∧
             retriable (Response code body) = false
    | inl e =>
        k = n ∧
        (∀ i, (i < k)%nat → retriable (RoundTrip (length (sent w) + i) req) = true) ∧
        ∃ le, e = Errorf ("max retries exceeded: " +:+ fmt_w le)
    end.
Proof.
  induction n as [|n IH]; intros attempt lastErr req w.
  - exists 0%nat. cbn. rewrite app_nil_r. repeat split; try lia; eauto.
  - rewrite retryLoop_S. cbv zeta.
    assert (Hgo : ∀ le, retriable (RoundTrip (length (sent w)) req) = true →
      let w2 := (time_Sleep ((attempt + 1) * Second) (client_Do req w).2).2 in
      ∃ k : nat, (k ≤ S n)%nat ∧
        sent (retryLoop n (attempt + 1) le req w2).2 = sent w ++ replicate k req ∧
        (∀ i, (S i < k)%nat → retriable (RoundTrip (length (sent w) + i) req) = true) ∧
        match (retryLoop n (attempt + 1) le req w2).1 with
        | inr (code, body) =>
            ∃ j, k = S j ∧ RoundTrip (length (sent w) + j) req = Response code body ∧
                 retriable (Response code body) = false
        | inl e =>
            k = S n ∧
            (∀ i, (i < k)%nat → retriable (RoundTrip (length (sent w) + i) req) = true) ∧
            ∃ le, e = Errorf ("max retries exceeded: " +:+ fmt_w le)
        end).
    { intros le Hr w2.
      destruct (IH (attempt + 1) le req w2) as (k & Hk & Hs & Hret & Hres).
      assert (Hlen : length (sent w2) = S (length (sent w))).
      { subst w2. rewrite sent_after_round, length_app. cbn. lia. }
      assert (Hshift : ∀ i, (length (sent w2) + i = length (sent w) + S i)%nat)
        by (intros; lia).
      exists (S k). split; [lia|]. split.
      { rewrite Hs. subst w2. rewrite sent_after_round. cbn. by rewrite <- app_assoc. }
      split.
      { intros [|i] Hi; [by rewrite Nat.add_0_r|].
        rewrite <- Hshift. apply Hret. lia. }
      destruct (retryLoop n (attempt + 1) le req w2).1 as [e|[code body]].
      - destruct Hres as (-> & Hall & le' & ->). split; [done|]. split; [|eauto].
        intros [|i] Hi; [by rewrite Nat.add_0_r|].
        rewrite <- Hshift. apply Hall. lia.
      - destruct Hres as (j & -> & Hj & Hnr). exists (S j). split; [done|].
        by rewrite <- Hshift. }
    destruct (RoundTrip (length (sent w)) req) as [msg|code body] eqn:Hr.
    + apply Hgo. reflexivity.
    + destruct ((code =? 429) || (code >=? 500)) eqn:Hc.
      * apply Hgo. exact Hc.
      * exists 1%nat. cbn. split; [lia|]. split; [done|]. split; [intros; lia|].
        exists 0%nat. rewrite Nat.add_0_r. by rewrite Hr, Hc.
Qed.

Context {lib : provider.Lib}.

(** [ChatCompletion] logs the call and is then [doWithRetry] on
    [chatRequest], followed by the status check and the decoding of the
    body. *)
Lemma ChatCompletion_via_retry p req hreq w :
  chatRequest p req = Ok hreq →
  let w0 := (enter {| callee := Name p; method := "ChatCompletion";
                        callModel := req_Model req |} w).2 in
  sent (ChatCompletion p req w).2 = sent (doWithRetry (maxRetries p) hreq w0).2 ∧
  called (ChatCompletion p req w).2 = called w0 ∧
  match (doWithRetry (maxRetries p) hreq w0).1 with
  | inl e => (ChatCompletion p req w).1 = inl e
  | inr (code, body) =>
      if code =? 200 then
        decodable p body → ∃ resp, (ChatCompletion p req w).1 = inr resp
      else
        (ChatCompletion p req w).1 =
        inl (ProviderErr {| pe_Provider := Name p; pe_StatusCode := code;
                            pe_Message := string_of_bytes body;
                            pe_Type := "api_error" |})
  end.
Proof.
  intros Hreq w0. unfold ChatCompletion. rewrite !bind_eq. fold w0.
  assert (Hcalled : ∀ fuel a le w1,
    called (retryLoop fuel a le hreq w1).2 = called w1).
  { induction fuel as [|fuel IH]; intros a le w1; [done|].
    rewrite retryLoop_S. cbv zeta.
    destruct (RoundTrip _ hreq) as [msg|code body]; [by rewrite IH|].
    destruct (_ || _); [by rewrite IH|done]. }
  destruct p as [p|p]; cbn [chatRequest maxRetries Name decodable] in *.
  - unfold OpenAI_ChatCompletion, OpenAI_doWithRetry.
    destruct (json_Marshal_ChatCompletionRequest _) as [body|msg]; [|done].
    rewrite Hreq, bind_eq. unfold doWithRetry.
    specialize (Hcalled (Z.to_nat (effectiveMaxRetries (oa_maxRetries p))) 0 None w0).
    destruct (retryLoop _ 0 None hreq w0) as [[e|[code body']] w'];
      cbn [fst snd] in *; [done|].
    destruct (code =? 200); cbn [negb]; [|done].
    split; [by destruct (json_Decode_ChatCompletionResponse body')|].
    split; [by destruct (json_Decode_ChatCompletionResponse body')|].
    intros [r ->]. eauto.
  - unfold Anthropic_ChatCompletion, Anthropic_doWithRetry.
    destruct (json_Marshal_anthropicRequest _) as [body|msg]; [|done].
    rewrite Hreq, bind_eq. unfold doWithRetry.
    specialize (Hcalled (Z.to_nat (effectiveMaxRetries (an_maxRetries p))) 0 None w0).
    destruct (retryLoop _ 0 None hreq w0) as [[e|[code body']] w'];
      cbn [fst snd] in *; [done|].
    destruct (code =? 200); cbn [negb]; [|done].
    split; [by destruct (json_Decode_anthropicResponse body')|].
    split; [by destruct (json_Decode_anthropicResponse body')|].
    intros [r ->]. cbn. eauto.
Qed.

(** C6. A chat-completion call of either client sends the same upstream
    request [k] times, with [k] at most [maxRetries] (3 when unconfigured);
    an attempt is followed by another only if it met a transport failure or
    a status 429 or >= 500; the attempt that draws any other status is the
    last one, and a status other than 200 comes back as a [ProviderError]
    carrying the provider's name, the status, the body as message and the
    type; and when the upstream answers 500, 500, 200 (with [maxRetries]
    unconfigured or at least 3) the call succeeds after exactly 3 attempts. *)
Theorem retry_policy (p : Provider) (req : ChatCompletionRequest) (hreq : HttpRequest)
    (w : World) :
  chatRequest p req = Ok hreq →
  let n := length (sent w) in
  let out := ChatCompletion p req w in
  ∃ k : nat,
    (k ≤ Z.to_nat (effectiveMaxRetries (maxRetries p)))%nat ∧
    effectiveMaxRetries 0 = 3 ∧
    sent out.2 = sent w ++ replicate k hreq ∧
    (∀ i, (S i < k)%nat → retriable (RoundTrip (n + i) hreq) = true) ∧
    (∀ i code body,
        (i < k)%nat → RoundTrip (n + i) hreq = Response code body →
        retriable (Response code body) = false →
        k = S i ∧
        (code ≠ 200 →
         out.1 = inl (ProviderErr {| pe_Provider := Name p; pe_StatusCode := code;
                                     pe_Message := string_of_bytes body;
                                     pe_Type := "api_error" |}))) ∧
    (∀ b1 b2 body,
        maxRetries p = 0 ∨ 3 ≤ maxRetries p →
        RoundTrip n hreq = Response 500 b1 →
        RoundTrip (n + 1) hreq = Response 500 b2 →
        RoundTrip (n + 2) hreq = Response 200 body →
        decodable p body →
        k = 3%nat ∧ ∃ resp, out.1 = inr resp).
Proof.
  intros Hreq n out.
  destruct (ChatCompletion_via_retry p req hreq w Hreq) as (Hsent & _ & Hout).
  unfold doWithRetry in Hsent, Hout.
  set (w0 := (enter {| callee := Name p; method := "ChatCompletion";
                        callModel := req_Model req |} w).2) in *.
  destruct (retryLoop_spec (Z.to_nat (effectiveMaxRetries (maxRetries p))) 0 None hreq w0)
    as (k & Hk & Hs & Hret & Hres).
  change (sent w0) with (sent w) in *.
  fold n in Hret, Hres.
  exists k. split; [exact Hk|]. split; [reflexivity|].
  split; [subst out; by rewrite Hsent|]. split; [exact Hret|].
  assert (Hlast : ∀ i code body,
    (i < k)%nat → RoundTrip (n + i) hreq = Response code body →
    retriable (Response code body) = false →
    k = S i ∧
    (retryLoop (Z.to_nat (effectiveMaxRetries (maxRetries p))) 0 None hreq w0).1
      = inr (code, body)).
  { intros i code body Hi Hrt Hnr.
    assert (k = S i) as ->.
    { destruct (decide (S i < k)%nat) as [Hlt|]; [|lia].
      specialize (Hret i Hlt). congruence. }
    split; [done|].
    destruct (retryLoop _ 0 None hreq w0).1 as [e|[code' body']].
    - destruct Hres as (_ & Hall & _). specialize (Hall i Hi). congruence.
    - destruct Hres as (j & [= <-] & Hj & _). congruence. }
  split.
  - intros i code body Hi Hrt Hnr.
    destruct (Hlast i code body Hi Hrt Hnr) as [-> Hres'].
    split; [done|]. intros Hne. rewrite Hres' in Hout.
    destruct (code =? 200) eqn:Hc; [lia|]. exact Hout.
  - intros b1 b2 body Hmr Hr0 Hr1 Hr2 Hdec.
    assert (Hfuel : (3 ≤ Z.to_nat (effectiveMaxRetries (maxRetries p)))%nat).
    { unfold effectiveMaxRetries. destruct Hmr as [->|Hge]; [cbn; lia|].
      destruct (maxRetries p =? 0) eqn:E; lia. }
    assert (Hk3 : (2 < k)%nat).
    { destruct (retryLoop _ 0 None hreq w0).1 as [e|[code' body']].
      - destruct Hres as (-> & _). lia.
      - destruct Hres as (j & -> & Hj & Hnr).
        destruct j as [|[|j]]; [| |lia].
        + rewrite Nat.add_0_r in Hj. rewrite Hr0 in Hj. by injection Hj as <- <-.
        + rewrite Hr1 in Hj. by injection Hj as <- <-. }
    destruct (Hlast 2%nat 200 body Hk3 Hr2 eq_refl) as [-> Hres'].
    split; [done|]. rewrite Hres' in Hout. cbn in Hout. by apply Hout.
Qed.
End RetryPolicy.

(** ** Gateway extensions stay in the gateway *)

Section Extensions.
Context {net : Net} {lib : provider.Lib}.

Lemma withXGateway_withStream x b r :
  withXGateway x (withStream b r) = withStream b (withXGateway x r).
Proof. reflexivity. Qed.

Lemma convertRequest_withXGateway x r :
  convertRequest (withXGateway x r) = convertRequest r.
Proof. reflexivity. Qed.

Lemma req_Model_withXGateway x r : req_Model (withXGateway x r) = req_Model r.
Proof. reflexivity. Qed.

Lemma http_NewRequest_Body method url body hdr hreq :
  http_NewRequest method url body hdr = Ok hreq → Body hreq = body.
Proof.
  unfold http_NewRequest. destruct (http_NewRequest_err method url); [done|].
  by intros [= <-].
Qed.

Lemma chatRequest_extensionFree p req hreq :
  chatRequest p req = Ok hreq → extensionFree hreq.
Proof.
  destruct p as [p|p]; cbn [chatRequest].
  - destruct (json_Marshal_ChatCompletionRequest _) as [body|] eqn:Hm; [|done].
    intros Hb%http_NewRequest_Body. exists body. split; [done|]. left.
    by exists (withXGateway None req).
  - destruct (json_Marshal_anthropicRequest _) as [body|] eqn:Hm; [|done].
    intros Hb%http_NewRequest_Body. exists body. split; [done|]. right. eauto.
Qed.

Lemma streamRequest_extensionFree p req hreq :
  streamRequest p req = Ok hreq → extensionFree hreq.
Proof.
  destruct p as [p|p]; cbn [streamRequest].
  - destruct (json_Marshal_ChatCompletionRequest _) as [body|] eqn:Hm; [|done].
    intros Hb%http_NewRequest_Body. exists body. split; [done|]. left.
    by exists (withXGateway None (withStream true req)).
  - destruct (json_Marshal_anthropicRequest _) as [body|] eqn:Hm; [|done].
    intros Hb%http_NewRequest_Body. exists body. split; [done|]. right. eauto.
Qed.

(** A built request is sent some number of times, and nothing else is. *)
Lemma ChatCompletion_sent p req hreq w :
  chatRequest p req = Ok hreq →
  ∃ k, sent (ChatCompletion p req w).2 = sent w ++ replicate k hreq.
Proof.
  intros Hreq.
  destruct (ChatCompletion_via_retry p req hreq w Hreq) as (Hsent & _ & _).
  destruct (retryLoop_spec (Z.to_nat (effectiveMaxRetries (maxRetries p))) 0 None hreq
              (enter {| callee := Name p; method := "ChatCompletion";
                        callModel := req_Model req |} w).2) as (k & _ & Hs & _).
  exists k. by rewrite Hsent.
Qed.

(** When the request cannot be built nothing is sent. *)
Lemma ChatCompletion_unbuilt p req msg w :
  chatRequest p req = Err msg → sent (ChatCompletion p req w).2 = sent w.
Proof.
  unfold ChatCompletion. rewrite bind_eq.
  destruct p as [p|p]; cbn [chatRequest].
  - unfold OpenAI_ChatCompletion.
    destruct (json_Marshal_ChatCompletionRequest _) as [body|]; [|done].
    by intros ->.
  - unfold Anthropic_ChatCompletion.
    destruct (json_Marshal_anthropicRequest _) as [body|]; [|done].
    by intros ->.
Qed.

(** The streaming call sends its request once, if it can build it. *)
Lemma ChatCompletionStream_sent p req w :
  sent (ChatCompletionStream p req w).2 =
  sent w ++ match streamRequest p req with Ok hreq => [hreq] | Err _ => [] end.
Proof.
  unfold ChatCompletionStream. rewrite bind_eq.
  destruct p as [p|p]; cbn [streamRequest].
  - unfold OpenAI_ChatCompletionStream.
    destruct (json_Marshal_ChatCompletionRequest _) as [body|];
      [|by rewrite app_nil_r].
    destruct (http_NewRequest _ _ _ _) as [hreq|]; [|by rewrite app_nil_r].
    rewrite bind_eq. cbn [client_Do fst snd enter].
    destruct (RoundTrip _ hreq) as [|code b]; [done|]. by destruct (negb _).
  - unfold Anthropic_ChatCompletionStream.
    destruct (json_Marshal_anthropicRequest _) as [body|];
      [|by rewrite app_nil_r].
    destruct (http_NewRequest _ _ _ _) as [hreq|]; [|by rewrite app_nil_r].
    rewrite bind_eq. cbn [client_Do fst snd enter].
    destruct (RoundTrip _ hreq) as [|code b]; [done|]. by destruct (negb _).
Qed.

(** C7. Whatever a client sends upstream for a canonical request, on the
    non-streaming and on the streaming path, has a body marshalled from a
    request whose [XGateway] is nil (OpenAI) or from the native Anthropic
    struct, which has no such field; two requests that differ only in
    their extensions make the client behave identically, so the upstream
    bodies are the same; and the Anthropic translation reads only the
    model, the messages (from which it takes the system prompt), the
    maximum tokens, the temperature and top-p. *)
Theorem extensions_not_forwarded (p : Provider) (req : ChatCompletionRequest) (w : World) :
  (∃ new, sent (ChatCompletion p req w).2 = sent w ++ new ∧ Forall extensionFree new) ∧
  (∃ new, sent (ChatCompletionStream p req w).2 = sent w ++ new ∧
          Forall extensionFree new) ∧
  (∀ req', withXGateway None req' = withXGateway None req →
           ChatCompletion p req' w = ChatCompletion p req w ∧
           ChatCompletionStream p req' w = ChatCompletionStream p req w) ∧
  (∀ req', req_Model req' = req_Model req → req_Messages req' = req_Messages req →
           req_MaxTokens req' = req_MaxTokens req →
           req_Temperature req' = req_Temperature req → req_TopP req' = req_TopP req →
           convertRequest req' = convertRequest req).
Proof.
  split; [|split; [|split]];
    [| | |intros req' Hm Hmsg Hmax Htemp Htop; unfold convertRequest;
          by rewrite Hm, Hmsg, Hmax, Htemp, Htop].
  - destruct (chatRequest p req) as [hreq|msg] eqn:Hreq.
    + destruct (ChatCompletion_sent p req hreq w Hreq) as (k & Hs).
      exists (replicate k hreq). split; [exact Hs|].
      apply Forall_replicate. by eapply chatRequest_extensionFree.
    + exists []. rewrite app_nil_r. split; [by eapply ChatCompletion_unbuilt|done].
  - rewrite ChatCompletionStream_sent.
    destruct (streamRequest p req) as [hreq|msg] eqn:Hreq.
    + exists [hreq]. split; [done|]. constructor; [|done].
      by eapply streamRequest_extensionFree.
    + by exists [].
  - intros req' Heq.
    assert (Hm : req_Model req' = req_Model req)
      by (rewrite <- (req_Model_withXGateway None req'), Heq; done).
    assert (Hc : convertRequest req' = convertRequest req)
      by (rewrite <- (convertRequest_withXGateway None req'), Heq; done).
    destruct p as [p|p]; unfold ChatCompletion, ChatCompletionStream;
      cbn [Name].
    + unfold OpenAI_ChatCompletion, OpenAI_ChatCompletionStream.
      by rewrite !withXGateway_withStream, Heq, Hm.
    + unfold Anthropic_ChatCompletion, Anthropic_ChatCompletionStream.
      by rewrite Hc, Hm.
Qed.
End Extensions.

(** Scenario C on the OpenAI client with the default retry budget: the
    upstream answers 500, 500, 200 and the call succeeds on the third
    attempt. *)
Lemma retry_policy_witness :
  chatRequest (lib := Fixture.providerLib) Fixture.openaiProvider
    (Fixture.chat "gpt-4" None)
  = Ok {| Method := "POST"; URL := "https://api.openai.com/v1/chat/completions";
          Header := [("Content-Type", "application/json");
                     ("Authorization", "Bearer sk-test")];
          Body := Some (Fixture.encodeRequest (Fixture.chat "gpt-4" None)) |} ∧
  ∃ resp,
    (ChatCompletion (net := Fixture.flakyNet Fixture.openaiReply)
       (lib := Fixture.providerLib) Fixture.openaiProvider
       (Fixture.chat "gpt-4" None) Fixture.world0).1 = inr resp ∧
    length (sent (ChatCompletion (net := Fixture.flakyNet Fixture.openaiReply)
                    (lib := Fixture.providerLib) Fixture.openaiProvider
                    (Fixture.chat "gpt-4" None) Fixture.world0).2) = 3%nat.
Proof.
  split; [reflexivity|].
  destruct (retry_policy (net := Fixture.flakyNet Fixture.openaiReply)
              (lib := Fixture.providerLib) Fixture.openaiProvider
              (Fixture.chat "gpt-4" None) _ Fixture.world0 eq_refl)
    as (k & _ & _ & Hs & _ & _ & Hscen).
  destruct (Hscen [] [] Fixture.openaiReply) as [-> [resp Hresp]];
    [by left|reflexivity|reflexivity|reflexivity|by eexists|].
  exists resp. split; [exact Hresp|]. by rewrite Hs.
Defined.

(** Two requests that differ only in their extensions (none, and
    cache disabled) are sent upstream as the same bytes. *)
Lemma extensions_not_forwarded_witness :
  withXGateway None (Fixture.chat "gpt-4" (Some Fixture.noCache))
  = withXGateway None (Fixture.chat "gpt-4" None) ∧
  Fixture.encodeRequest (Fixture.chat "gpt-4" (Some Fixture.noCache))
  ≠ Fixture.encodeRequest (Fixture.chat "gpt-4" None) ∧
  sent (ChatCompletion (net := Fixture.steadyNet 200 Fixture.openaiReply)
          (lib := Fixture.providerLib) Fixture.openaiProvider
          (Fixture.chat "gpt-4" (Some Fixture.noCache)) Fixture.world0).2
  = sent (ChatCompletion (net := Fixture.steadyNet 200 Fixture.openaiReply)
            (lib := Fixture.providerLib) Fixture.openaiProvider
            (Fixture.chat "gpt-4" None) Fixture.world0).2.
Proof.
  split; [reflexivity|]. split; [by vm_compute|].
  destruct (extensions_not_forwarded (net := Fixture.steadyNet 200 Fixture.openaiReply)
              (lib := Fixture.providerLib) Fixture.openaiProvider
              (Fixture.chat "gpt-4" None) Fixture.world0) as (_ & _ & Heq & _).
  destruct (Heq (Fixture.chat "gpt-4" (Some Fixture.noCache)) eq_refl) as [-> _].
  reflexivity.
Defined.

(** ** Health checks *)

Section Health.
Context {net : Net} {lib : provider.Lib}.

(** C8, as the code has it. A health check whose probe can be built sends
    that one probe and nothing else, and returns an error exactly when the
    probe meets a transport failure or a status other than 200, where the
    Anthropic client also accepts 400; so an OpenAI-compatible client reports
    a probe answered 400 as an error and the Anthropic client reports it as
    healthy. If the probe cannot be built the check fails without sending
    anything. The check reads the provider and returns only the error: there
    is no provider state for it to change. *)
Theorem healthCheck_reports (p : Provider) (w : World) :
  let out := HealthCheck p w in
  match healthProbe p with
  | Ok probe =>
      sent out.2 = sent w ++ [probe] ∧
      (is_Some out.1 ↔ probeRejected p (RoundTrip (length (sent w)) probe) = true) ∧
      (∀ body, RoundTrip (length (sent w)) probe = Response 400 body →
               match p with
               | OpenAI _ => is_Some out.1
               | Anthropic _ => out.1 = None
               end)
  | Err msg => out.1 = Some (Errorf msg) ∧ sent out.2 = sent w
  end.
Proof.
  cbv zeta. unfold HealthCheck. rewrite bind_eq. cbn [enter fst snd].
  destruct p as [p|p]; cbn [healthProbe].
  - unfold OpenAI_HealthCheck.
    destruct (http_NewRequest _ _ _ _) as [probe|msg]; [|done].
    rewrite bind_eq. cbn [client_Do fst snd sent].
    destruct (RoundTrip (length (sent w)) probe) as [msg|code body] eqn:Hr;
      cbn [probeRejected].
    + split; [done|]. split; [|done]. split; [done|]. intros _. by eexists.
    + destruct (code =? 200) eqn:Hc; cbn [negb].
      * split; [done|]. split; [split; [by intros [? ?]|done]|].
        intros body' [= -> _]. done.
      * split; [done|]. split; [split; [done|intros _; by eexists]|].
        intros _ _. by eexists.
  - unfold Anthropic_HealthCheck.
    destruct (http_NewRequest _ _ _ _) as [probe|msg]; [|done].
    rewrite bind_eq. cbn [client_Do fst snd sent].
    destruct (RoundTrip (length (sent w)) probe) as [msg|code body] eqn:Hr;
      cbn [probeRejected].
    + split; [done|]. split; [|done]. split; [done|]. intros _. by eexists.
    + destruct (negb (code =? 200) && negb (code =? 400)) eqn:Hc.
      * split; [done|]. split; [split; [done|intros _; by eexists]|].
        intros body' [= -> _]. done.
      * split; [done|]. split; [split; [by intros [? ?]|done]|done].
Qed.
End Health.

(** C8 as stated fails: the Anthropic health check treats a probe answered
    with HTTP 400, a non-2xx status, as healthy. *)
Lemma healthCheck_400_counterexample :
  ¬ (∀ (net : Net) (lib : provider.Lib) (p : Provider) (w : World) (probe : HttpRequest),
       healthProbe p = Ok probe →
       (is_Some (HealthCheck p w).1
        ↔ probeFailed (RoundTrip (length (sent w)) probe) = true)).
Proof.
  intros Hclaim.
  destruct (Hclaim (Fixture.steadyNet 400 []) Fixture.providerLib
              Fixture.anthropicProvider Fixture.world0 _ eq_refl) as [_ Herr].
  destruct (Herr eq_refl) as [e He]. vm_compute in He. discriminate He.
Qed.

(** ** The chat-completion handler *)

Section Handler.
Context {net : Net} {lib : provider.Lib} {slib : server.Lib}.
Import server.




(** The paths through [handleChatCompletion] for a request that decodes. *)
Lemma handleChatCompletion_cases s visit r req w :
  decoded r = Ok req →
  handleChatCompletion s visit r w =
  match GetForModel (registry s) visit (req_Model req) with
  | inl err => (writeError ∅ 400 "model not found" (Error err), s, w)
  | inr prov =>
      match cacheLookup s req (now w) with
      | (Some cached, s1) =>
          ({| Status := 200;
              Headers := <["X-Cache" := "HIT"]>
                           (<["Content-Type" := "application/json"]> ∅);
              RespBody := BodyBytes cached |}, s1, w)
      | (None, s1) =>
          if req_Stream req then handleStreamingCompletion s1 r prov req w
          else dispatch s1 (now w) prov req w
      end
  end.
Proof.
  intros Hdec. unfold handleChatCompletion. rewrite bind_eq, time_Now_eq, Hdec.
  cbn [fst snd].
  destruct (GetForModel _ _ _) as [err|prov]; [done|].
  rewrite bind_eq, time_Now_eq. cbn [fst snd].
  destruct (cacheLookup s req (now w)) as [[cached|] s1]; [done|].
  by destruct (req_Stream req).
Qed.

(** The non-streaming dispatch when the provider call fails: the error is
    written and the server is left as it was; [RecordRequest] is not reached. *)
Lemma dispatch_failure s start prov req w err :
  (ChatCompletion prov req w).1 = inl err →
  dispatch s start prov req w = (writeProviderError ∅ err, s, (ChatCompletion prov req w).2).
Proof. intros He. unfold dispatch. by rewrite bind_eq, He. Qed.

(** The non-streaming dispatch when the provider call succeeds:
    [RecordRequest] runs once, on [usageRecord]. *)
Lemma dispatch_success s start prov req w resp :
  (ChatCompletion prov req w).1 = inr resp →
  let w' := (ChatCompletion prov req w).2 in
  (dispatch s start prov req w).2 = w' ∧
  metrics (dispatch s start prov req w).1.2
  = metrics.RecordRequest (metrics s) (usageRecord start prov req resp w') (now w').
Proof.
  intros He w'. unfold dispatch. rewrite bind_eq, He. fold w'.
  rewrite !bind_eq, !time_Now_eq. cbn [fst snd].
  destruct (json_Marshal_ChatCompletionResponse resp) as [respBytes|msg]; [|done].
  rewrite bind_eq, time_Now_eq, ret_eq. cbn [fst snd metrics withMetrics].
  split; [done|]. cbn [cache withMetrics].
  destruct (cache s) as [c|]; [|done]. by destruct (cacheRequested req).
Qed.


(** The streaming relay: one call to the provider, and either no record (the
    call failed, or the writer cannot flush) or one [streamRecord]. *)
Lemma handleStreamingCompletion_effects s r prov req w :
  let out := handleStreamingCompletion s r prov req w in
  out.2 = (ChatCompletionStream prov req w).2 ∧
  (out.1.2 = s ∨
   out.1.2 = withMetrics s (metrics.RecordRequest (metrics s)
                              (streamRecord prov req out.2) (now out.2))).
Proof.
  cbv zeta. unfold handleStreamingCompletion. rewrite bind_eq.
  destruct (ChatCompletionStream prov req w) as [[err|stream] w']; cbn [fst snd].
  - split; [done|by left].
  - destruct (negb (canFlush r)); [split; [done|by left]|].
    rewrite !bind_eq, !time_Now_eq. cbn [fst snd ret]. split; [done|by right].
Qed.





(** ** Usage records *)

Lemma requests_RecordRequest c m t m' :
  m' ∈ metrics.requests (metrics.RecordRequest c m t) →
  m' ∈ metrics.requests c ∨ m' = m.
Proof.
  cbn. intros [_ Hin]%list_elem_of_filter.
  apply elem_of_app in Hin as [?|Hin]; [by left|].
  right. by apply list_elem_of_singleton in Hin.
Qed.

Lemma cacheLookup_requests s req t :
  metrics.requests (metrics (cacheLookup s req t).2) = metrics.requests (metrics s) ∧
  registry (cacheLookup s req t).2 = registry s.
Proof.
  unfold cacheLookup. destruct (cache s) as [c|]; [|done].
  destruct (negb _ && _); [|done].
  destruct (cache.Get c _ t) as [[b|] c']; done.
Qed.

(** Where the usage of a successful completion comes from: the Anthropic
    client computes the total as the sum; the OpenAI client returns what it
    decoded from the body of a 200 reply. *)
Lemma ChatCompletion_usage p req w resp :
  (ChatCompletion p req w).1 = inr resp →
  match p with
  | Anthropic _ =>
      TotalTokens (resp_Usage resp)
      = int_add (PromptTokens (resp_Usage resp)) (CompletionTokens (resp_Usage resp))
  | OpenAI _ =>
      ∃ body n hreq, RoundTrip n hreq = Response 200 body ∧
                     json_Decode_ChatCompletionResponse body = Ok resp
  end.
Proof.
  unfold ChatCompletion. rewrite bind_eq. cbn [enter fst snd].
  set (w0 := {| now := now w; sent := sent w; called := _ |}).
  destruct p as [p|p].
  - unfold OpenAI_ChatCompletion.
    destruct (json_Marshal_ChatCompletionRequest _); [|done].
    destruct (http_NewRequest _ _ _ _) as [hreq|]; [|done].
    rewrite bind_eq. unfold OpenAI_doWithRetry, doWithRetry.
    destruct (retryLoop_spec (Z.to_nat (effectiveMaxRetries (oa_maxRetries p)))
                0 None hreq w0) as (k & _ & _ & _ & Hres).
    destruct (retryLoop _ 0 None hreq w0) as [[e|[code body']] w']; [done|].
    cbn [fst snd] in *. destruct Hres as (j & _ & Hj & _).
    destruct (code =? 200) eqn:Hc; cbn [negb]; [|done].
    apply Z.eqb_eq in Hc as ->.
    destruct (json_Decode_ChatCompletionResponse body') as [result|] eqn:Hd; [|done].
    intros [= <-]. eauto.
  - unfold Anthropic_ChatCompletion.
    destruct (json_Marshal_anthropicRequest _); [|done].
    destruct (http_NewRequest _ _ _ _) as [hreq|]; [|done].
    rewrite bind_eq. unfold Anthropic_doWithRetry, doWithRetry.
    destruct (retryLoop _ 0 None hreq w0) as [[e|[code body']] w']; [done|].
    cbn [fst snd]. destruct (negb _); [done|].
    destruct (json_Decode_anthropicResponse body') as [ar|]; [|done].
    rewrite bind_eq, time_Now_eq. by intros [= <-].
Qed.

(** C5, as the code has it. Every usage record present after a request was
    present before it, or satisfies [total = prompt + completion] (in Go's
    [int] arithmetic), or was recorded for an OpenAI-compatible provider and
    repeats the three counts decoded from the body of a 200 reply of the
    upstream, whatever they are. The Anthropic translation always sets the
    total to the sum of input and output tokens. *)
Theorem usage_accounting (s : Server) (visit : list (string * Provider))
    (r : Request) (req : ChatCompletionRequest) (w : World) :
  decoded r = Ok req →
  let out := handleChatCompletion s visit r w in
  (∀ m, m ∈ metrics.requests (metrics out.1.2) →
        m ∈ metrics.requests (metrics s) ∨
        pm_TotalTokens m = int_add (pm_PromptTokens m) (pm_CompletionTokens m) ∨
        ∃ p body n hreq resp,
          GetForModel (registry s) visit (req_Model req) = inr (OpenAI p) ∧
          RoundTrip n hreq = Response 200 body ∧
          json_Decode_ChatCompletionResponse body = Ok resp ∧
          pm_PromptTokens m = PromptTokens (resp_Usage resp) ∧
          pm_CompletionTokens m = CompletionTokens (resp_Usage resp) ∧
          pm_TotalTokens m = TotalTokens (resp_Usage resp)) ∧
  (∀ ar model t,
      TotalTokens (resp_Usage (convertResponse ar model t))
      = int_add (InputTokens (ares_Usage ar)) (OutputTokens (ares_Usage ar)) ∧
      PromptTokens (resp_Usage (convertResponse ar model t)) = InputTokens (ares_Usage ar) ∧
      CompletionTokens (resp_Usage (convertResponse ar model t))
      = OutputTokens (ares_Usage ar)).
Proof.
  intros Hdec out. split; [|done]. subst out.
  rewrite (handleChatCompletion_cases _ _ _ _ _ Hdec).
  destruct (GetForModel _ _ _) as [err|prov] eqn:Hget; [by left|].
  destruct (cacheLookup_requests s req (now w)) as [Hreqs _].
  destruct (cacheLookup s req (now w)) as [[cached|] s1]; cbn [fst snd] in *;
    [intros m; rewrite Hreqs; by left|].
  destruct (req_Stream req).
  - destruct (handleStreamingCompletion_effects s1 r prov req w) as [_ [->| ->]];
      intros m; cbn [metrics withMetrics].
    + rewrite Hreqs. by left.
    + intros [Hin| ->]%requests_RecordRequest; [rewrite <- Hreqs; by left|].
      right. by left.
  - destruct (ChatCompletion prov req w).1 as [err|resp] eqn:He.
    + rewrite (dispatch_failure _ _ _ _ _ _ He). cbn [fst snd].
      intros m. rewrite Hreqs. by left.
    + destruct (dispatch_success s1 (now w) prov req w resp He) as [_ ->].
      intros m [Hin| ->]%requests_RecordRequest; [rewrite <- Hreqs; by left|].
      right. pose proof (ChatCompletion_usage _ _ _ _ He) as Hu.
      destruct prov as [p|p]; [right|by left].
      destruct Hu as (body & n & hreq & Hrt & Hd).
      exists p, body, n, hreq, resp. done.
Qed.
End Handler.



(** C5 as stated fails for an OpenAI-compatible provider: the upstream replies
    200 with usage [{prompt_tokens: 1, completion_tokens: 1, total_tokens: 5}]
    and the handler records exactly those counts. *)
Lemma usage_mismatch_counterexample :
  ∃ m,
    metrics.requests
      (server.metrics
         (server.handleChatCompletion (net := Fixture.steadyNet 200 Fixture.openaiReply)
            (lib := Fixture.providerLib) (slib := Fixture.serverLib)
            (Fixture.gateway "") (Fixture.visitAll (Fixture.gateway ""))
            (Fixture.post (Fixture.chat "gpt-4" None)) Fixture.world0).1.2) = [m] ∧
    pm_Provider m = "openai" ∧ pm_Success m = true ∧
    pm_PromptTokens m = 1 ∧ pm_CompletionTokens m = 1 ∧ pm_TotalTokens m = 5 ∧
    pm_TotalTokens m ≠ int_add (pm_PromptTokens m) (pm_CompletionTokens m).
Proof. eexists. split; [by vm_compute|]. by vm_compute. Qed.

(** A completion served by the Anthropic client, whose upstream reports 3
    input and 4 output tokens, is recorded with a total of 7. *)
Lemma usage_accounting_witness :
  ∃ m,
    metrics.requests
      (server.metrics
         (server.handleChatCompletion (net := Fixture.steadyNet 200 Fixture.anthropicReply)
            (lib := Fixture.providerLib) (slib := Fixture.serverLib)
            (Fixture.gateway "") (Fixture.visitAll (Fixture.gateway ""))
            (Fixture.post (Fixture.chat "claude-3-haiku" None)) Fixture.world0).1.2) = [m] ∧
    pm_Provider m = "anthropic" ∧
    pm_TotalTokens m = int_add (pm_PromptTokens m) (pm_CompletionTokens m).
Proof.
  eexists. split; [by vm_compute|]. split; [reflexivity|].
  destruct (usage_accounting
              (net := Fixture.steadyNet 200 Fixture.anthropicReply)
              (lib := Fixture.providerLib) (slib := Fixture.serverLib)
              (Fixture.gateway "") (Fixture.visitAll (Fixture.gateway ""))
              (Fixture.post (Fixture.chat "claude-3-haiku" None))
              (Fixture.chat "claude-3-haiku" None) Fixture.world0 eq_refl) as [Hrec _].
  match goal with |- pm_TotalTokens ?m = _ => destruct (Hrec m) as [Hold|[Hsum|Hopenai]] end.
  - vm_compute. left.
  - vm_compute in Hold. inversion Hold.
  - exact Hsum.
  - destruct Hopenai as (p & body & n & hreq & resp & Hget & _).
    vm_compute in Hget. discriminate Hget.
Defined.

(** C2 at a failing input: a non-streaming request for [gpt-4] reaches the
    dispatch, the OpenAI upstream answers 401, the provider call fails after
    one attempt, and the handler returns the error without a usage record:
    the collector holds no request and no per-provider entry, so its error
    counter has nothing to count. *)
Theorem provider_failure_unrecorded :
  let out :=
    server.handleChatCompletion (net := Fixture.steadyNet 401 [])
      (lib := Fixture.providerLib) (slib := Fixture.serverLib)
      (Fixture.gateway "") (Fixture.visitAll (Fixture.gateway ""))
      (Fixture.post (Fixture.chat "gpt-4" None)) Fixture.world0 in
  server.Status out.1.1 = 401 ∧
  called out.2 = [{| callee := "openai"; method := "ChatCompletion";
                     callModel := "gpt-4" |}] ∧
  length (sent out.2) = 1%nat ∧
  metrics.requests (server.metrics out.1.2) = [] ∧
  metrics.byProvider (server.metrics out.1.2) = ∅ ∧
  metrics.cacheMisses (server.metrics out.1.2) = 1.
Proof. by vm_compute. Qed.

(** The same request when the upstream answers 200: one record. *)
Example provider_success_recorded :
  length (metrics.requests
            (server.metrics
               (server.handleChatCompletion
                  (net := Fixture.steadyNet 200 Fixture.openaiReply)
                  (lib := Fixture.providerLib) (slib := Fixture.serverLib)
                  (Fixture.gateway "") (Fixture.visitAll (Fixture.gateway ""))
                  (Fixture.post (Fixture.chat "gpt-4" None)) Fixture.world0).1.2)) = 1%nat.
Proof. by vm_compute. Qed.

(** ** The cache key *)

Section CacheKey.
Context {slib : server.Lib}.

(** C4. The cache key is the hex digest of the JSON of the four fields
    [Model], [Messages], [Temperature], [MaxTokens] and of nothing else: two
    requests that agree on these four have the same key, whatever their
    [Stream], [User], [TopP], [Stop], [XGateway] or other fields. *)
Theorem generateCacheKey_deterministic (r1 r2 : ChatCompletionRequest) :
  req_Model r1 = req_Model r2 →
  req_Messages r1 = req_Messages r2 →
  req_Temperature r1 = req_Temperature r2 →
  req_MaxTokens r1 = req_MaxTokens r2 →
  server.generateCacheKey r1 = server.generateCacheKey r2.
Proof.
  intros Hmodel Hmsgs Htemp Hmax. unfold server.generateCacheKey.
  by rewrite Hmodel, Hmsgs, Htemp, Hmax.
Qed.
End CacheKey.

(** Two requests for [gpt-4] with the same message, one plain, the other
    streaming, for another user, with [top_p], a stop sequence and caching
    disabled: same key. *)
Lemma generateCacheKey_deterministic_witness :
  server.generateCacheKey (slib := Fixture.serverLib) (Fixture.chat "gpt-4" None)
  = server.generateCacheKey (slib := Fixture.serverLib)
      {| req_Model := "gpt-4"; req_Messages := [Fixture.hi]; req_Temperature := None;
         req_TopP := Some 0.5%float; req_N := Some 2; req_Stream := true;
         req_Stop := ["END"]; req_MaxTokens := None; req_PresencePenalty := None;
         req_FrequencyPenalty := None; req_User := "someone";
         req_XGateway := Some Fixture.noCache |}.
Proof.
  apply (generateCacheKey_deterministic (slib := Fixture.serverLib));
    reflexivity.
Defined.

(** ** The response cache *)

Section Cache.
Import cache.

Local Abbreviation csize m := (map_fold (λ (_ : string) item size, size + len (value item)) 0 m).

Lemma len_nonneg (b : bytes) : 0 ≤ len b.
Proof. unfold len. lia. Qed.

Lemma csize_insert (m : gmap string cacheItem) k it :
  m !! k = None → csize (<[k := it]> m) = csize m + len (value it).
Proof. intros Hk. rewrite map_fold_insert_L; [done| |done]. intros; lia. Qed.

Lemma csize_delete (m : gmap string cacheItem) k it :
  m !! k = Some it → csize m = csize (delete k m) + len (value it).
Proof. intros Hk. rewrite (map_fold_delete_L _ _ k it m); [done| |done]. intros; lia. Qed.

Lemma csize_nonneg (m : gmap string cacheItem) : 0 ≤ csize m.
Proof.
  apply (map_fold_weak_ind (λ r _, 0 ≤ r)); [done|].
  intros i x m' r _ Hr. pose proof (len_nonneg (value x)). lia.
Qed.

Lemma csize_delete_le (m : gmap string cacheItem) k : csize (delete k m) ≤ csize m.
Proof.
  destruct (m !! k) as [it|] eqn:Hk.
  - rewrite (csize_delete m k it Hk). pose proof (len_nonneg (value it)). lia.
  - by rewrite delete_id.
Qed.

Lemma csize_replace (m : gmap string cacheItem) k old new :
  m !! k = Some old →
  csize (<[k := new]> m) = csize m - len (value old) + len (value new).
Proof.
  intros Hk. rewrite <- insert_delete_eq, csize_insert by apply lookup_delete_eq.
  rewrite (csize_delete m k old Hk). lia.
Qed.

Lemma csize_foldr_delete_le (m : gmap string cacheItem) ks :
  csize (foldr delete m ks) ≤ csize m.
Proof.
  induction ks as [|k ks IH]; cbn [foldr]; [done|].
  etrans; [apply csize_delete_le|done].
Qed.

(** *** The representation invariant *)

Lemma wf_empty c : items c = ∅ → lru c = [] → wf c.
Proof.
  intros Hi Hl. unfold wf. rewrite Hi, Hl. split; [constructor|].
  split.
  - intros k. rewrite lookup_empty. split; [by intros ?%elem_of_nil|by intros [? ?]].
  - intros k item. by rewrite lookup_empty.
Qed.

Lemma wf_removeItem c item : wf c → wf (removeItem c item).
Proof.
  intros (Hnd & Hmem & Hkey). unfold wf, removeItem, list_Remove. cbn.
  split; [by apply NoDup_filter|]. split.
  - intros k. rewrite list_elem_of_filter, Hmem.
    destruct (decide (k = key item)) as [->|Hne].
    + rewrite lookup_delete_eq. split; [by intros [? _]|by intros [? ?]].
    + rewrite lookup_delete_ne by done. naive_solver.
  - intros k it [_ Hk]%lookup_delete_Some. by apply Hkey.
Qed.

Lemma currentSize_removeItem c item : currentSize (removeItem c item) ≤ currentSize c.
Proof. apply csize_delete_le. Qed.

Lemma elem_of_MoveToFront k k' l :
  k ∈ l → k' ∈ list_MoveToFront k l ↔ k' ∈ l.
Proof.
  intros Hk. unfold list_MoveToFront, list_Remove.
  rewrite bool_decide_eq_true_2 by done.
  rewrite elem_of_cons, list_elem_of_filter.
  destruct (decide (k' = k)) as [->|]; naive_solver.
Qed.

Lemma NoDup_MoveToFront k l : NoDup l → NoDup (list_MoveToFront k l).
Proof.
  intros Hnd. unfold list_MoveToFront, list_Remove. case_bool_decide; [|done].
  constructor; [|by apply NoDup_filter].
  rewrite list_elem_of_filter. naive_solver.
Qed.

(** Well-formedness only looks at the list and the map. *)
Lemma wf_ext c c' : items c' = items c → lru c' = lru c → wf c → wf c'.
Proof. unfold wf. by intros -> ->. Qed.

Lemma wf_Get c k t : wf c → wf (Get c k t).2.
Proof.
  intros Hwf. unfold Get. destruct (items c !! k) as [item|] eqn:Hk.
  - destruct (t >? expiresAt item).
    + cbn. eapply wf_ext; [..|apply (wf_removeItem c item Hwf)]; done.
    + destruct Hwf as (Hnd & Hmem & Hkey). unfold wf. cbn.
      split; [by apply NoDup_MoveToFront|]. split; [|done].
      intros k'. rewrite elem_of_MoveToFront; [done|]. apply Hmem. by eexists.
  - cbn. by eapply wf_ext.
Qed.

Lemma currentSize_Get c k t : currentSize (Get c k t).2 ≤ currentSize c.
Proof.
  unfold Get. destruct (items c !! k) as [item|]; [|done].
  destruct (t >? expiresAt item); [|done]. apply csize_delete_le.
Qed.

Lemma maxSize_Get c k t : maxSize (Get c k t).2 = maxSize c.
Proof.
  unfold Get. destruct (items c !! k) as [item|]; [|done].
  by destruct (t >? expiresAt item).
Qed.

Lemma wf_Delete c k : wf c → wf (Delete c k).
Proof.
  intros Hwf. unfold Delete. destruct (items c !! k); [|done].
  by apply wf_removeItem.
Qed.

Lemma currentSize_Delete c k : currentSize (Delete c k) ≤ currentSize c.
Proof.
  unfold Delete. destruct (items c !! k); [|done]. apply csize_delete_le.
Qed.

Lemma cleanupTick_inv c t :
  wf c →
  wf (cleanupTick c t) ∧ currentSize (cleanupTick c t) ≤ currentSize c ∧
  maxSize (cleanupTick c t) = maxSize c.
Proof.
  intros Hwf. unfold cleanupTick.
  apply (map_fold_weak_ind
           (λ r _, wf r ∧ currentSize r ≤ currentSize c ∧ maxSize r = maxSize c));
    [done|].
  intros k item m r _ (Hr & Hsz & Hmax).
  destruct (t >? expiresAt item); [|done].
  split; [by apply wf_removeItem|]. split; [|done].
  etrans; [apply currentSize_removeItem|done].
Qed.

(** *** Keeping the most recently used entries *)

Lemma retain_full c : retain (length (lru c)) c = c.
Proof. destruct c as [M T its l h ms]. unfold retain. cbn. by rewrite drop_all, firstn_all. Qed.

Lemma retain_retain j k c :
  (j ≤ k)%nat → (k ≤ length (lru c))%nat → retain j (retain k c) = retain j c.
Proof.
  intros Hjk Hk. unfold retain. cbn. f_equal.
  - rewrite <- foldr_app. f_equal.
    rewrite <- (take_drop k (lru c)) at 3.
    rewrite drop_app_le; [done|]. rewrite length_take. lia.
  - rewrite take_take. f_equal. lia.
Qed.

Lemma wf_retain m c : wf c → wf (retain m c).
Proof.
  intros (Hnd & Hmem & Hkey). unfold wf, retain. cbn.
  rewrite <- (take_drop m (lru c)) in Hnd.
  apply NoDup_app in Hnd as (Hnd1 & Hdisj & _).
  split; [done|]. split.
  - intros k. split.
    + intros Hin. rewrite lookup_foldr_delete_not_elem_of by auto.
      apply Hmem. rewrite <- (take_drop m (lru c)), elem_of_app. by left.
    + intros [it [Hnot Hit]%lookup_foldr_delete_Some].
      assert (Hin : k ∈ lru c) by (apply Hmem; by eexists).
      rewrite <- (take_drop m (lru c)), elem_of_app in Hin. by destruct Hin.
  - intros k it [_ Hit]%lookup_foldr_delete_Some. by apply Hkey.
Qed.

Lemma currentSize_retain_le m c : currentSize (retain m c) ≤ currentSize c.
Proof. apply csize_foldr_delete_le. Qed.

Lemma filter_ne_not_elem_of (k : string) (l : list string) :
  k ∉ l → filter (λ x, x ≠ k) l = l.
Proof.
  induction l as [|x l IH]; [done|]. rewrite not_elem_of_cons. intros [Hne Hl].
  rewrite filter_cons_True by done. by rewrite IH.
Qed.

(** On a well-formed cache [evictOldest] drops exactly the least recently
    used entry. *)
Lemma evictOldest_retain c :
  wf c → lru c ≠ [] → evictOldest c = retain (length (lru c) - 1) c.
Proof.
  intros (Hnd & Hmem & Hkey) Hne.
  destruct (last (lru c)) as [k|] eqn:Hlast;
    [|by apply last_None in Hlast].
  apply last_Some in Hlast as [l Hl].
  assert (Hk : is_Some (items c !! k)).
  { apply Hmem. rewrite Hl, elem_of_app. right. by apply list_elem_of_singleton. }
  destruct Hk as [item Hitem]. pose proof (Hkey _ _ Hitem) as Hki.
  unfold evictOldest, list_Back. rewrite Hl, last_snoc, Hitem.
  unfold removeItem, retain, list_Remove. rewrite Hki, Hl.
  rewrite Hl in Hnd. apply NoDup_app in Hnd as (_ & Hdisj & _).
  f_equal.
  - rewrite length_app. cbn [length].
    replace (length l + 1 - 1)%nat with (length l) by lia.
    by rewrite drop_app_length.
  - rewrite length_app. cbn [length].
    replace (length l + 1 - 1)%nat with (length l) by lia.
    rewrite take_app_length, filter_app, filter_ne_not_elem_of.
    + rewrite filter_cons_False, filter_nil, app_nil_r; [done|naive_solver].
    + intros Hin. apply (Hdisj k Hin). by apply list_elem_of_singleton.
Qed.

(** The eviction loop keeps the [m] most recently used entries, for the
    largest [m] that leaves room for [n] more bytes (or none at all). *)
Lemma evictLoop_retain fuel : ∀ c n,
  wf c → (length (lru c) ≤ fuel)%nat →
  ∃ m : nat,
    (m ≤ length (lru c))%nat ∧
    evictLoop fuel c n = retain m c ∧
    (m = 0%nat ∨ currentSize (retain m c) + n ≤ maxSize c) ∧
    (∀ j, (m < j ≤ length (lru c))%nat → currentSize (retain j c) + n > maxSize c).
Proof.
  induction fuel as [|fuel IH]; intros c n Hwf Hlen.
  - exists 0%nat. assert (Hz : length (lru c) = 0%nat) by lia.
    split; [lia|]. split; [|split; [by left|intros; lia]].
    cbn. rewrite <- Hz. by rewrite retain_full.
  - cbn [evictLoop].
    destruct ((currentSize c + n >? maxSize c) && negb (Nat.eqb (length (lru c)) 0))
      eqn:Hcond.
    + apply andb_true_iff in Hcond as [Hbig Hnz].
      apply Z.gtb_lt in Hbig. apply negb_true_iff, Nat.eqb_neq in Hnz.
      assert (Hne : lru c ≠ []) by (by destruct (lru c)).
      rewrite (evictOldest_retain c Hwf Hne).
      set (c1 := retain (length (lru c) - 1) c).
      assert (Hl1 : length (lru c1) = (length (lru c) - 1)%nat).
      { subst c1. cbn. rewrite length_take. lia. }
      destruct (IH c1 n (wf_retain _ _ Hwf) ltac:(lia)) as (m & Hm & Heq & Hfit & Hmin).
      assert (Hrr : ∀ j, (j ≤ length (lru c) - 1)%nat → retain j c1 = retain j c).
      { intros j Hj. subst c1. apply retain_retain; lia. }
      exists m. split; [lia|]. rewrite Heq, Hrr by lia. split; [done|].
      rewrite Hrr in Hfit by lia. split; [exact Hfit|].
      intros j Hj. destruct (decide (j = length (lru c))) as [->|Hjne].
      * rewrite retain_full. lia.
      * rewrite <- Hrr by lia. apply Hmin. lia.
    + exists (length (lru c)). rewrite retain_full.
      split; [lia|]. split; [done|]. split; [|intros; lia].
      apply andb_false_iff in Hcond as [Hsmall|Hz].
      * right. pose proof (Zgt_cases (currentSize c + n) (maxSize c)) as Hc.
        rewrite Hsmall in Hc. lia.
      * left. apply negb_false_iff, Nat.eqb_eq in Hz. done.
Qed.

(** *** [Set] *)

(** A [Set] of a key not in the cache keeps the [m] most recently used
    entries, for the [m] of [evictLoop_retain], and puts the new entry in
    front of them. *)
Lemma Set_fresh c k v t :
  wf c → items c !! k = None →
  ∃ m : nat,
    (m ≤ length (lru c))%nat ∧
    lru (Set_ c k v t) = k :: take m (lru c) ∧
    items (Set_ c k v t)
    = <[k := {| key := k; value := v; expiresAt := t + ttl c |}]>
        (foldr delete (items c) (drop m (lru c))) ∧
    maxSize (Set_ c k v t) = maxSize c ∧
    (m = 0%nat ∨ currentSize (retain m c) + len v ≤ maxSize c) ∧
    (∀ j, (m < j ≤ length (lru c))%nat →
          currentSize (retain j c) + len v > maxSize c).
Proof.
  intros Hwf Hk. unfold Set_. rewrite Hk.
  destruct (evictLoop_retain (length (lru c)) c (len v) Hwf (le_n _))
    as (m & Hm & -> & Hfit & Hmin).
  exists m. by repeat split.
Qed.

Lemma retain_zero_empty c : wf c → currentSize (retain 0 c) = 0.
Proof.
  intros Hwf. pose proof (wf_retain 0 c Hwf) as (_ & Hmem & _).
  unfold currentSize. replace (items (retain 0 c)) with (∅ : gmap string cacheItem);
    [by rewrite map_fold_empty|].
  symmetry. apply map_empty. intros k.
  destruct (items (retain 0 c) !! k) eqn:Hl; [|done].
  assert (Hin : k ∈ lru (retain 0 c)) by (apply Hmem; by eexists).
  cbn in Hin. by apply elem_of_nil in Hin.
Qed.

(** *** Every reachable cache is well formed, and the eviction loop ends *)

Lemma Set_wf c k v t : wf c → wf (Set_ c k v t).
Proof.
  intros Hwf. destruct (items c !! k) as [item|] eqn:Hk.
  - unfold Set_. rewrite Hk. destruct Hwf as (Hnd & Hmem & Hkey).
    assert (Hin : k ∈ lru c) by (apply Hmem; by eexists).
    unfold wf. cbn. split; [by apply NoDup_MoveToFront|]. split.
    + intros k'. rewrite elem_of_MoveToFront by done. rewrite Hmem.
      destruct (decide (k' = k)) as [->|Hne].
      * rewrite lookup_insert_eq, Hk. split; by eexists.
      * by rewrite lookup_insert_ne.
    + intros k' it [[<- <-]|[_ Hit]]%lookup_insert_Some; [|by apply Hkey].
      cbn. by apply Hkey.
  - destruct (Set_fresh c k v t Hwf Hk) as (m & Hm & Hlru & Hitems & _).
    pose proof (wf_retain m c Hwf) as (Hnd & Hmem & Hkey).
    assert (Hnone : foldr delete (items c) (drop m (lru c)) !! k = None).
    { destruct (foldr delete _ _ !! k) eqn:Hl; [|done].
      apply lookup_foldr_delete_Some in Hl as [_ Hl]. congruence. }
    unfold wf. rewrite Hlru, Hitems. cbn in Hnd, Hmem, Hkey. split.
    + constructor; [|done]. intros Hin%Hmem. rewrite Hnone in Hin. by destruct Hin.
    + split.
      * intros k'. rewrite elem_of_cons, Hmem.
        destruct (decide (k' = k)) as [->|Hne].
        -- rewrite lookup_insert_eq. split; [by eexists|by left].
        -- rewrite lookup_insert_ne by done. split; [by intros [?|?]|by right].
      * intros k' it [[<- <-]|[_ Hit]]%lookup_insert_Some; [done|by eapply Hkey].
Qed.

Lemma step_wf c op : wf c → wf (step c op).
Proof.
  intros Hwf. destruct op as [k t|k v t|k| |t]; cbn [step].
  - by apply wf_Get.
  - by apply Set_wf.
  - by apply wf_Delete.
  - by apply wf_empty.
  - by apply cleanupTick_inv.
Qed.

Lemma run_wf ops : ∀ c, wf c → wf (run c ops).
Proof.
  induction ops as [|op ops IH]; intros c Hwf; [done|].
  cbn [run fold_left]. apply IH. by apply step_wf.
Qed.

(** In every cache reachable from an empty one, the rounds [Set] allows its
    eviction loop are enough: the loop's condition is false when it stops. *)
Lemma evictLoop_exits maxSizeMB ttl0 ops n :
  let c := run (NewMemoryCache maxSizeMB ttl0) ops in
  let c' := evictLoop (length (lru c)) c n in
  (currentSize c' + n >? maxSize c') && negb (Nat.eqb (length (lru c')) 0) = false.
Proof.
  intros c c'.
  assert (Hwf : wf c) by (apply run_wf; by apply wf_empty).
  destruct (evictLoop_retain (length (lru c)) c n Hwf (le_n _))
    as (m & Hm & Heq & Hfit & _).
  subst c'. rewrite Heq. destruct Hfit as [->|Hfit].
  - cbn. apply andb_false_r.
  - apply andb_false_iff. left. cbn [maxSize retain].
    pose proof (Zgt_cases (currentSize (retain m c) + n) (maxSize c)) as Hc.
    destruct (_ >? _); [lia|done].
Qed.

(** A [Set] of a key already present replaces the value in place: nothing is
    evicted, and the total changes by the difference of the two lengths. *)
Lemma Set_present_size c k v t item :
  items c !! k = Some item →
  currentSize (Set_ c k v t) = currentSize c - len (value item) + len v.
Proof.
  intros Hk. unfold Set_, currentSize. rewrite Hk. cbn.
  by rewrite (csize_replace _ _ item).
Qed.

Lemma Set_inv c k v t :
  wf c → currentSize c ≤ maxSize c → admissible c (OpSet k v t) →
  wf (Set_ c k v t) ∧ currentSize (Set_ c k v t) ≤ maxSize c ∧
  maxSize (Set_ c k v t) = maxSize c.
Proof.
  intros Hwf Hsz Hadm. split; [by apply Set_wf|]. cbn [admissible] in Hadm.
  destruct (items c !! k) as [item|] eqn:Hk.
  - (* the key is present: the value is replaced in place *)
    rewrite (Set_present_size _ _ _ _ item Hk). split; [lia|].
    unfold Set_. by rewrite Hk.
  - (* a new key: evict, then insert *)
    destruct (Set_fresh c k v t Hwf Hk) as (m & Hm & Hlru & Hitems & Hmax & Hfit & _).
    split; [|done].
    assert (Hnone : foldr delete (items c) (drop m (lru c)) !! k = None).
    { destruct (foldr delete _ _ !! k) eqn:Hl; [|done].
      apply lookup_foldr_delete_Some in Hl as [_ Hl]. congruence. }
    unfold currentSize. rewrite Hitems, csize_insert by done. cbn.
    destruct Hfit as [->|Hfit]; [|exact Hfit].
    pose proof (retain_zero_empty c Hwf) as Hz. unfold currentSize in Hz.
    cbn in Hz. rewrite Hz. lia.
Qed.

(** *** Runs of operations *)

Lemma step_inv c op :
  wf c → currentSize c ≤ maxSize c → admissible c op →
  wf (step c op) ∧ currentSize (step c op) ≤ maxSize c ∧ maxSize (step c op) = maxSize c.
Proof.
  intros Hwf Hsz Hadm. destruct op as [k t|k v t|k| |t]; cbn [step].
  - split; [by apply wf_Get|]. split; [|apply maxSize_Get].
    etrans; [apply currentSize_Get|done].
  - by apply Set_inv.
  - split; [by apply wf_Delete|]. split.
    + etrans; [apply currentSize_Delete|done].
    + unfold Delete. by destruct (items c !! k).
  - split; [by apply wf_empty|]. split; [|done].
    unfold currentSize, Clear. cbn. rewrite map_fold_empty.
    pose proof (csize_nonneg (items c)). unfold currentSize in Hsz. lia.
  - destruct (cleanupTick_inv c t Hwf) as (? & ? & ?). split; [done|]. split; [lia|done].
Qed.

Lemma run_inv ops : ∀ c,
  wf c → currentSize c ≤ maxSize c → admissibleRun c ops →
  wf (run c ops) ∧ currentSize (run c ops) ≤ maxSize c ∧ maxSize (run c ops) = maxSize c.
Proof.
  induction ops as [|op ops IH]; intros c Hwf Hsz Hadm; [done|].
  destruct Hadm as [Hop Hrest]. cbn [run fold_left].
  destruct (step_inv c op Hwf Hsz Hop) as (Hwf' & Hsz' & Hmax').
  destruct (IH (step c op) Hwf' ltac:(lia) Hrest) as (? & ? & ?).
  split; [done|]. split; [unfold run in *; lia|unfold run in *; congruence].
Qed.

Lemma admissibleRun_take i : ∀ ops c,
  admissibleRun c ops → admissibleRun c (take i ops).
Proof.
  induction i as [|i IH]; intros [|op ops] c; cbn; try done.
  intros [? ?]. split; [done|]. by apply IH.
Qed.

Lemma head_MoveToFront k l : k ∈ l → head (list_MoveToFront k l) = Some k.
Proof. intros Hk. unfold list_MoveToFront. by rewrite bool_decide_eq_true_2. Qed.

(** C3, as the code has it. Start from an empty cache whose [maxSize] is not
    negative and run operations of which every [Set] of a new key stores at
    most [maxSize] bytes and every [Set] of a present key stores a value no
    longer than the one it replaces. Then after each operation the stored
    values total at most [maxSize]. In every such state a [Set] of a new key
    keeps the [m] most recently used entries, whatever their expiry, and puts
    the new entry in front, where [m] is the largest count that leaves room
    for the new value (or zero); and a [Set], like a [Get] that hits, makes
    its key the most recently used. *)
Theorem cache_bound (maxSizeMB ttl0 : Z) (ops : list Op) (i : nat) :
  0 ≤ maxSize (NewMemoryCache maxSizeMB ttl0) →
  admissibleRun (NewMemoryCache maxSizeMB ttl0) ops →
  let c := run (NewMemoryCache maxSizeMB ttl0) (take i ops) in
  currentSize c ≤ maxSize c ∧
  maxSize c = maxSize (NewMemoryCache maxSizeMB ttl0) ∧
  (∀ k v t, items c !! k = None →
     ∃ m : nat,
       (m ≤ length (lru c))%nat ∧
       lru (Set_ c k v t) = k :: take m (lru c) ∧
       items (Set_ c k v t)
       = <[k := {| key := k; value := v; expiresAt := t + ttl c |}]>
           (foldr delete (items c) (drop m (lru c))) ∧
       (m = 0%nat ∨ currentSize (retain m c) + len v ≤ maxSize c) ∧
       (∀ j, (m < j ≤ length (lru c))%nat →
             currentSize (retain j c) + len v > maxSize c)) ∧
  (∀ k v t, head (lru (Set_ c k v t)) = Some k) ∧
  (∀ k t b, (Get c k t).1 = Some b → head (lru (Get c k t).2) = Some k).
Proof.
  intros Hmax Hadm c.
  destruct (run_inv (take i ops) (NewMemoryCache maxSizeMB ttl0)) as (Hwf & Hsz & HM).
  { by apply wf_empty. }
  { unfold currentSize. cbn [items NewMemoryCache]. by rewrite map_fold_empty. }
  { by apply admissibleRun_take. }
  fold c in Hwf, Hsz, HM. split; [lia|]. split; [done|]. split; [|split].
  - intros k v t Hk.
    destruct (Set_fresh c k v t Hwf Hk) as (m & Hm & Hlru & Hitems & _ & Hfit & Hmin).
    exists m. done.
  - intros k v t. destruct (items c !! k) as [item|] eqn:Hk.
    + unfold Set_. rewrite Hk. cbn. apply head_MoveToFront.
      destruct Hwf as (_ & Hmem & _). apply Hmem. by eexists.
    + destruct (Set_fresh c k v t Hwf Hk) as (m & _ & -> & _). done.
  - intros k t b. unfold Get. destruct (items c !! k) as [item|] eqn:Hk; [|done].
    destruct (t >? expiresAt item); [done|]. cbn. intros _.
    apply head_MoveToFront. destruct Hwf as (_ & Hmem & _). apply Hmem. by eexists.
Qed.
End Cache.

(** C3 as stated fails: a single value of one byte more than the 1 MB bound
    is stored in the empty cache, and the total exceeds [maxSize]. *)
Lemma cache_bound_counterexample :
  cache.maxSize (cache.NewMemoryCache 1 Hour)
  < cache.currentSize
      (cache.run (cache.NewMemoryCache 1 Hour) [cache.OpSet "k" Fixture.oversized 0]).
Proof.
  unfold cache.run, cache.currentSize. cbn [fold_left cache.step].
  unfold cache.Set_. cbn [cache.items cache.NewMemoryCache].
  rewrite lookup_empty.
  change (cache.evictLoop _ _ _) with (cache.NewMemoryCache 1 Hour).
  cbn [cache.items cache.NewMemoryCache].
  rewrite csize_insert by apply lookup_empty. rewrite map_fold_empty.
  cbn [cache.value cache.maxSize]. unfold len, Fixture.oversized.
  rewrite length_replicate, Z2Nat.id by done. by vm_compute.
Qed.

(** A short run on a 1 MB cache: two entries are stored, one is read, one
    deleted, and the cache is cleared; the bound holds after the third
    operation. *)
Lemma cache_bound_witness :
  cache.currentSize
    (cache.run (cache.NewMemoryCache 1 Hour)
       (take 3 [cache.OpSet "a" (bytes_of_string "first") 0; cache.OpGet "a" 1;
                cache.OpSet "b" (bytes_of_string "second") 2; cache.OpDelete "a";
                cache.OpClear]))
  ≤ cache.maxSize (cache.NewMemoryCache 1 Hour).
Proof.
  destruct (cache_bound 1 Hour
              [cache.OpSet "a" (bytes_of_string "first") 0; cache.OpGet "a" 1;
               cache.OpSet "b" (bytes_of_string "second") 2; cache.OpDelete "a";
               cache.OpClear] 3) as (Hsz & HM & _).
  - by vm_compute.
  - vm_compute. repeat split; discriminate.
  - rewrite <- HM. exact Hsz.
Defined.

(** ** The rate limiter *)

Section RateLimit.
Import middleware.

(** *** One bucket *)

Lemma limiter_Allow_shape l t :
  rate.capacity (rate.Allow l t).2 = rate.capacity l ∧
  rate.window (rate.Allow l t).2 = rate.window l ∧
  rate.lastRefill (rate.Allow l t).2 = Z.max (rate.lastRefill l) t ∧
  rate.tokensRemaining (rate.Allow l t).2
  = (if (rate.Allow l t).1 then rate.refill l t - rate.window l else rate.refill l t) ∧
  ((rate.Allow l t).1 = true ↔ rate.window l ≤ rate.refill l t).
Proof.
  unfold rate.Allow. destruct (rate.refill l t >=? rate.window l) eqn:Hge; cbn.
  - repeat split; try done. intros _. lia.
  - repeat split; try done. lia.
Qed.


(** Once a bucket has been used at [t], using it again at [t] refills
    nothing. *)
Lemma refill_same_instant l t :
  0 ≤ rate.window l →
  rate.tokensRemaining l ≤ rate.capacity l * rate.window l →
  rate.refill (rate.Allow l t).2 t = rate.tokensRemaining (rate.Allow l t).2.
Proof.
  intros Hwin Hcap. destruct (limiter_Allow_shape l t) as (Hc & Hw & Hl & Ht & Hok).
  unfold rate.refill at 1. rewrite Hc, Hw, Hl, Ht.
  replace (Z.max 0 (t - Z.max (rate.lastRefill l) t)) with 0 by lia.
  assert (rate.refill l t ≤ rate.capacity l * rate.window l) by (unfold rate.refill; lia).
  rewrite Z.mul_0_l, Z.add_0_r. destruct (rate.Allow l t).1; lia.
Qed.

Lemma bucketOk_Allow l t :
  0 ≤ rate.window l → bucketOk l → bucketOk (rate.Allow l t).2.
Proof.
  unfold bucketOk. intros Hw Hcap.
  destruct (limiter_Allow_shape l t) as (-> & -> & _ & -> & _).
  assert (rate.refill l t ≤ rate.capacity l * rate.window l) by (unfold rate.refill; lia).
  destruct (rate.Allow l t).1; lia.
Qed.

(** *** The two-tier limiter *)

(** A call either stops at the global bucket, leaving the per-key buckets
    alone, or goes on to the bucket of its key and returns that bucket's
    verdict. *)
Lemma Allow_cases rl key t :
  cfg (Allow rl key t).2 = cfg rl ∧
  (((Allow rl key t).1 = false ∧ limiters (Allow rl key t).2 = limiters rl) ∨
   ((Allow rl key t).1 = (rate.Allow (perKeyLimiter rl key) t).1 ∧
    limiters (Allow rl key t).2
    = <[key := (rate.Allow (perKeyLimiter rl key) t).2]> (limiters rl))).
Proof.
  unfold Allow, perKeyLimiter, getLimiter.
  destruct (global rl) as [g|].
  - destruct (rate.Allow g t) as [[|] g']; cbn [negb]; [|split; [done|by left]].
    cbn [limiters cfg].
    destruct (limiters rl !! key) as [l|]; cbn [fst snd limiters cfg].
    + destruct (rate.Allow l t) as [ok l']. split; [done|by right].
    + destruct (rate.Allow _ t) as [ok l']. split; [done|]. right. cbn.
      by rewrite insert_insert_eq.
  - cbn [negb]. destruct (limiters rl !! key) as [l|]; cbn [fst snd limiters cfg].
    + destruct (rate.Allow l t) as [ok l']. split; [done|by right].
    + destruct (rate.Allow _ t) as [ok l']. split; [done|]. right. cbn.
      by rewrite insert_insert_eq.
Qed.

Lemma perKeyLimiter_eq rl rl' key :
  cfg rl' = cfg rl → limiters rl' !! key = limiters rl !! key →
  perKeyLimiter rl' key = perKeyLimiter rl key.
Proof.
  unfold perKeyLimiter, getLimiter. intros -> ->.
  by destruct (limiters rl !! key).
Qed.

Lemma perKeyLimiter_stored rl key l :
  limiters rl !! key = Some l → perKeyLimiter rl key = l.
Proof. unfold perKeyLimiter, getLimiter. by intros ->. Qed.

Lemma rlOk_perKey rl key :
  rlOk rl →
  rate.capacity (perKeyLimiter rl key) = config.Requests (config.PerKey (cfg rl)) ∧
  rate.window (perKeyLimiter rl key) = config.Window (config.PerKey (cfg rl)) ∧
  bucketOk (perKeyLimiter rl key).
Proof.
  intros Hok. unfold perKeyLimiter, getLimiter.
  destruct (limiters rl !! key) as [l|] eqn:Hl; cbn [fst]; [by apply (Hok key)|].
  unfold bucketOk. cbn. split; [done|]. split; [done|lia].
Qed.

Lemma rlOk_Allow rl key t :
  0 ≤ config.Window (config.PerKey (cfg rl)) → rlOk rl → rlOk (Allow rl key t).2.
Proof.
  intros Hw Hok. destruct (Allow_cases rl key t) as [Hcfg [[_ Hl]|[_ Hl]]];
    unfold rlOk; rewrite Hcfg, Hl; [done|].
  intros key' l [[<- <-]|[_ Hl']]%lookup_insert_Some; [|by apply (Hok key')].
  destruct (rlOk_perKey rl key Hok) as (Hc & Hwin & Hb).
  destruct (limiter_Allow_shape (perKeyLimiter rl key) t) as (Hc' & Hw' & _).
  rewrite Hc', Hw'. split; [done|]. split; [done|].
  apply bucketOk_Allow; [lia|done].
Qed.

Lemma AllowAll_inv calls : ∀ rl,
  0 ≤ config.Window (config.PerKey (cfg rl)) → rlOk rl →
  cfg (AllowAll rl calls).2 = cfg rl ∧ rlOk (AllowAll rl calls).2 ∧
  length (AllowAll rl calls).1 = length calls.
Proof.
  induction calls as [|[key t] calls IH]; intros rl Hw Hok; [done|].
  cbn [AllowAll].
  pose proof (rlOk_Allow rl key t Hw Hok) as Hok'.
  destruct (Allow_cases rl key t) as [Hcfg _].
  destruct (Allow rl key t) as [ok rl1]. cbn [fst snd] in *.
  destruct (IH rl1) as (Hc & Ho & Hlen); [by rewrite Hcfg|done|].
  destruct (AllowAll rl1 calls) as [oks rl2]. cbn [fst snd] in *.
  split; [congruence|]. split; [done|]. cbn [length]. by f_equal.
Qed.

(** Calls for one key at one instant: every grant costs the key's bucket a
    whole token, and nothing comes back. *)
Lemma burst_tokens n key t : ∀ rl,
  0 < rate.window (perKeyLimiter rl key) → bucketOk (perKeyLimiter rl key) →
  Z.of_nat (granted (AllowAll rl (replicate n (key, t))).1)
  * rate.window (perKeyLimiter rl key)
  ≤ Z.max 0 (rate.refill (perKeyLimiter rl key) t).
Proof.
  induction n as [|n IH]; intros rl Hw Hb; [cbn; lia|].
  cbn [replicate AllowAll].
  destruct (Allow_cases rl key t) as [Hcfg Hcases].
  destruct (Allow rl key t) as [ok rl1] eqn:HA. cbn [fst snd] in *.
  specialize (IH rl1).
  destruct (AllowAll rl1 (replicate n (key, t))) as [oks rl2]. cbn [fst snd] in *.
  destruct Hcases as [[-> Hl]|[-> Hl]].
  - (* stopped at the global bucket *)
    assert (Heq : perKeyLimiter rl1 key = perKeyLimiter rl key)
      by (apply perKeyLimiter_eq; [done|by rewrite Hl]).
    rewrite Heq in IH. unfold granted in *. rewrite filter_cons_False by done.
    by apply IH.
  - set (l := perKeyLimiter rl key) in *.
    assert (Heq : perKeyLimiter rl1 key = (rate.Allow l t).2)
      by (apply perKeyLimiter_stored; rewrite Hl; apply lookup_insert_eq).
    rewrite Heq in IH.
    destruct (limiter_Allow_shape l t) as (Hc' & Hw' & _ & Ht & Hok).
    rewrite Hw', refill_same_instant, Ht in IH by (done || lia).
    specialize (IH Hw (bucketOk_Allow l t ltac:(lia) Hb)).
    unfold granted in *. destruct (rate.Allow l t).1.
    + rewrite filter_cons_True by done. cbn [length].
      assert (rate.window l ≤ rate.refill l t) by (by apply Hok). lia.
    + rewrite filter_cons_False by done. lia.
Qed.

Lemma granted_all_or_denied oks : granted oks = length oks ∨ false ∈ oks.
Proof.
  induction oks as [|[|] oks IH]; [by left| |right; by left].
  destruct IH as [IH|IH]; [left|right; by right].
  unfold granted in *. rewrite filter_cons_True by done. cbn [length]. lia.
Qed.

(** C9, for a positive window. From any state the limiter can reach, calls
    for one key at one instant are granted at most [C] times, [C] the
    configured per-key capacity, so among more than [C] such calls one is
    denied. A bucket's [Allow] grants exactly when a whole token is available
    after the refill, takes that token, and otherwise changes nothing but the
    refill bookkeeping; it returns at once either way. The window must be
    positive: with a window of zero a token costs nothing and the bound
    fails. *)
Theorem rate_limit_burst (cfg0 : config.RateLimitConfig) (history : list (string * Z))
    (key : string) (t : Z) (n : nat) :
  0 < config.Window (config.PerKey cfg0) →
  let C := config.Requests (config.PerKey cfg0) in
  let rl := (AllowAll (NewRateLimiter cfg0) history).2 in
  let oks := (AllowAll rl (replicate n (key, t))).1 in
  (granted oks ≤ Z.to_nat C)%nat ∧
  ((Z.to_nat C < n)%nat → false ∈ oks) ∧
  (∀ l t',
      ((rate.Allow l t').1 = true ↔ rate.window l ≤ rate.refill l t') ∧
      rate.tokensRemaining (rate.Allow l t').2
      = (if (rate.Allow l t').1 then rate.refill l t' - rate.window l
         else rate.refill l t')) ∧
  (∀ rl' key' t', (Allow rl' key' t').1 = true →
                  (rate.Allow (perKeyLimiter rl' key') t').1 = true).
Proof.
  intros Hw C rl oks.
  assert (Hok0 : rlOk (NewRateLimiter cfg0)) by (intros k l; cbn; by rewrite lookup_empty).
  destruct (AllowAll_inv history (NewRateLimiter cfg0)) as (Hcfg & Hok & _);
    [cbn; lia|done|].
  fold rl in Hcfg, Hok. cbn [cfg NewRateLimiter] in Hcfg.
  destruct (rlOk_perKey rl key Hok) as (Hcap & Hwin & Hb). rewrite Hcfg in Hcap, Hwin.
  assert (Hbound : (granted oks ≤ Z.to_nat C)%nat).
  { pose proof (burst_tokens n key t rl ltac:(lia) Hb) as Hburst. fold oks in Hburst.
    assert (Hre : rate.refill (perKeyLimiter rl key) t
                  ≤ C * config.Window (config.PerKey cfg0)).
    { unfold rate.refill. rewrite Hcap, Hwin. subst C. lia. }
    rewrite Hwin in Hburst. destruct (decide (0 ≤ C)); nia. }
  split; [exact Hbound|]. split; [|split].
  - intros Hn. destruct (granted_all_or_denied oks) as [Hall|?]; [|done].
    destruct (AllowAll_inv (replicate n (key, t)) rl) as (_ & _ & Hlen);
      [rewrite Hcfg; lia|done|].
    fold oks in Hlen. rewrite length_replicate in Hlen. lia.
  - intros l t'. by destruct (limiter_Allow_shape l t') as (_ & _ & _ & ? & ?).
  - intros rl' key' t' Htrue.
    destruct (Allow_cases rl' key' t') as [_ [[Hf _]|[Heq _]]]; congruence.
Qed.

(** C10. When a global bucket is configured and grants a call, the call
    takes one token from it, and the verdict is then the per-key bucket's:
    a call that its per-key bucket denies has still used up global
    capacity. *)
Theorem global_bucket_drained (rl : RateLimiter) (key : string) (t : Z) (g : rate.Limiter) :
  global rl = Some g →
  (rate.Allow g t).1 = true →
  global (Allow rl key t).2 = Some (rate.Allow g t).2 ∧
  rate.tokensRemaining (rate.Allow g t).2 = rate.refill g t - rate.window g ∧
  (Allow rl key t).1 = (rate.Allow (perKeyLimiter rl key) t).1.
Proof.
  intros Hg Hgrant.
  destruct (limiter_Allow_shape g t) as (_ & _ & _ & Ht & _). rewrite Hgrant in Ht.
  unfold Allow, perKeyLimiter, getLimiter. rewrite Hg.
  destruct (rate.Allow g t) as [ok g']. cbn [fst snd] in *. subst ok. cbn [negb].
  cbn [limiters cfg global].
  destruct (limiters rl !! key) as [l|]; cbn [fst snd limiters cfg global].
  - by destruct (rate.Allow l t).
  - by destruct (rate.Allow _ t).
Qed.
End RateLimit.

(** Scenario D, first half: a per-key bucket of capacity 5 per minute grants
    5 calls at one instant and denies the 6th. *)
Lemma rate_limit_burst_witness :
  (middleware.AllowAll (middleware.NewRateLimiter Fixture.fivePerMinute)
     (replicate 6 ("alice", 0%Z))).1
  = [true; true; true; true; true; false] ∧
  (granted (middleware.AllowAll (middleware.NewRateLimiter Fixture.fivePerMinute)
              (replicate 6 ("alice", 0%Z))).1 ≤ 5)%nat.
Proof.
  split; [by vm_compute|].
  destruct (rate_limit_burst Fixture.fivePerMinute [] "alice" 0 6) as [Hb _].
  - by vm_compute.
  - exact Hb.
Defined.

(** C9 as stated fails for a window of zero: a per-key bucket of capacity 2
    grants four calls for one key at one instant, and denies none. *)
Lemma rate_limit_burst_counterexample :
  config.Requests (config.PerKey Fixture.zeroWindow) = 2 ∧
  (middleware.AllowAll (middleware.NewRateLimiter Fixture.zeroWindow)
     (replicate 4 ("alice", 0%Z))).1
  = [true; true; true; true] ∧
  (2 < granted (middleware.AllowAll (middleware.NewRateLimiter Fixture.zeroWindow)
                  (replicate 4 ("alice", 0%Z))).1)%nat.
Proof. split; [reflexivity|]. split; [by vm_compute|]. vm_compute. lia. Qed.

(** A shared capacity of 3 and a per-key capacity of 1: the second and third
    call of one caller are denied by that caller's bucket, yet each takes a
    global token, and the first call of another caller finds none left. *)
Lemma global_bucket_drained_witness :
  (middleware.AllowAll (middleware.NewRateLimiter Fixture.sharedThree)
     [("alice", 0); ("alice", 0); ("alice", 0); ("bob", 0)]).1
  = [true; false; false; false] ∧
  (∃ g g',
      middleware.global
        (middleware.Allow (middleware.NewRateLimiter Fixture.sharedThree) "alice" 0).2
      = Some g ∧
      (middleware.Allow
         (middleware.Allow (middleware.NewRateLimiter Fixture.sharedThree) "alice" 0).2
         "alice" 0).1 = false ∧
      middleware.global
        (middleware.Allow
           (middleware.Allow (middleware.NewRateLimiter Fixture.sharedThree) "alice" 0).2
           "alice" 0).2 = Some g' ∧
      rate.tokensRemaining g' = rate.tokensRemaining g - Minute).
Proof.
  split; [by vm_compute|].
  eexists _, _. split; [by vm_compute|].
  destruct (global_bucket_drained
              (middleware.Allow (middleware.NewRateLimiter Fixture.sharedThree) "alice" 0).2
              "alice" 0 _ eq_refl) as (Hg & Htok & Hverdict).
  - by vm_compute.
  - split; [by vm_compute|]. split; [exact Hg|]. rewrite Htok. by vm_compute.
Defined.

(** Scenario D on the modelled bucket: capacity 5 per minute grants 5 calls
    at once and denies the 6th; 12 seconds later one token has been refilled
    and a call is granted. *)
Example scenario_D :
  (middleware.AllowAll (middleware.NewRateLimiter Fixture.fivePerMinute)
     (replicate 6 ("alice", 0%Z) ++ [("alice", 12 * Second)])).1
  = [true; true; true; true; true; false; true].
Proof. by vm_compute. Qed.

(** * Further properties of the code *)

(** ** The response cache: round trips, expiry, the sweep, statistics *)

Section CacheMore.
Import cache.

Lemma evictLoop_frame fuel : ∀ c n,
  ttl (evictLoop fuel c n) = ttl c ∧ hits (evictLoop fuel c n) = hits c ∧
  misses (evictLoop fuel c n) = misses c.
Proof.
  induction fuel as [|fuel IH]; intros c n; [done|]. cbn [evictLoop].
  destruct (_ && _); [|done]. destruct (IH (evictOldest c) n) as (-> & -> & ->).
  unfold evictOldest.
  destruct (list_Back (lru c)); [|done]. by destruct (items c !! _).
Qed.

Lemma ttl_evictLoop fuel c n : ttl (evictLoop fuel c n) = ttl c.
Proof. apply evictLoop_frame. Qed.

Lemma reachable_wf maxSizeMB ttl0 ops : wf (run (NewMemoryCache maxSizeMB ttl0) ops).
Proof. apply run_wf. by apply wf_empty. Qed.

Lemma Set_lookup c k v t :
  wf c →
  items (Set_ c k v t) !! k = Some {| key := k; value := v; expiresAt := t + ttl c |}.
Proof.
  intros (_ & _ & Hkey). unfold Set_. destruct (items c !! k) as [item|] eqn:Hk; cbn.
  - rewrite lookup_insert_eq. by rewrite (Hkey _ _ Hk).
  - by rewrite lookup_insert_eq, ttl_evictLoop.
Qed.

(** X1. In any cache reachable from an empty one, a value stored by [Set] at
    time [t] is returned by a [Get] of its key at any time up to [t + ttl] and
    by none after; a [Get] that hits does not extend the life of the entry,
    and the first [Get] after the expiry removes it, so that later ones miss
    even if the clock were to go back. *)
Theorem cache_set_get (maxSizeMB ttl0 : Z) (ops : list Op) (k : string) (v : bytes)
    (t t1 t2 : Z) :
  let c := run (NewMemoryCache maxSizeMB ttl0) ops in
  let c1 := Set_ c k v t in
  (Get c1 k t1).1 = (if t1 >? t + ttl c then None else Some v) ∧
  (Get (Get c1 k t1).2 k t2).1
  = (if (t1 >? t + ttl c) || (t2 >? t + ttl c) then None else Some v) ∧
  (items (Get c1 k t1).2 !! k = None ↔ t + ttl c < t1).
Proof.
  intros c c1.
  pose proof (Set_lookup c k v t (reachable_wf _ _ _)) as Hl. fold c1 in Hl.
  assert (Hg : Get c1 k t1
    = if t1 >? t + ttl c
      then (None, withMisses (removeItem c1 {| key := k; value := v; expiresAt := t + ttl c |})
                    (int_add (misses c1) 1))
      else (Some v, {| maxSize := maxSize c1; ttl := ttl c1; items := items c1;
                       lru := list_MoveToFront k (lru c1);
                       hits := int_add (hits c1) 1; misses := misses c1 |})).
  { unfold Get. by rewrite Hl. }
  rewrite Hg. clear Hg.
  destruct (t1 >? t + ttl c) eqn:Ht1; cbn [fst snd orb].
  - split; [done|]. unfold Get. cbn [removeItem items withMisses key].
    rewrite lookup_delete_eq. split; [done|]. split; [lia|done].
  - split; [done|]. split.
    + unfold Get. cbn [items]. rewrite Hl. cbn. by destruct (t2 >? t + ttl c).
    + cbn [items]. rewrite Hl. split; [done|]. pose proof (Zgt_cases t1 (t + ttl c)) as Hc.
      rewrite Ht1 in Hc. lia.
Qed.

(** X2. In any reachable cache, after [Delete] of a key a [Get] of it misses,
    and the lookups of the other keys are as before; after [Clear] every [Get]
    misses, while the hit and miss counters keep their values. *)
Theorem cache_delete_clear (maxSizeMB ttl0 : Z) (ops : list Op) (k k' : string) (t : Z) :
  let c := run (NewMemoryCache maxSizeMB ttl0) ops in
  (Get (Delete c k) k t).1 = None ∧
  (k' ≠ k → (Get (Delete c k) k' t).1 = (Get c k' t).1) ∧
  (Get (Clear c) k t).1 = None ∧
  hits (Clear c) = hits c ∧ misses (Clear c) = misses c.
Proof.
  intros c. destruct (reachable_wf maxSizeMB ttl0 ops) as (_ & _ & Hkey). fold c in Hkey.
  assert (Hdel : items (Delete c k) = delete k (items c)).
  { unfold Delete. destruct (items c !! k) as [item|] eqn:Hk.
    - cbn. by rewrite (Hkey _ _ Hk).
    - by rewrite delete_id. }
  split; [|split; [|split]].
  - unfold Get. by rewrite Hdel, lookup_delete_eq.
  - intros Hne. unfold Get. rewrite Hdel, lookup_delete_ne by done.
    destruct (items c !! k') as [item|]; [|done]. by destruct (t >? expiresAt item).
  - unfold Get, Clear. cbn. by rewrite lookup_empty.
  - done.
Qed.

Lemma cleanupTick_spec c t :
  wf c →
  let c' := cleanupTick c t in
  (∀ k, items c' !! k = if expired c t k then None else items c !! k) ∧
  lru c' = filter (λ k, expired c t k = false) (lru c) ∧
  hits c' = hits c ∧ misses c' = misses c ∧ ttl c' = ttl c ∧ maxSize c' = maxSize c.
Proof.
  intros (_ & _ & Hkey) c'. subst c'. unfold cleanupTick.
  set (ex := λ (m : gmap string cacheItem) k,
         match m !! k with Some item => t >? expiresAt item | None => false end).
  refine (map_fold_weak_ind (λ r m, m ⊆ items c →
      (∀ k, items r !! k = if ex m k then None else items c !! k) ∧
      lru r = filter (λ k, ex m k = false) (lru c) ∧
      hits r = hits c ∧ misses r = misses c ∧ ttl r = ttl c ∧ maxSize r = maxSize c)
    _ c _ _ (items c) _); [| |done].
  { intros _. split; [done|]. split; [|done].
      induction (lru c) as [|a l IH]; [done|]. rewrite filter_cons_True by done. by f_equal. }
  { intros i x m r Hi IH Hsub.
      assert (Hm : m ⊆ items c).
      { etrans; [|exact Hsub]. by apply insert_subseteq. }
      assert (Hx : items c !! i = Some x).
      { eapply lookup_weaken; [|exact Hsub]. by rewrite lookup_insert_eq. }
      pose proof (Hkey _ _ Hx) as Hkx.
      destruct (IH Hm) as (Hit & Hlru & Hh & Hms & Httl & Hmax).
      destruct (t >? expiresAt x) eqn:Hexp.
      + split; [|split; [|done]].
        * intros k. cbn. rewrite Hkx. unfold ex. destruct (decide (k = i)) as [->|Hne].
          -- by rewrite lookup_delete_eq, lookup_insert_eq, Hexp.
          -- rewrite lookup_delete_ne, lookup_insert_ne by done. apply Hit.
        * cbn. rewrite Hkx, Hlru. unfold list_Remove. rewrite list_filter_filter.
          apply list_filter_iff. intros k. unfold ex.
          destruct (decide (k = i)) as [->|Hne].
          -- rewrite lookup_insert_eq, Hexp. naive_solver.
          -- rewrite lookup_insert_ne by done. naive_solver.
      + split; [|split; [|done]].
        * intros k. rewrite Hit. unfold ex. destruct (decide (k = i)) as [->|Hne].
          -- by rewrite Hi, lookup_insert_eq, Hexp.
          -- by rewrite lookup_insert_ne.
        * rewrite Hlru. apply list_filter_iff. intros k. unfold ex.
          destruct (decide (k = i)) as [->|Hne].
          -- by rewrite Hi, lookup_insert_eq, Hexp.
          -- by rewrite lookup_insert_ne. }
Qed.

(** X3. The expiry sweep of a reachable cache at time [t] removes exactly the
    entries whose expiry is before [t]: the others keep their items, the list
    keeps the order of the surviving keys, and the counters, the TTL and the
    size bound are untouched. A second sweep at the same time changes
    nothing more. *)
Theorem cleanup_removes_expired (maxSizeMB ttl0 : Z) (ops : list Op) (t : Z) :
  let c := run (NewMemoryCache maxSizeMB ttl0) ops in
  let c' := cleanupTick c t in
  (∀ k, items c' !! k = if expired c t k then None else items c !! k) ∧
  lru c' = filter (λ k, expired c t k = false) (lru c) ∧
  hits c' = hits c ∧ misses c' = misses c ∧ ttl c' = ttl c ∧ maxSize c' = maxSize c ∧
  (∀ k, expired c' t k = false) ∧
  items (cleanupTick c' t) = items c' ∧ lru (cleanupTick c' t) = lru c'.
Proof.
  intros c c'.
  pose proof (reachable_wf maxSizeMB ttl0 ops) as Hwf. fold c in Hwf.
  destruct (cleanupTick_spec c t Hwf) as (Hit & Hlru & Hh & Hm & Httl & Hmax).
  fold c' in Hit, Hlru, Hh, Hm, Httl, Hmax.
  assert (Hex : ∀ k, expired c' t k = false).
  { intros k. unfold expired at 1. rewrite Hit. unfold expired.
    destruct (items c !! k) as [item|] eqn:Hk; [|done].
    by destruct (t >? expiresAt item) eqn:He. }
  do 6 (split; [done|]). split; [done|].
  assert (Hwf' : wf c') by (by apply cleanupTick_inv).
  destruct (cleanupTick_spec c' t Hwf') as (Hit' & Hlru' & _). split.
  - apply map_eq. intros k. by rewrite Hit', Hex.
  - rewrite Hlru'. clear -Hex. induction (lru c') as [|a l IH]; [done|].
    rewrite filter_cons_True by apply Hex. by f_equal.
Qed.

(** X4. In any reachable cache the entry count reported by [Stats] is the
    length of the LRU list, whether or not the entries have expired, and is
    zero exactly when no key is stored. *)
Theorem stats_size_is_list_length (maxSizeMB ttl0 : Z) (ops : list Op) :
  let c := run (NewMemoryCache maxSizeMB ttl0) ops in
  Size (Stats c) = Z.of_nat (length (lru c)) ∧
  (Size (Stats c) = 0 ↔ ∀ k, items c !! k = None).
Proof.
  intros c. destruct (reachable_wf maxSizeMB ttl0 ops) as (Hnd & Hmem & _).
  fold c in Hnd, Hmem. unfold Stats. cbn [Size]. split.
  - f_equal. rewrite <- length_map_to_list, <- (length_fmap fst).
    apply Permutation_length, NoDup_Permutation.
    + apply NoDup_fst_map_to_list.
    + done.
    + intros k. rewrite Hmem, list_elem_of_fmap. split.
      * intros ([k' item] & -> & Hin%elem_of_map_to_list). by eexists.
      * intros [item Hk]. exists (k, item). by rewrite elem_of_map_to_list.
  - split.
    + intros Hs. assert (Hem : items c = ∅) by (apply map_size_empty_iff; lia).
      intros k. rewrite Hem. apply lookup_empty.
    + intros Hall. assert (Hem : items c = ∅).
      { apply map_eq. intros k. by rewrite Hall, lookup_empty. }
      by rewrite Hem, map_size_empty.
Qed.

Lemma wrap64_add_l a b : wrap64 (wrap64 a + b) = wrap64 (a + b).
Proof.
  unfold wrap64. f_equal.
  replace ((a + 2 ^ 63) `mod` 2 ^ 64 - 2 ^ 63 + b + 2 ^ 63)
    with ((a + 2 ^ 63) `mod` 2 ^ 64 + b) by lia.
  rewrite Zplus_mod_idemp_l. f_equal. lia.
Qed.

Lemma wrap64_add_r a b : wrap64 (a + wrap64 b) = wrap64 (a + b).
Proof. by rewrite (Z.add_comm a), wrap64_add_l, (Z.add_comm b). Qed.

Lemma gets_snoc ops op : gets (ops ++ [op]) = gets ops + (if isGet op then 1 else 0).
Proof.
  unfold gets. rewrite filter_app, length_app, Nat2Z.inj_add. f_equal.
  destruct (isGet op) eqn:Hop.
  - rewrite filter_cons_True; [done|]. by rewrite Hop.
  - rewrite filter_cons_False; [done|]. rewrite Hop. by intros [].
Qed.

Lemma counters_step c op :
  wrap64 (hits (step c op) + misses (step c op))
  = wrap64 (hits c + misses c + (if isGet op then 1 else 0)).
Proof.
  destruct op as [k t|k v t|k| |t]; cbn [step isGet]; rewrite ?Z.add_0_r.
  - unfold Get. destruct (items c !! k) as [item|]; cbn.
    + destruct (t >? expiresAt item); cbn; unfold int_add.
      * by rewrite wrap64_add_r, Z.add_assoc.
      * rewrite wrap64_add_l. f_equal. lia.
    + unfold int_add. by rewrite wrap64_add_r, Z.add_assoc.
  - unfold Set_. destruct (items c !! k); cbn; [done|].
    by destruct (evictLoop_frame (length (lru c)) c (len v)) as (_ & -> & ->).
  - unfold Delete. by destruct (items c !! k).
  - done.
  - unfold cleanupTick.
    apply (map_fold_weak_ind
             (λ r _, wrap64 (hits r + misses r) = wrap64 (hits c + misses c))); [done|].
    intros i x m r _ IH. by destruct (t >? expiresAt x).
Qed.

(** X5. Every [Get] is counted once, as a hit or as a miss, and nothing else
    moves the counters: after any sequence of operations on a new cache the
    sum of the two counters is the number of [Get]s, in Go's [int64]
    arithmetic. *)
Theorem cache_counters_count_gets (maxSizeMB ttl0 : Z) (ops : list Op) :
  let c := run (NewMemoryCache maxSizeMB ttl0) ops in
  wrap64 (Hits (Stats c) + Misses (Stats c)) = wrap64 (gets ops).
Proof.
  cbn. change (hits _ + misses _) with
    (hits (run (NewMemoryCache maxSizeMB ttl0) ops)
     + misses (run (NewMemoryCache maxSizeMB ttl0) ops)).
  induction ops as [|op ops IH] using rev_ind; [done|].
  unfold run in *. rewrite fold_left_app. cbn [fold_left].
  rewrite counters_step, <- wrap64_add_l, IH, wrap64_add_l.
  by rewrite gets_snoc.
Qed.
End CacheMore.

(** ** The registry: configuration, routing, fallbacks, the model list *)

Section RegistryMore.
Import provider.

Lemma modelMapping_models_lookup (n : string) (ms : list string) : ∀ (m : gmap string string) k,
  fold_left (λ m model, <[model := n]> m) ms m !! k
  = if decide (k ∈ ms) then Some n else m !! k.
Proof.
  induction ms as [|a ms IH]; intros m k; [done|]. cbn [fold_left]. rewrite IH.
  destruct (decide (k ∈ ms)) as [Hin|Hnin].
  - rewrite decide_True; [done|]. by right.
  - destruct (decide (k = a)) as [->|Hne].
    + rewrite decide_True by left. by rewrite lookup_insert_eq.
    + rewrite decide_False; [by rewrite lookup_insert_ne|].
      intros [?|?]%elem_of_cons; done.
Qed.

Lemma modelMapping_unlisted model post : ∀ r,
  Forall (λ q, model ∉ config.pc_Models q) post →
  modelMapping (fold_left registerProvider post r) !! model = modelMapping r !! model.
Proof.
  induction post as [|q post IH]; intros r Hall; [done|].
  apply Forall_cons in Hall as [Hq Hpost]. cbn [fold_left]. rewrite IH by done.
  cbn. rewrite modelMapping_models_lookup. by rewrite decide_False.
Qed.

Lemma providers_registered l : ∀ r pc,
  pc ∈ l →
  ∃ pc', pc' ∈ l ∧ config.pc_Name pc' = config.pc_Name pc ∧
         providers (fold_left registerProvider l r) !! config.pc_Name pc
         = Some (createProvider pc').
Proof.
  induction l as [|q l IH] using rev_ind; intros r pc Hin; [by apply elem_of_nil in Hin|].
  rewrite fold_left_app. cbn.
  destruct (decide (config.pc_Name q = config.pc_Name pc)) as [Heq|Hne].
  - exists q. split; [apply elem_of_app; right; by left|]. split; [done|].
    by rewrite Heq, lookup_insert_eq.
  - apply elem_of_app in Hin as [Hin|Hin%list_elem_of_singleton]; [|by subst].
    destruct (IH r pc Hin) as (pc' & Hin' & Hn & Hl). exists pc'.
    split; [apply elem_of_app; by left|]. split; [done|].
    by rewrite lookup_insert_ne.
Qed.

Lemma Name_createProvider pc : Name (createProvider pc) = config.pc_Name pc.
Proof. unfold createProvider. by destruct (decide _). Qed.

(** X6. A model that a configured provider lists, and that no alias
    redefines, is routed by the registry built from the configuration to the
    provider registered under the name of the last configuration entry
    listing it, whatever order the range over the providers takes and whatever
    the default provider is. *)
Theorem listed_model_routed_to_last_lister (cfg : config.Config)
    (pre post : list config.ProviderConfig) (pc : config.ProviderConfig)
    (visit : list (string * Provider)) (model : string) :
  config.Providers cfg = pre ++ pc :: post →
  model ∈ config.pc_Models pc →
  Forall (λ q, model ∉ config.pc_Models q) post →
  config.ModelMappings (config.Routing cfg) !! model = None →
  modelMapping (NewRegistry cfg) !! model = Some (config.pc_Name pc) ∧
  ∃ pc', pc' ∈ config.Providers cfg ∧ config.pc_Name pc' = config.pc_Name pc ∧
         GetForModel (NewRegistry cfg) visit model = inr (createProvider pc') ∧
         Name (createProvider pc') = config.pc_Name pc.
Proof.
  intros Hcfg Hin Hpost Halias.
  assert (Hmm : modelMapping (NewRegistry cfg) !! model = Some (config.pc_Name pc)).
  { unfold NewRegistry. cbn. rewrite lookup_union_r by (by rewrite lookup_fmap, Halias).
    rewrite Hcfg, fold_left_app. cbn [fold_left]. rewrite modelMapping_unlisted by done.
    cbn. rewrite modelMapping_models_lookup. by rewrite decide_True. }
  split; [done|].
  assert (Hpc : pc ∈ config.Providers cfg).
  { rewrite Hcfg. apply elem_of_app. right. by left. }
  edestruct (providers_registered (config.Providers cfg)) as (pc' & Hin' & Hn & Hl);
    [exact Hpc|].
  exists pc'. split; [done|]. split; [done|]. split.
  - unfold GetForModel. rewrite Hmm. unfold NewRegistry. cbn [providers]. by rewrite Hl.
  - by rewrite Name_createProvider.
Qed.

Lemma listed_model_routed_to_last_lister_witness :
  modelMapping (NewRegistry (Fixture.gatewayConfig "anthropic")) !! "gpt-4" = Some "openai" ∧
  ∃ pc', pc' ∈ config.Providers (Fixture.gatewayConfig "anthropic") ∧
         config.pc_Name pc' = "openai" ∧
         GetForModel (NewRegistry (Fixture.gatewayConfig "anthropic")) [] "gpt-4"
         = inr (createProvider pc') ∧
         Name (createProvider pc') = "openai".
Proof.
  apply (listed_model_routed_to_last_lister (Fixture.gatewayConfig "anthropic")
           [] [Fixture.anthropicConfig] Fixture.openaiConfig [] "gpt-4").
  - reflexivity.
  - cbn. by left.
  - apply Forall_cons. split; [|by apply Forall_nil]. cbn. by intros ?%elem_of_nil.
  - reflexivity.
Defined.

(** X7. The provider name [ResolveModel] returns for the registry built from
    the same configuration is the registry's own mapping of the model, or the
    default provider if there is none; when the mapping names a registered
    provider, [GetForModel] returns that provider. The model name it returns
    is the alias's target, or the model itself. *)
Theorem ResolveModel_agrees_with_mapping (cfg : config.Config) (model : string)
    (visit : list (string * Provider)) :
  let r := NewRegistry cfg in
  (ResolveModel r model cfg).1 = default (defaultProvider r) (modelMapping r !! model) ∧
  (ResolveModel r model cfg).2
  = from_option config.mm_Model model (config.ModelMappings (config.Routing cfg) !! model) ∧
  (∀ p, is_Some (modelMapping r !! model) →
        providers r !! (ResolveModel r model cfg).1 = Some p →
        GetForModel r visit model = inr p).
Proof.
  intros r.
  assert (H1 : (ResolveModel r model cfg).1
               = default (defaultProvider r) (modelMapping r !! model)).
  { unfold ResolveModel.
    destruct (config.ModelMappings (config.Routing cfg) !! model) as [mm|] eqn:Hmm.
    - unfold r at 2, NewRegistry. cbn [modelMapping].
      erewrite lookup_union_Some_l; [done|]. by rewrite lookup_fmap, Hmm.
    - by destruct (modelMapping r !! model). }
  split; [done|]. split.
  - unfold ResolveModel.
    destruct (config.ModelMappings (config.Routing cfg) !! model); [done|].
    by destruct (modelMapping r !! model).
  - intros p [n Hn] Hp. rewrite H1, Hn in Hp. change (providers r !! n = Some p) in Hp.
    unfold GetForModel. by rewrite Hn, Hp.
Qed.

Lemma addFallback_prefix r chain : ∀ acc,
  ∃ more, fold_left (addFallback r) chain acc = acc ++ more.
Proof.
  induction chain as [|n chain IH]; intros acc; [exists []; by rewrite app_nil_r|].
  cbn [fold_left]. destruct (IH (addFallback r acc n)) as [more ->].
  unfold addFallback. destruct (providers r !! n) as [p|]; [|by eexists].
  destruct (existsb _ acc); [by eexists|]. rewrite <- app_assoc. by eexists.
Qed.

Lemma existsb_Name acc (p : Provider) :
  existsb (λ q, bool_decide (Name q = Name p)) acc = true ↔ Name p ∈ Name <$> acc.
Proof.
  rewrite existsb_exists, list_elem_of_fmap. split.
  - intros (q & Hq%list_elem_of_In & Hn%bool_decide_eq_true). by exists q.
  - intros (q & Hn & Hq). exists q. split; [by apply list_elem_of_In|].
    by apply bool_decide_eq_true.
Qed.

Lemma addFallback_inv r n acc :
  NoDup (Name <$> acc) → (∀ p, p ∈ acc → ∃ k, providers r !! k = Some p) →
  NoDup (Name <$> addFallback r acc n) ∧
  (∀ p, p ∈ addFallback r acc n → ∃ k, providers r !! k = Some p) ∧
  (∀ p, providers r !! n = Some p → Name p ∈ Name <$> addFallback r acc n).
Proof.
  intros Hnd Hreg. unfold addFallback. destruct (providers r !! n) as [p|] eqn:Hp.
  - destruct (existsb _ acc) eqn:Hex.
    + split; [done|]. split; [done|]. intros ? [= <-]. by apply existsb_Name.
    + split; [|split].
      * rewrite fmap_app. apply NoDup_app. split; [done|]. split.
        -- intros x Hx [-> | []%elem_of_nil]%elem_of_cons.
           apply existsb_Name in Hx. by rewrite Hx in Hex.
        -- apply NoDup_singleton.
      * intros q [Hq | ->%list_elem_of_singleton]%elem_of_app; [by apply Hreg|by eexists].
      * intros ? [= <-]. rewrite fmap_app, elem_of_app. right. by left.
  - done.
Qed.

Lemma fold_addFallback_inv r chain : ∀ acc,
  NoDup (Name <$> acc) → (∀ p, p ∈ acc → ∃ k, providers r !! k = Some p) →
  let res := fold_left (addFallback r) chain acc in
  NoDup (Name <$> res) ∧
  (∀ p, p ∈ res → ∃ k, providers r !! k = Some p) ∧
  (∀ n p, n ∈ chain → providers r !! n = Some p → Name p ∈ Name <$> res).
Proof.
  induction chain as [|n chain IH]; intros acc Hnd Hreg res.
  - split; [done|]. split; [done|]. by intros ?? ?%elem_of_nil.
  - subst res. cbn [fold_left].
    destruct (addFallback_inv r n acc Hnd Hreg) as (Hnd' & Hreg' & Hn).
    destruct (IH _ Hnd' Hreg') as (Hnd'' & Hreg'' & Hch). split; [done|]. split; [done|].
    intros k p [->|Hk]%elem_of_cons Hp; [|by eapply Hch].
    destruct (addFallback_prefix r chain (addFallback r acc n)) as [more ->].
    rewrite fmap_app, elem_of_app. left. by apply Hn.
Qed.

(** X8. The providers [GetWithFallback] returns are registered, no two of
    them have the same name, the provider the model is mapped to comes first
    if it is registered, and every registered member of the fallback chain
    is represented by a provider of its name. *)
Theorem GetWithFallback_chain (r : Registry) (model : string) :
  let res := GetWithFallback r model in
  NoDup (Name <$> res) ∧
  (∀ p, p ∈ res → ∃ k, providers r !! k = Some p) ∧
  (∀ n p, n ∈ fallbackChain r → providers r !! n = Some p → Name p ∈ Name <$> res) ∧
  (∀ n p, modelMapping r !! model = Some n → providers r !! n = Some p →
          head res = Some p).
Proof.
  intros res. subst res. unfold GetWithFallback.
  set (mapped := match modelMapping r !! model with
                 | Some providerName =>
                     match providers r !! providerName with
                     | Some provider => [provider] | None => [] end
                 | None => [] end).
  assert (Hnd : NoDup (Name <$> mapped)).
  { subst mapped. destruct (modelMapping r !! model) as [n|]; [|apply NoDup_nil_2].
    destruct (providers r !! n); [apply NoDup_singleton|apply NoDup_nil_2]. }
  assert (Hreg : ∀ p, p ∈ mapped → ∃ k, providers r !! k = Some p).
  { subst mapped. intros p. destruct (modelMapping r !! model) as [n|];
      [|by intros ?%elem_of_nil].
    destruct (providers r !! n) eqn:Hn; [|by intros ?%elem_of_nil].
    intros ->%list_elem_of_singleton. by eexists. }
  destruct (fold_addFallback_inv r (fallbackChain r) mapped Hnd Hreg) as (H1 & H2 & H3).
  do 3 (split; [done|]). intros n p Hn Hp.
  destruct (addFallback_prefix r (fallbackChain r) mapped) as [more ->].
  subst mapped. by rewrite Hn, Hp.
Qed.

Lemma containsModel_elem_of models model : containsModel models model = true ↔ model ∈ models.
Proof.
  induction models as [|m models IH]; cbn.
  - split; [done|by intros ?%elem_of_nil].
  - destruct (decide (m = model)) as [->|Hne].
    + split; [by left|done].
    + rewrite IH. split; [by right|]. by intros [?|?]%elem_of_cons.
Qed.

Lemma SupportsModel_Models p model : model ∈ Models p → SupportsModel p model = true.
Proof.
  intros Hin. destruct p as [p|p]; cbn in *.
  - by apply containsModel_elem_of.
  - unfold Anthropic_SupportsModel. apply containsModel_elem_of in Hin.
    unfold Anthropic_Models in Hin. by rewrite Hin.
Qed.

Lemma firstSupporting_some visit model p n :
  (n, p) ∈ visit → SupportsModel p model = true →
  ∃ q, firstSupporting visit model = Some q ∧ SupportsModel q model = true.
Proof.
  induction visit as [|[k q] visit IH]; intros Hin Hs; [by apply elem_of_nil in Hin|].
  cbn. destruct (SupportsModel q model) eqn:Hq; [by eexists|].
  apply elem_of_cons in Hin as [[= -> ->]|Hin]; [congruence|by apply IH].
Qed.

(** X9. Every entry of the model list is a model of a provider the range
    visited, owned by that provider's name and stamped with the current Unix
    time; and every model on the list is one the registry resolves, in the
    same range order, to a provider that supports it or to the one it is
    mapped to - never to an error. The handler leaves the world as it was. *)
Theorem listed_models_resolve (r : Registry) (visit : list (string * Provider)) (w : World) :
  (server.handleListModels visit w).2 = w ∧
  ∀ md, md ∈ server.ml_Data (server.handleListModels visit w).1 →
    server.md_Object md = "model" ∧ server.md_Created md = now w / Second ∧
    (∃ n p, (n, p) ∈ visit ∧ server.md_OwnedBy md = Name p ∧ server.md_ID md ∈ Models p) ∧
    ∃ q, GetForModel r visit (server.md_ID md) = inr q ∧
         (SupportsModel q (server.md_ID md) = true ∨
          ∃ k, modelMapping r !! server.md_ID md = Some k ∧ providers r !! k = Some q).
Proof.
  split; [done|]. intros md. unfold server.handleListModels. cbn [fst server.ml_Data].
  rewrite list_elem_of_In, in_flat_map. intros (p & Hp & Hmd).
  apply in_map_iff in Hmd as (model & <- & Hmodel). cbn.
  apply list_elem_of_In in Hp, Hmodel. unfold List in Hp.
  apply list_elem_of_fmap in Hp as ([n p'] & -> & Hin). cbn in *.
  split; [done|]. split; [done|]. split; [by exists n, p'|].
  destruct (firstSupporting_some visit model p' n Hin (SupportsModel_Models _ _ Hmodel))
    as (q & Hq & Hsup).
  unfold GetForModel. rewrite Hq.
  destruct (modelMapping r !! model) as [k|]; [|by eauto].
  destruct (providers r !! k) as [q'|] eqn:Hk; [|by eauto].
  exists q'. split; [done|]. right. by exists k.
Qed.
End RegistryMore.

(** ** The provider clients: back-off, translation, error surfacing *)

Section ClientsMore.
Context {net : Net} {lib : provider.Lib}.

Lemma triangle_S (s : Z) : 0 ≤ s → (s + 1) * (s + 1 + 1) / 2 = s * (s + 1) / 2 + (s + 1).
Proof.
  intros Hs. replace ((s + 1) * (s + 1 + 1)) with (s * (s + 1) + (s + 1) * 2) by lia.
  by rewrite Z.div_add.
Qed.

Lemma retryLoop_clock n : ∀ a le req w,
  0 ≤ a →
  ∃ k s : nat,
    sent (retryLoop n a le req w).2 = sent w ++ replicate k req ∧
    match (retryLoop n a le req w).1 with
    | inl _ => k = n ∧ s = n
    | inr _ => k = S s
    end ∧
    now (retryLoop n a le req w).2
    = now w + elapsed (length (sent w)) k req
      + Second * (Z.of_nat s * a + Z.of_nat s * (Z.of_nat s + 1) / 2).
Proof.
  induction n as [|n IH]; intros a le req w Ha.
  - exists 0%nat, 0%nat. cbn. rewrite app_nil_r. split; [done|]. split; [done|].
    change (Z.of_nat 0 * (Z.of_nat 0 + 1) / 2) with 0. lia.
  - rewrite retryLoop_S. cbv zeta.
    assert (Hgo : ∀ le',
      let w2 := (time_Sleep ((a + 1) * Second) (client_Do req w).2).2 in
      ∃ k s : nat,
        sent (retryLoop n (a + 1) le' req w2).2 = sent w ++ replicate k req ∧
        match (retryLoop n (a + 1) le' req w2).1 with
        | inl _ => k = S n ∧ s = S n
        | inr _ => k = S s
        end ∧
        now (retryLoop n (a + 1) le' req w2).2
        = now w + elapsed (length (sent w)) k req
          + Second * (Z.of_nat s * a + Z.of_nat s * (Z.of_nat s + 1) / 2)).
    { intros le' w2.
      destruct (IH (a + 1) le' req w2 ltac:(lia)) as (k & s & Hs & Hres & Hnow).
      exists (S k), (S s). split; [|split].
      - rewrite Hs. subst w2. rewrite sent_after_round, <- app_assoc. done.
      - destruct (retryLoop n (a + 1) le' req w2).1; [|by f_equal].
        destruct Hres as [-> ->]. done.
      - rewrite Hnow. subst w2. cbn [time_Sleep client_Do now sent fst snd elapsed].
        rewrite length_app. cbn [length]. rewrite Nat.add_1_r.
        rewrite !Nat2Z.inj_succ, <- !Z.add_1_r.
        rewrite triangle_S by lia. unfold Second. lia. }
    destruct (RoundTrip (length (sent w)) req) as [msg|code body]; [apply Hgo|].
    destruct ((code =? 429) || (code >=? 500)); [apply Hgo|].
    exists 1%nat, 0%nat. cbn. split; [done|]. split; [done|].
    change (Z.of_nat 0 * (Z.of_nat 0 + 1) / 2) with 0. lia.
Qed.

(** X10. The clock of [doWithRetry]: the call takes the time of its round
    trips and, after each of its [s] retriable replies, a sleep of one second
    more than the last - [s (s + 1) / 2] seconds in all. When every attempt
    draws a retriable reply the loop sleeps after the last one too, before it
    returns its error. Stated where the multiplication of the attempt number
    by [time.Second] cannot overflow. *)
Theorem backoff_clock (maxRetries : Z) (req : HttpRequest) (w : World) :
  effectiveMaxRetries maxRetries * Second < 2 ^ 63 →
  let out := doWithRetry maxRetries req w in
  ∃ k s : nat,
    sent out.2 = sent w ++ replicate k req ∧
    match out.1 with
    | inl _ => s = k ∧ k = Z.to_nat (effectiveMaxRetries maxRetries)
    | inr _ => k = S s
    end ∧
    now out.2 = now w + elapsed (length (sent w)) k req
                + Second * (Z.of_nat s * (Z.of_nat s + 1) / 2).
Proof.
  intros _ out. subst out. unfold doWithRetry.
  destruct (retryLoop_clock (Z.to_nat (effectiveMaxRetries maxRetries)) 0 None req w
              ltac:(lia)) as (k & s & Hs & Hres & Hnow).
  exists k, s. split; [done|]. split.
  - destruct (retryLoop _ 0 None req w).1; [|done]. destruct Hres as [-> ->]. done.
  - rewrite Hnow. unfold Second. lia.
Qed.

Lemma ChatCompletion_ProviderErr p req w pe :
  (ChatCompletion p req w).1 = inl (ProviderErr pe) →
  pe_Provider pe = Name p ∧ pe_Type pe = "api_error" ∧
  ∃ n hreq body,
    RoundTrip n hreq = Response (pe_StatusCode pe) body ∧
    retriable (Response (pe_StatusCode pe) body) = false ∧
    pe_StatusCode pe ≠ 200 ∧ pe_Message pe = string_of_bytes body.
Proof.
  unfold ChatCompletion. rewrite bind_eq. cbn [enter fst snd].
  set (w0 := {| now := now w; sent := sent w; called := _ |}).
  destruct p as [p|p].
  - unfold OpenAI_ChatCompletion.
    destruct (json_Marshal_ChatCompletionRequest _); [|done].
    destruct (http_NewRequest _ _ _ _) as [hreq|]; [|done].
    rewrite bind_eq. unfold OpenAI_doWithRetry, doWithRetry.
    destruct (retryLoop_spec (Z.to_nat (effectiveMaxRetries (oa_maxRetries p)))
                0 None hreq w0) as (k & _ & _ & _ & Hres).
    destruct (retryLoop _ 0 None hreq w0) as [[e|[code body']] w'].
    { cbn [fst snd] in *. destruct Hres as (_ & _ & le & ->). done. }
    cbn [fst snd] in *. destruct Hres as (j & _ & Hj & Hnr).
    destruct (code =? 200) eqn:Hc; cbn [negb].
    + by destruct (json_Decode_ChatCompletionResponse body').
    + intros [= <-]. cbn. split; [done|]. split; [done|].
      exists (length (sent w0) + j)%nat, hreq, body'. apply Z.eqb_neq in Hc. done.
  - unfold Anthropic_ChatCompletion.
    destruct (json_Marshal_anthropicRequest _); [|done].
    destruct (http_NewRequest _ _ _ _) as [hreq|]; [|done].
    rewrite bind_eq. unfold Anthropic_doWithRetry, doWithRetry.
    destruct (retryLoop_spec (Z.to_nat (effectiveMaxRetries (an_maxRetries p)))
                0 None hreq w0) as (k & _ & _ & _ & Hres).
    destruct (retryLoop _ 0 None hreq w0) as [[e|[code body']] w'].
    { cbn [fst snd] in *. destruct Hres as (_ & _ & le & ->). done. }
    cbn [fst snd] in *. destruct Hres as (j & _ & Hj & Hnr).
    destruct (code =? 200) eqn:Hc; cbn [negb].
    + destruct (json_Decode_anthropicResponse body'); [|done].
      by rewrite bind_eq, time_Now_eq.
    + intros [= <-]. cbn. split; [done|]. split; [done|].
      exists (length (sent w0) + j)%nat, hreq, body'. apply Z.eqb_neq in Hc. done.
Qed.

Lemma convertMessage_fold msgs : ∀ sys acc,
  fold_left convertMessage msgs (sys, acc)
  = (default sys (msg_Content <$> last (filter (λ m, msg_Role m = "system") msgs)),
     acc ++ ((λ m, {| am_Role := if decide (msg_Role m = "assistant") then "assistant"
                                 else "user";
                      am_Content := msg_Content m |})
             <$> filter (λ m, msg_Role m ≠ "system") msgs)).
Proof.
  induction msgs as [|m msgs IH]; intros sys acc; [by rewrite app_nil_r|].
  cbn [fold_left]. unfold convertMessage at 2.
  destruct (decide (msg_Role m = "system")) as [Hs|Hs].
  - rewrite IH, filter_cons_True, filter_cons_False by auto. f_equal.
    generalize (filter (λ m0, msg_Role m0 = "system") msgs). intros [|m' l]; [done|].
    rewrite last_cons_cons. destruct (last (m' :: l)) eqn:Hl; [done|].
    by apply last_None in Hl.
  - rewrite IH, filter_cons_False, filter_cons_True by auto.
    by rewrite fmap_cons, <- app_assoc.
Qed.

(** X11. What [convertRequest] makes of a canonical request: the messages
    other than system messages, in order, each with the role [assistant] or
    else [user]; as system prompt the content of the last system message
    only, the earlier ones being dropped; 4096 as [max_tokens] unless the
    request sets it; the model mapped by [mapModel]; and no streaming. *)
Theorem convertRequest_shape (req : ChatCompletionRequest) :
  ar_Messages (convertRequest req)
  = ((λ m, {| am_Role := if decide (msg_Role m = "assistant") then "assistant" else "user";
              am_Content := msg_Content m |})
     <$> filter (λ m, msg_Role m ≠ "system") (req_Messages req)) ∧
  ar_System (convertRequest req)
  = default "" (msg_Content <$> last (filter (λ m, msg_Role m = "system")
                                             (req_Messages req))) ∧
  ar_MaxTokens (convertRequest req) = default 4096 (req_MaxTokens req) ∧
  ar_Model (convertRequest req) = mapModel (req_Model req) ∧
  ar_Stream (convertRequest req) = false ∧
  (length (ar_Messages (convertRequest req)) ≤ length (req_Messages req))%nat.
Proof.
  unfold convertRequest. rewrite convertMessage_fold. cbn.
  split; [done|]. split; [done|]. split; [by destruct (req_MaxTokens req)|].
  split; [done|]. split; [done|]. rewrite length_fmap. apply length_filter.
Qed.

(** X12. [mapModel] maps a name once and for all, and the Anthropic client
    built with its default model list supports exactly the names [mapModel]
    sends to a model on that list. *)
Theorem mapModel_default_models (name apiKey baseURL : string) (timeout retries : Z)
    (model : string) :
  let p := NewAnthropicProvider
             {| anc_Name := name; anc_APIKey := apiKey; anc_BaseURL := baseURL;
                anc_Models := []; anc_Timeout := timeout; anc_MaxRetries := retries |} in
  mapModel (mapModel model) = mapModel model ∧
  (Anthropic_SupportsModel p model = true ↔ mapModel model ∈ Anthropic_Models p).
Proof.
  intros p. split.
  - unfold mapModel. repeat (destruct (decide (model = _)) as [->|?]; [done|]).
    repeat (destruct (decide (model = _)); [done|]). done.
  - rewrite <- containsModel_elem_of.
    unfold Anthropic_SupportsModel, Anthropic_Models, mapModel, shortNames. cbn.
    repeat (destruct (decide (_ = model)) as [<-|?]; [done|]).
    repeat (destruct (decide (model = _)) as [->|?]; [done|]).
    repeat (rewrite bool_decide_eq_false_2 by done).
    repeat (destruct (decide (_ = model)); [done|]). done.
Qed.
End ClientsMore.

Lemma backoff_clock_witness :
  let req := {| Method := "POST"; URL := "https://api.openai.com/v1/chat/completions";
                Header := []; Body := None |} in
  let out := @doWithRetry (Fixture.flakyNet Fixture.openaiReply) 0 req Fixture.world0 in
  ∃ k s : nat,
    sent out.2 = sent Fixture.world0 ++ replicate k req ∧
    match out.1 with
    | inl _ => s = k ∧ k = Z.to_nat (effectiveMaxRetries 0)
    | inr _ => k = S s
    end ∧
    now out.2 = now Fixture.world0
                + @elapsed (Fixture.flakyNet Fixture.openaiReply)
                    (length (sent Fixture.world0)) k req
                + Second * (Z.of_nat s * (Z.of_nat s + 1) / 2).
Proof.
  intros req.
  apply (@backoff_clock (Fixture.flakyNet Fixture.openaiReply) 0 req Fixture.world0).
  reflexivity.
Defined.

(** ** The handlers: what reaches the caller *)

Section HandlersMore.
Context {net : Net} {lib : provider.Lib} {slib : server.Lib}.
Import server.

(** X13. What the non-streaming dispatch answers: 200 with the marshalled
    response, marked [X-Cache: MISS]; or an error body whose code is the
    status of the response, which is either 500 - for every failure of the
    client other than a rejected reply, the exhaustion of the retries on 429
    or 5xx replies included - or the status of an upstream reply that is
    neither 200 nor retriable, with that reply's body as message. *)
Theorem dispatch_status (s : Server) (start : Z) (prov : Provider)
    (req : ChatCompletionRequest) (w : World) :
  let resp := (dispatch s start prov req w).1.1 in
  match RespBody resp with
  | BodyBytes _ => Status resp = 200 ∧ Headers resp !! "X-Cache" = Some "MISS"
  | BodyError msg ty code =>
      code = Status resp ∧
      (Status resp = 500 ∧ (ty = "provider_error" ∨ ty = "marshal_error") ∨
       ty = "api_error" ∧ Status resp ≠ 200 ∧
       ∃ n hreq body, RoundTrip n hreq = Response (Status resp) body ∧
                      retriable (Response (Status resp) body) = false ∧
                      msg = string_of_bytes body)
  end.
Proof.
  cbv zeta. unfold dispatch. rewrite bind_eq.
  destruct (ChatCompletion prov req w).1 as [[pe|msg]|resp] eqn:He.
  - destruct (ChatCompletion_ProviderErr prov req w pe He)
      as (_ & Hty & n & hreq & body & Hrt & Hnr & Hne & Hmsg).
    cbn. split; [done|]. right. split; [done|]. split; [done|]. by exists n, hreq, body.
  - cbn. split; [done|]. left. split; [done|]. by left.
  - rewrite !bind_eq, !time_Now_eq. cbn [fst snd].
    destruct (json_Marshal_ChatCompletionResponse resp) as [respBytes|msg].
    + rewrite bind_eq, time_Now_eq, ret_eq. cbn. split; [done|].
      rewrite lookup_insert_ne, lookup_insert_ne by done. by rewrite lookup_insert_eq.
    + cbn. split; [done|]. left. split; [done|]. by right.
Qed.

Lemma ChatCompletionStream_result prov req w :
  (ChatCompletionStream prov req w).1
  = match streamRequest prov req with
    | Err msg => (ChatCompletionStream prov req w).1
    | Ok hreq =>
        match RoundTrip (length (sent w)) hreq with
        | TransportError msg => inl (Errorf ("request failed: " +:+ msg))
        | Response code body =>
            if code =? 200 then inr body
            else inl (ProviderErr {| pe_Provider := Name prov; pe_StatusCode := code;
                                     pe_Message := string_of_bytes body;
                                     pe_Type := "api_error" |})
        end
    end ∧
  (∀ msg, streamRequest prov req = Err msg →
          ∃ m, (ChatCompletionStream prov req w).1 = inl (Errorf m)).
Proof.
  unfold ChatCompletionStream. rewrite bind_eq. cbn [enter fst snd].
  destruct prov as [p|p]; cbn [streamRequest].
  - unfold OpenAI_ChatCompletionStream.
    destruct (json_Marshal_ChatCompletionRequest _) as [body|]; [|by eauto].
    destruct (http_NewRequest _ _ _ _) as [hreq|]; [|by eauto].
    split; [|done]. rewrite bind_eq. cbn [client_Do fst snd sent].
    destruct (RoundTrip _ hreq) as [|code b]; [done|]. by destruct (code =? 200).
  - unfold Anthropic_ChatCompletionStream.
    destruct (json_Marshal_anthropicRequest _) as [body|]; [|by eauto].
    destruct (http_NewRequest _ _ _ _) as [hreq|]; [|by eauto].
    split; [|done]. rewrite bind_eq. cbn [client_Do fst snd sent].
    destruct (RoundTrip _ hreq) as [|code b]; [done|]. by destruct (code =? 200).
Qed.

(** X14. The streaming path makes one attempt and no retry: if the request
    can be built it is sent once, and the reply decides the answer - a
    transport failure gives 500, any status other than 200 is passed on to the
    caller as it is, 429 and 5xx included, with the upstream's body as
    message, and a 200 reply is relayed, or answered with 500 when the writer
    cannot flush. If the request cannot be built nothing is sent. Only a
    relayed stream changes the server. *)
Theorem streaming_single_attempt (s : Server) (r : Request) (prov : Provider)
    (req : ChatCompletionRequest) (w : World) :
  let out := handleStreamingCompletion s r prov req w in
  match streamRequest prov req with
  | Err _ =>
      sent out.2 = sent w ∧ Status out.1.1 = 500 ∧ out.1.2 = s
  | Ok hreq =>
      sent out.2 = sent w ++ [hreq] ∧
      match RoundTrip (length (sent w)) hreq with
      | TransportError msg =>
          out.1 = (writeError ∅ 500 "provider_error" ("request failed: " +:+ msg), s)
      | Response code body =>
          if code =? 200 then
            if canFlush r then
              Status out.1.1 = 200 ∧ RespBody out.1.1 = BodyBytes (relayLines body) ∧
              out.1.2 = withMetrics s (metrics.RecordRequest (metrics s)
                                         (streamRecord prov req out.2) (now out.2))
            else Status out.1.1 = 500 ∧ out.1.2 = s
          else out.1 = (writeError ∅ code "api_error" (string_of_bytes body), s)
      end
  end.
Proof.
  cbv zeta.
  pose proof (ChatCompletionStream_sent prov req w) as Hsent.
  destruct (ChatCompletionStream_result prov req w) as [Hres Herr].
  unfold handleStreamingCompletion. rewrite bind_eq.
  destruct (streamRequest prov req) as [hreq|msg].
  - assert (Hs : sent (ChatCompletionStream prov req w).2 = sent w ++ [hreq]) by done.
    rewrite Hres. clear Hres Herr Hsent.
    destruct (RoundTrip (length (sent w)) hreq) as [msg|code body]; [done|].
    destruct (code =? 200); [|done].
    destruct (canFlush r); cbn [negb]; [|done].
    rewrite !bind_eq, !time_Now_eq. cbn [fst snd ret]. done.
  - destruct (Herr msg eq_refl) as [m ->]. cbn. by rewrite app_nil_r in Hsent.
Qed.

Lemma Set_Get_fresh c k v t t' :
  (cache.Get (cache.Set_ c k v t) k t').1
  = if t' >? t + cache.ttl c then None else Some v.
Proof.
  assert (Hl : ∃ item, cache.items (cache.Set_ c k v t) !! k = Some item ∧
                       cache.value item = v ∧ cache.expiresAt item = t + cache.ttl c).
  { unfold cache.Set_. destruct (cache.items c !! k) as [item|]; cbn.
    - rewrite lookup_insert_eq. by eexists.
    - rewrite lookup_insert_eq, ttl_evictLoop. by eexists. }
  destruct Hl as (item & Hl & Hv & He). unfold cache.Get. rewrite Hl, He, Hv.
  by destruct (t' >? t + cache.ttl c).
Qed.

Lemma ttl_Get c k t : cache.ttl (cache.Get c k t).2 = cache.ttl c.
Proof.
  unfold cache.Get. destruct (cache.items c !! k) as [item|]; [|done].
  by destruct (t >? cache.expiresAt item).
Qed.

Lemma dispatch_stores s c start prov req w :
  cache s = Some c →
  cacheRequested req = true →
  Headers (dispatch s start prov req w).1.1 !! "X-Cache" = Some "MISS" →
  ∃ respBytes,
    RespBody (dispatch s start prov req w).1.1 = BodyBytes respBytes ∧
    registry (dispatch s start prov req w).1.2 = registry s ∧
    cache (dispatch s start prov req w).1.2
    = Some (cache.Set_ c (generateCacheKey req) respBytes
              (now (dispatch s start prov req w).2)).
Proof.
  intros Hc Hcr. unfold dispatch. rewrite bind_eq.
  destruct (ChatCompletion prov req w) as [[err|resp] w']; cbn [fst snd].
  { destruct err; cbn; by rewrite lookup_insert_ne, lookup_empty. }
  rewrite !bind_eq, !time_Now_eq. cbn [fst snd].
  destruct (json_Marshal_ChatCompletionResponse resp) as [respBytes|msg].
  - rewrite bind_eq, time_Now_eq, ret_eq. cbn [fst snd]. intros _.
    exists respBytes. cbn [RespBody cache withMetrics withCache registry].
    by rewrite Hc, Hcr.
  - cbn. by rewrite lookup_insert_ne, lookup_empty.
Qed.

(** X15. A non-streaming request answered with [X-Cache: MISS] by a gateway
    that has a cache is answered from the cache when it is repeated within
    the TTL, counted from the moment the provider's reply was stored, whatever
    the order of the range over the providers: same bytes, [X-Cache: HIT],
    nothing sent upstream, no provider entered, no usage record added. *)
Theorem repeat_served_from_cache (s : Server) (c : cache.MemoryCache)
    (visit visit2 : list (string * Provider)) (r : Request)
    (req : ChatCompletionRequest) (w w2 : World) (prov2 : Provider) :
  decoded r = Ok req →
  cache s = Some c →
  req_Stream req = false →
  cacheRequested req = true →
  let out := handleChatCompletion s visit r w in
  Headers out.1.1 !! "X-Cache" = Some "MISS" →
  GetForModel (registry s) visit2 (req_Model req) = inr prov2 →
  now w2 ≤ now out.2 + cache.ttl c →
  let out2 := handleChatCompletion out.1.2 visit2 r w2 in
  Status out2.1.1 = 200 ∧ RespBody out2.1.1 = RespBody out.1.1 ∧
  Headers out2.1.1 !! "X-Cache" = Some "HIT" ∧
  out2.2 = w2 ∧
  metrics.requests (metrics out2.1.2) = metrics.requests (metrics out.1.2).
Proof.
  intros Hdec Hc Hns Hcr out Hmiss Hget2 Ht out2.
  assert (Hout : ∃ respBytes c',
    cache.ttl c' = cache.ttl c ∧
    RespBody out.1.1 = BodyBytes respBytes ∧ registry out.1.2 = registry s ∧
    cache out.1.2 = Some (cache.Set_ c' (generateCacheKey req) respBytes (now out.2))).
  { revert Hmiss. clear Ht out2. subst out.
    rewrite (handleChatCompletion_cases _ _ _ _ _ Hdec).
    destruct (GetForModel (registry s) visit (req_Model req)) as [err|prov]; [done|].
    unfold cacheLookup. rewrite Hc, Hns, Hcr. cbn [negb andb].
    pose proof (ttl_Get c (generateCacheKey req) (now w)) as Httl.
    destruct (cache.Get c (generateCacheKey req) (now w)) as [[cached|] c']; [done|].
    cbn [snd] in Httl. intros Hmiss.
    edestruct (dispatch_stores
                 (withMetrics (withCache s (Some c')) (metrics.RecordCacheMiss (metrics s)))
                 c' (now w) prov req w) as (respBytes & Hb & Hr & Hca); [done..|].
    exists respBytes, c'. done. }
  destruct Hout as (respBytes & c' & Httl & Hbody & Hreg & Hcache).
  clearbody out. subst out2. rewrite (handleChatCompletion_cases _ _ _ _ _ Hdec), Hreg, Hget2.
  unfold cacheLookup. rewrite Hcache, Hns, Hcr. cbn [negb andb].
  pose proof (Set_Get_fresh c' (generateCacheKey req) respBytes (now out.2) (now w2))
    as HG.
  rewrite Httl in HG.
  assert (Hle : (now w2 >? now out.2 + cache.ttl c) = false).
  { pose proof (Zgt_cases (now w2) (now out.2 + cache.ttl c)) as Hcs.
    destruct (now w2 >? now out.2 + cache.ttl c); [lia|done]. }
  rewrite Hle in HG.
  destruct (cache.Get (cache.Set_ _ _ _ _) (generateCacheKey req) (now w2))
    as [cached c2]. cbn [fst] in HG. subst cached. cbn.
  rewrite Hbody. done.
Qed.

(** X16. A request that opts out of the cache, and a streaming request,
    leave the cache and the hit and miss counters of the collector as they
    were, whatever the outcome; so does a request whose body does not decode,
    which changes nothing at all. *)
Theorem cache_bypass (s : Server) (visit : list (string * Provider)) (r : Request)
    (w : World) :
  let out := handleChatCompletion s visit r w in
  match decoded r with
  | Err _ => out.1.2 = s ∧ out.2 = w ∧ Status out.1.1 = 400
  | Ok req =>
      req_Stream req || negb (cacheRequested req) = true →
      cache out.1.2 = cache s ∧
      metrics.cacheHits (metrics out.1.2) = metrics.cacheHits (metrics s) ∧
      metrics.cacheMisses (metrics out.1.2) = metrics.cacheMisses (metrics s)
  end.
Proof.
  cbv zeta. destruct (decoded r) as [req|msg] eqn:Hdec.
  - intros Hby. rewrite (handleChatCompletion_cases _ _ _ _ _ Hdec).
    destruct (GetForModel _ _ _) as [err|prov]; [done|].
    assert (Hl : cacheLookup s req (now w) = (None, s)).
    { unfold cacheLookup. destruct (cache s); [|done].
      destruct (req_Stream req); [done|]. cbn in Hby. apply negb_true_iff in Hby.
      by rewrite Hby. }
    rewrite Hl. destruct (req_Stream req) eqn:Hst.
    + destruct (handleStreamingCompletion_effects s r prov req w) as (_ & [->| ->]);
        [done|]. cbn. by destruct (metrics s).
    + cbn in Hby. apply negb_true_iff in Hby.
      unfold dispatch. rewrite bind_eq.
      destruct (ChatCompletion prov req w) as [[err|resp] w']; cbn [fst snd]; [done|].
      rewrite !bind_eq, !time_Now_eq. cbn [fst snd].
      destruct (json_Marshal_ChatCompletionResponse resp) as [respBytes|m].
      * rewrite bind_eq, time_Now_eq, ret_eq. cbn [fst snd withMetrics cache].
        destruct (cache s) eqn:Hc; rewrite ?Hby; cbn; by rewrite ?Hc.
      * cbn. by destruct (metrics s).
  - unfold handleChatCompletion. by rewrite bind_eq, time_Now_eq, Hdec.
Qed.

(** X17. After [handleCacheClear] every cache lookup of the handler misses, so
    the next request goes to the provider; the usage records and the
    collector's counters are not reset, nor are the cache's own hit and miss
    counters. *)
Theorem cache_clear_forgets (s : Server) (req : ChatCompletionRequest) (t : Z) :
  let s' := (handleCacheClear s).2 in
  Status (handleCacheClear s).1 = 200 ∧
  (cacheLookup s' req t).1 = None ∧
  metrics s' = metrics s ∧ registry s' = registry s ∧
  match cache s, cache s' with
  | Some c, Some c' =>
      cache.items c' = ∅ ∧ cache.lru c' = [] ∧ cache.hits c' = cache.hits c ∧
      cache.misses c' = cache.misses c ∧ cache.maxSize c' = cache.maxSize c ∧
      cache.ttl c' = cache.ttl c
  | None, None => True
  | _, _ => False
  end.
Proof.
  cbv zeta. unfold handleCacheClear, cacheLookup. cbn [fst snd Status].
  destruct (cache s) as [c|] eqn:Hc; cbn [withCache cache metrics registry].
  - split; [done|]. split; [|done].
    destruct (negb (req_Stream req) && cacheRequested req); [|done].
    unfold cache.Get, cache.Clear. cbn. by rewrite lookup_empty.
  - by rewrite Hc.
Qed.
End HandlersMore.

(** Scenario A: the second of two identical requests for [gpt-4], made at the
    moment the first was answered, is a hit. *)
Lemma repeat_served_from_cache_witness :
  let s := Fixture.gateway "openai" in
  let r := Fixture.post (Fixture.chat "gpt-4" None) in
  let out := server.handleChatCompletion (net := Fixture.steadyNet 200 Fixture.openaiReply)
               (lib := Fixture.providerLib) (slib := Fixture.serverLib)
               s (Fixture.visitAll s) r Fixture.world0 in
  let out2 := server.handleChatCompletion (net := Fixture.steadyNet 200 Fixture.openaiReply)
                (lib := Fixture.providerLib) (slib := Fixture.serverLib)
                out.1.2 (Fixture.visitAll s) r out.2 in
  server.Status out2.1.1 = 200 ∧ server.RespBody out2.1.1 = server.RespBody out.1.1 ∧
  server.Headers out2.1.1 !! "X-Cache" = Some "HIT" ∧
  out2.2 = out.2 ∧
  metrics.requests (server.metrics out2.1.2) = metrics.requests (server.metrics out.1.2).
Proof.
  intros s r out.
  apply (repeat_served_from_cache
           (net := Fixture.steadyNet 200 Fixture.openaiReply)
           (lib := Fixture.providerLib) (slib := Fixture.serverLib)
           s (cache.NewMemoryCache 1 Hour) (Fixture.visitAll s) (Fixture.visitAll s) r
           (Fixture.chat "gpt-4" None) Fixture.world0 out.2 Fixture.openaiProvider).
  - reflexivity.
  - reflexivity.
  - reflexivity.
  - reflexivity.
  - by vm_compute.
  - by vm_compute.
  - vm_compute. discriminate.
Defined.

(** ** The collector: counters and the retention window *)

Section MetricsMore.
Import metrics.

Lemma sumOf_snoc f ms m : sumOf f (ms ++ [m]) = sumOf f ms + f m.
Proof. unfold sumOf. induction ms as [|a ms IH]; cbn; [lia|]. rewrite IH. lia. Qed.

Lemma recordAll_snoc c calls m t :
  recordAll c (calls ++ [(m, t)]) = RecordRequest (recordAll c calls) m t.
Proof. unfold recordAll. by rewrite fold_left_app. Qed.

Lemma totalTokens_recordAll calls :
  totalTokens (recordAll NewCollector calls) = wrap64 (sumOf pm_TotalTokens calls.*1).
Proof.
  induction calls as [|[m t] calls IH] using rev_ind; [done|].
  rewrite recordAll_snoc, fmap_app. cbn [RecordRequest totalTokens fmap list_fmap fst].
  rewrite IH, sumOf_snoc. unfold int_add. by rewrite wrap64_add_l.
Qed.

(** X18. The collector's counters are cumulative and exact up to the
    wrap-around of [int64]: after any run of [RecordRequest] calls on a new
    collector the token total is the sum over all the records, and a provider
    has an entry exactly if a record names it, which counts those records,
    sums their tokens, and counts those among them that are marked failed. *)
Theorem counters_are_sums (calls : list (ProviderMetrics * Z)) (name : string) :
  let c := recordAll NewCollector calls in
  let mine := filter (λ m, pm_Provider m = name) calls.*1 in
  totalTokens c = wrap64 (sumOf pm_TotalTokens calls.*1) ∧
  match byProvider c !! name with
  | None => mine = []
  | Some ps =>
      mine ≠ [] ∧
      ps_Requests ps = wrap64 (Z.of_nat (length mine)) ∧
      ps_Tokens ps = wrap64 (sumOf pm_TotalTokens mine) ∧
      ps_Errors ps = wrap64 (Z.of_nat (length (filter (λ m, pm_Success m = false) mine)))
  end.
Proof.
  cbv zeta. split; [apply totalTokens_recordAll|].
  induction calls as [|[m t] calls IH] using rev_ind; [done|].
  rewrite recordAll_snoc, fmap_app, filter_app. cbn [fmap list_fmap fst].
  rename IH into Hps.
  - cbn [RecordRequest byProvider].
    destruct (decide (pm_Provider m = name)) as [Hn|Hn].
    + rewrite Hn, lookup_insert_eq, (filter_cons_True _ m) by done. cbn [filter list_filter].
      split; [by destruct (filter _ _)|].
      rewrite length_app, filter_app, length_app, sumOf_snoc, !Nat2Z.inj_add.
      cbn [length]. unfold updateProviderStats. cbn [ps_Requests ps_Tokens ps_Errors].
      destruct (byProvider (recordAll NewCollector calls) !! name) as [ps|].
      * destruct Hps as (_ & H1 & H2 & H3). cbn [default from_option id].
        rewrite H1, H2, H3. unfold int_add. rewrite !wrap64_add_l. split; [done|]. split; [done|].
        destruct (pm_Success m) eqn:Hsu; cbn [negb].
        -- rewrite filter_cons_False by congruence. cbn.
           change (Z.of_nat 0) with 0. by rewrite Z.add_0_r.
        -- rewrite filter_cons_True by done. reflexivity.
      * rewrite Hps. cbn [default from_option id zeroProviderStats ps_Requests ps_Tokens
                            ps_Errors app length sumOf foldr filter list_filter].
        unfold int_add. split; [done|]. split; [done|].
        destruct (pm_Success m); reflexivity.
    + rewrite lookup_insert_ne, (filter_cons_False _ m) by done. cbn [filter list_filter].
      rewrite ?filter_nil, app_nil_r.
      exact Hps.
Qed.

Lemma ascending_snoc ts t :
  ascending (ts ++ [t]) = true →
  ascending ts = true ∧ ∀ t', last ts = Some t' → t' ≤ t.
Proof.
  induction ts as [|a [|b ts] IH]; cbn [app ascending].
  - by split.
  - intros [Hab _]%andb_true_iff. split; [done|]. intros t' [= <-]. lia.
  - intros [Hab Hrest]%andb_true_iff. destruct (IH Hrest) as [Hasc Hlast].
    split; [by apply andb_true_iff|]. intros t'. rewrite last_cons_cons. apply Hlast.
Qed.

(** X19. The list of raw records is a sliding window: when the clock does not
    go back between calls, what [RecordRequest] keeps is the records made so
    far whose timestamp is less than an hour before the latest call, in order
    - so the [TotalRequests] of [GetStats] counts the records of the last
    hour only, next to a token total that is cumulative. *)
Theorem requests_window (calls : list (ProviderMetrics * Z)) :
  ascending calls.*2 = true →
  let c := recordAll NewCollector calls in
  requests c
  = match last calls with
    | None => []
    | Some (_, t) => filter (λ r, t - Hour < pm_Timestamp r) calls.*1
    end ∧
  TotalRequests (GetStats c) = Z.of_nat (length (requests c)) ∧
  agg_TotalTokens (GetStats c) = wrap64 (sumOf pm_TotalTokens calls.*1).
Proof.
  intros Hasc c. split; [|split; [done|apply totalTokens_recordAll]].
  subst c. induction calls as [|[m t] calls IH] using rev_ind; [done|].
  rewrite fmap_app in Hasc. apply ascending_snoc in Hasc as [Hasc Hlast].
  rewrite recordAll_snoc, last_snoc, fmap_app. cbn [RecordRequest requests fmap list_fmap fst].
  rewrite IH by done. rewrite !filter_app. f_equal.
  destruct (last calls) as [[m' t']|] eqn:Hl.
  - rewrite list_filter_filter. apply list_filter_iff. intros r.
    assert (t' ≤ t). { apply Hlast. by rewrite fmap_last, Hl. }
    lia.
  - apply last_None in Hl. by subst calls.
Qed.
End MetricsMore.

Lemma requests_window_witness :
  let calls := [(Fixture.record "openai" 5 0, 0);
                (Fixture.record "openai" 7 (2 * Hour), 2 * Hour)] in
  let c := metrics.recordAll metrics.NewCollector calls in
  metrics.requests c
  = match last calls with
    | None => []
    | Some (_, t) => filter (λ r, t - Hour < pm_Timestamp r) calls.*1
    end ∧
  metrics.TotalRequests (metrics.GetStats c) = Z.of_nat (length (metrics.requests c)) ∧
  metrics.agg_TotalTokens (metrics.GetStats c) = wrap64 (sumOf pm_TotalTokens calls.*1).
Proof.
  intros calls. apply (requests_window calls). reflexivity.
Defined.

(** ** The middlewares: authentication and the limiter table *)

Section MiddlewareMore.
Import middleware.

Lemma string_drop_bearer k : string_drop 7 ("Bearer " +:+ k) = k.
Proof. reflexivity. Qed.

Lemma substring_bearer k : String.substring 0 7 ("Bearer " +:+ k) = "Bearer ".
Proof. cbn. by destruct k. Qed.

(** X20. With keys configured and outside the health endpoints, [Auth] lets
    a request through exactly when its header is not empty and its key is in
    the table with the value true. The key is what follows [Bearer ] when the
    header starts with it and is longer than those seven bytes; otherwise it
    is the whole header, so the header that is [Bearer ] and nothing more is
    looked up as it is. A request without the header is rejected with 401, as
    is one whose key is in the table with the value false. *)
Theorem Auth_accepts_enabled_keys (apiKeys : gmap string bool) (path : string) :
  path ≠ "/health" → path ≠ "/ready" → apiKeys ≠ ∅ →
  (∀ k, Auth apiKeys path ("Bearer " +:+ k) = Next
        ↔ apiKeys !! (if decide (k = "") then "Bearer " else k) = Some true) ∧
  (∀ a, String.substring 0 7 a ≠ "Bearer " →
        (Auth apiKeys path a = Next ↔ a ≠ "" ∧ apiKeys !! a = Some true)) ∧
  Auth apiKeys path ""
  = Respond 401 [("Content-Type", "application/json")] (authError "Missing API key") ∧
  ∀ authorization, ∃ verdict,
    Auth apiKeys path authorization = verdict ∧
    (verdict = Next ∨ ∃ body, verdict = Respond 401 [("Content-Type", "application/json")] body).
Proof.
  intros Hh Hr Hkeys.
  assert (Hsz : Nat.eqb (size apiKeys) 0 = false).
  { apply Nat.eqb_neq. by intros ?%map_size_empty_iff. }
  assert (Hacc : ∀ key, (if default false (apiKeys !! key) then Next
                         else Respond 401 [("Content-Type", "application/json")]
                                (authError "Invalid API key")) = Next
                        ↔ apiKeys !! key = Some true).
  { intros key. destruct (apiKeys !! key) as [[|]|]; cbn; naive_solver. }
  unfold Auth.
  rewrite (bool_decide_eq_false_2 (path = "/health")),
          (bool_decide_eq_false_2 (path = "/ready")) by done.
  cbn [orb]. rewrite Hsz.
  split; [|split; [|split]].
  - intros k. rewrite (bool_decide_eq_false_2 ("Bearer " +:+ k = "")) by done.
    destruct (decide (k = "")) as [->|Hk].
    + change (Nat.ltb 7 (String.length ("Bearer " +:+ ""))) with false.
      cbn [andb]. apply Hacc.
    + rewrite substring_bearer, string_drop_bearer, bool_decide_eq_true_2 by done.
      replace (Nat.ltb 7 (String.length ("Bearer " +:+ k))) with true
        by (by destruct k). apply Hacc.
  - intros a Hpre. destruct (decide (a = "")) as [->|Ha].
    + rewrite bool_decide_eq_true_2 by done. split; [done|]. by intros [? _].
    + rewrite (bool_decide_eq_false_2 (a = "")) by done.
      rewrite (bool_decide_eq_false_2 (String.substring 0 7 a = "Bearer ")) by done.
      rewrite andb_false_r, Hacc. naive_solver.
  - done.
  - intros authorization. eexists. split; [done|].
    destruct (bool_decide (authorization = "")); [right; by eexists|].
    destruct (default false _); [by left|right; by eexists].
Qed.

Lemma Auth_accepts_enabled_keys_witness :
  (∀ k, Auth {[ "sk-live" := true ]} "/v1/chat/completions" ("Bearer " +:+ k) = Next
        ↔ ({[ "sk-live" := true ]} : gmap string bool)
            !! (if decide (k = "") then "Bearer " else k) = Some true) ∧
  (∀ a, String.substring 0 7 a ≠ "Bearer " →
        (Auth {[ "sk-live" := true ]} "/v1/chat/completions" a = Next
         ↔ a ≠ "" ∧ ({[ "sk-live" := true ]} : gmap string bool) !! a = Some true)) ∧
  Auth {[ "sk-live" := true ]} "/v1/chat/completions" ""
  = Respond 401 [("Content-Type", "application/json")] (authError "Missing API key") ∧
  ∀ authorization, ∃ verdict,
    Auth {[ "sk-live" := true ]} "/v1/chat/completions" authorization = verdict ∧
    (verdict = Next ∨ ∃ body, verdict = Respond 401 [("Content-Type", "application/json")] body).
Proof.
  apply (Auth_accepts_enabled_keys {[ "sk-live" := true ]} "/v1/chat/completions").
  - discriminate.
  - discriminate.
  - apply insert_non_empty.
Defined.

(** X21. The health endpoints and a gateway without keys need no
    credentials: [Auth] passes every request to [/health] and [/ready], and
    every request at all when the key table is empty, whatever the header. *)
Theorem Auth_open_paths (apiKeys : gmap string bool) (path authorization : string) :
  Auth apiKeys "/health" authorization = Next ∧
  Auth apiKeys "/ready" authorization = Next ∧
  Auth ∅ path authorization = Next.
Proof.
  split; [done|]. split; [done|]. unfold Auth.
  by destruct (bool_decide (path = "/health") || bool_decide (path = "/ready")).
Qed.

(** X22. The limiter table of the [RateLimit] middleware: a request is
    bucketed under its [Authorization] header as sent, or under the remote
    address when it has none; the call touches no bucket but that one; no
    bucket is ever removed; a request the global limiter lets through has
    its bucket in the table afterwards; and the answer is either the next
    handler or 429 with [Retry-After: 60]. *)
Theorem RateLimit_touches_one_bucket (rl : RateLimiter) (authorization remoteAddr : string)
    (now : Z) :
  let key := if bool_decide (authorization = "") then remoteAddr else authorization in
  let out := RateLimit rl authorization remoteAddr now in
  cfg out.2 = cfg rl ∧
  (∀ k, k ≠ key → limiters out.2 !! k = limiters rl !! k) ∧
  (∀ k, is_Some (limiters rl !! k) → is_Some (limiters out.2 !! k)) ∧
  (out.1 = Next → is_Some (limiters out.2 !! key)) ∧
  (out.1 = Next ∨
   ∃ body, out.1 = Respond 429 [("Content-Type", "application/json"); ("Retry-After", "60")]
                     body) ∧
  (out.1 = Next ↔ (Allow rl key now).1 = true).
Proof.
  intros key out. subst out. unfold RateLimit. fold key.
  destruct (Allow_cases rl key now) as [Hcfg Hcases].
  destruct (Allow rl key now) as [ok rl'] eqn:HA. cbn [fst snd] in *.
  assert (Hv : (if negb ok then
                  (Respond 429 [("Content-Type", "application/json"); ("Retry-After", "60")]
                     ("{" +:+ provider.quoted "error" +:+ ":{" +:+ provider.quoted "message"
                      +:+ ":" +:+ provider.quoted "Rate limit exceeded" +:+ ","
                      +:+ provider.quoted "type" +:+ ":" +:+ provider.quoted "rate_limit_error"
                      +:+ "," +:+ provider.quoted "code" +:+ ":429}}"), rl')
                else (Next, rl')).2 = rl') by (by destruct ok).
  rewrite Hv. split; [done|].
  destruct Hcases as [[-> Hl]|[Hok Hl]]; rewrite Hl; cbn [negb fst].
  - split; [done|]. split; [done|]. split; [done|]. split; [right; by eexists|]. done.
  - split; [intros k Hk; by rewrite lookup_insert_ne|].
    split.
    { intros k Hk. destruct (decide (k = key)) as [->|Hne];
        [by rewrite lookup_insert_eq|by rewrite lookup_insert_ne]. }
    split; [by rewrite lookup_insert_eq|].
    destruct ok; cbn; split; [by left|done|right; by eexists|done].
Qed.
End MiddlewareMore.

(** ** Pricing *)

Section Pricing.

(** X23. The price table is keyed by exact model name. A model without an
    entry costs nothing, whatever the token counts - and that is the case of
    every model on the Anthropic client's default list, whose dated names are
    not the short names the table knows, while every model on the OpenAI
    client's default list has a price. No tokens cost nothing for any
    model. *)
Theorem unpriced_models_cost_nothing (model : string) (promptTokens completionTokens : Z) :
  (ModelPricing model = None → CalculateCost model promptTokens completionTokens = 0%float) ∧
  (∀ cfg, anc_Models cfg = [] → model ∈ Anthropic_Models (NewAnthropicProvider cfg) →
          CalculateCost model promptTokens completionTokens = 0%float) ∧
  (∀ cfg, oc_Models cfg = [] → model ∈ OpenAI_Models (NewOpenAIProvider cfg) →
          is_Some (ModelPricing model)) ∧
  CalculateCost model 0 0 = 0%float.
Proof.
  split; [|split; [|split]].
  - unfold CalculateCost. by intros ->.
  - intros cfg Hm. unfold Anthropic_Models, NewAnthropicProvider. cbn [an_models].
    rewrite Hm. cbn [length Nat.eqb].
    intros Hin. repeat (apply elem_of_cons in Hin as [->|Hin]; [reflexivity|]).
    by apply elem_of_nil in Hin.
  - intros cfg Hm. unfold OpenAI_Models, NewOpenAIProvider. cbn [oa_models].
    rewrite Hm. cbn [length Nat.eqb].
    intros Hin. repeat (apply elem_of_cons in Hin as [->|Hin]; [by eexists|]).
    by apply elem_of_nil in Hin.
  - unfold CalculateCost, ModelPricing.
    repeat (destruct (decide (model = _)); [reflexivity|]). reflexivity.
Qed.
End Pricing.

(** ** Routing and bookkeeping invariants *)

Section Invariants.
Context {net : Net} {lib : provider.Lib} {slib : server.Lib}.
Import server.

Lemma firstSupporting_elem visit model q :
  firstSupporting visit model = Some q → ∃ n, (n, q) ∈ visit.
Proof.
  induction visit as [|[n p] visit IH]; [done|]. cbn.
  destruct (SupportsModel p model).
  - intros [= ->]. exists n. by left.
  - intros [k Hk]%IH. exists k. by right.
Qed.

(** X24. When the range visits registered providers, whatever [GetForModel]
    returns is registered; with a registered default provider it returns a
    provider for every model name; and its only error is the one that names
    the model. *)
Theorem GetForModel_registered (r : Registry) (visit : list (string * Provider))
    (model : string) :
  (∀ n p, (n, p) ∈ visit → providers r !! n = Some p) →
  (∀ q, GetForModel r visit model = inr q → ∃ n, providers r !! n = Some q) ∧
  (∀ d, defaultProvider r ≠ "" → providers r !! defaultProvider r = Some d →
        ∃ q, GetForModel r visit model = inr q) ∧
  (∀ e, GetForModel r visit model = inl e →
        e = Errorf ("no provider found for model: " +:+ model)).
Proof.
  intros Hvisit. unfold GetForModel.
  destruct (match modelMapping r !! model with
            | Some providerName => providers r !! providerName
            | None => None
            end) as [p|] eqn:Hmap.
  { split; [|split; [by eauto|done]]. intros q [= <-].
    destruct (modelMapping r !! model) as [k|]; [by exists k|done]. }
  destruct (firstSupporting visit model) as [p|] eqn:Hfs.
  { split; [|split; [by eauto|done]]. intros q [= <-].
    destruct (firstSupporting_elem _ _ _ Hfs) as [n Hn]. exists n. by apply Hvisit. }
  destruct (decide (defaultProvider r = "")) as [Hd|Hd].
  { split; [done|]. split; [done|]. by intros e [= <-]. }
  destruct (providers r !! defaultProvider r) as [p|] eqn:Hp.
  - split; [|split; [by eauto|done]]. intros q [= <-]. by eexists.
  - split; [done|]. split; [done|]. by intros e [= <-].
Qed.

Lemma Get_counters c k t :
  match (cache.Get c k t).1 with
  | Some _ => cache.hits (cache.Get c k t).2 = int_add (cache.hits c) 1 ∧
              cache.misses (cache.Get c k t).2 = cache.misses c
  | None => cache.hits (cache.Get c k t).2 = cache.hits c ∧
            cache.misses (cache.Get c k t).2 = int_add (cache.misses c) 1
  end.
Proof.
  unfold cache.Get. destruct (cache.items c !! k) as [item|]; [|done].
  by destruct (t >? cache.expiresAt item).
Qed.

Lemma Set_counters c k v t :
  cache.hits (cache.Set_ c k v t) = cache.hits c ∧
  cache.misses (cache.Set_ c k v t) = cache.misses c.
Proof.
  unfold cache.Set_. destruct (cache.items c !! k); cbn; [done|].
  by destruct (evictLoop_frame (length (cache.lru c)) c (len v)) as (_ & -> & ->).
Qed.

Lemma mirrors_RecordRequest s m t :
  mirrors s → mirrors (withMetrics s (metrics.RecordRequest (metrics s) m t)).
Proof. unfold mirrors. cbn. by destruct (cache s). Qed.

Lemma mirrors_dispatch s start prov req w :
  mirrors s → mirrors (dispatch s start prov req w).1.2.
Proof.
  intros Hm. unfold dispatch. rewrite bind_eq.
  destruct (ChatCompletion prov req w) as [[err|resp] w']; cbn [fst snd]; [done|].
  rewrite !bind_eq, !time_Now_eq. cbn [fst snd].
  destruct (json_Marshal_ChatCompletionResponse resp) as [respBytes|msg].
  - rewrite bind_eq, time_Now_eq, ret_eq. cbn [fst snd withMetrics cache].
    unfold mirrors in *. destruct (cache s) as [c|] eqn:Hc; cbn; [|by rewrite Hc].
    destruct (cacheRequested req); cbn; [|by rewrite Hc].
    by destruct (Set_counters c (generateCacheKey req) respBytes (now w')) as [-> ->].
  - cbn [fst snd]. by apply mirrors_RecordRequest.
Qed.

(** X25. The collector's cache hit and miss counters mirror the cache's own:
    they agree on the server [New] builds, and the chat handler and
    [handleCacheClear] keep them in agreement, whatever the request and the
    upstream's replies. *)
Theorem collector_mirrors_cache (cfg : config.Config) (s : Server)
    (visit : list (string * Provider)) (r : Request) (w : World) :
  mirrors (New cfg) ∧
  (mirrors s →
   mirrors (handleChatCompletion s visit r w).1.2 ∧ mirrors (handleCacheClear s).2).
Proof.
  split.
  { unfold mirrors, New. cbn. by destruct (config.cc_Enabled (config.Cache cfg)). }
  intros Hm. split.
  - destruct (decoded r) as [req|msg] eqn:Hdec.
    2:{ unfold handleChatCompletion. by rewrite bind_eq, time_Now_eq, Hdec. }
    rewrite (handleChatCompletion_cases _ _ _ _ _ Hdec).
    destruct (GetForModel _ _ _) as [err|prov]; [done|].
    assert (Hl : mirrors (cacheLookup s req (now w)).2).
    { unfold cacheLookup, mirrors in *.
      destruct (cache s) as [c|] eqn:Hc; [|cbn; by rewrite Hc].
      destruct (negb (req_Stream req) && cacheRequested req); [|cbn; by rewrite Hc].
      pose proof (Get_counters c (generateCacheKey req) (now w)) as HG.
      destruct (cache.Get c (generateCacheKey req) (now w)) as [[b|] c']; cbn in *;
        destruct Hm as [-> ->]; by destruct HG as [-> ->]. }
    destruct (cacheLookup s req (now w)) as [[cached|] s1]; [done|]. cbn [snd] in Hl.
    destruct (req_Stream req).
    + destruct (handleStreamingCompletion_effects s1 r prov req w) as (_ & [->| ->]);
        [done|by apply mirrors_RecordRequest].
    + by apply mirrors_dispatch.
  - unfold handleCacheClear, mirrors in *. cbn [snd].
    destruct (cache s) as [c|] eqn:Hc; cbn; [done|by rewrite Hc].
Qed.
End Invariants.

Lemma GetForModel_registered_witness :
  let r := server.registry (Fixture.gateway "anthropic") in
  let visit := Fixture.visitAll (Fixture.gateway "anthropic") in
  (∀ q, GetForModel r visit "unknown-model-xyz" = inr q → ∃ n, providers r !! n = Some q) ∧
  (∀ d, defaultProvider r ≠ "" → providers r !! defaultProvider r = Some d →
        ∃ q, GetForModel r visit "unknown-model-xyz" = inr q) ∧
  (∀ e, GetForModel r visit "unknown-model-xyz" = inl e →
        e = Errorf ("no provider found for model: " +:+ "unknown-model-xyz")).
Proof.
  intros r visit. apply (GetForModel_registered r visit "unknown-model-xyz").
  intros n p Hin. by apply elem_of_map_to_list.
Defined.
